(** * jsiqle: the record collection engine and the relationship resolver

    A shallow embedding of [src/record/set.js] (class [RecordSet]), of
    [src/relationship.js] (class [Relationship]) and of the methods of
    [src/model.js] that parse a scope and update a record, with the
    properties of the specification stated and proved over it.

    Conventions of the embedding.
    - A JavaScript [Map] is an association list in insertion order whose
      keys are pairwise distinct; [Map.prototype.set] on a key that is
      present replaces the value in place, on a new key it appends.
    - A method that only reads [this] and returns a new object is a
      function from the state of [this] to the state of the new object.
      A method that writes [this] returns its outcome and the new state
      of [this].  Objects live in a store ([Store]) addressed by references,
      where freshness and sharing are explicit.
    - A thrown exception is the [Throw] outcome of [result].
    - Callbacks are total functions; truthiness of their result is a [bool].
      The third argument of a callback (the record set itself) is given as
      the list of its entries.
    - A number is given by its value, an integer ([Z]); the Numbers of the
      language are doubles, so [PNum n] stands for a Number when [n] is an
      integer a double holds (every integer of magnitude up to [2^53],
      and beyond it the integers with 53 significant bits).  The string
      form of a number is the one [Number::toString] gives. *)

From Stdlib Require Import ZArith Lia List Permutation Sorted.
From stdpp Require Import base decidable option list strings gmap pretty.

Open Scope string_scope.
Open Scope list_scope.
Open Scope Z_scope.

(** ** JavaScript values *)

Inductive prim : Type :=
  | PUndefined
  | PNull
  | PBool (b : bool)
  | PNum (n : Z)
  | PStr (s : string).

#[global] Instance prim_eq_dec : EqDecision prim.
Proof. solve_decision. Defined.

(** A field of a record holds a primitive, an array of primitives (a list
    of foreign keys) or another record. *)
#[warnings="-register-all"]
Inductive value : Type :=
  | VPrim (p : prim)
  | VArr (xs : list prim)
  | VRec (id : prim) (fields : list (string * value)).

(** Modelled from the spec: the Record proxy, whose handler
    ([RecordHandler]) is defined outside [set.js] and [relationship.js].
    "Record: key + field values": a record is its key, read as
    [record.id] and as [record[model[$key].name]], and the raw values of
    its other fields ([record[$recordValue]]). *)
Record record : Type := mkRecord {
  rid : prim;
  rfields : list (string * value)
}.

Definition VRecord (r : record) : value := VRec (rid r) (rfields r).

Definition truthy (p : prim) : bool :=
  match p with
  | PUndefined | PNull => false
  | PBool b => b
  | PNum n => negb (n =? 0)
  | PStr s => negb (String.eqb s "")
  end.

Definition truthy_value (v : value) : bool :=
  match v with
  | VPrim p => truthy p
  | VArr _ | VRec _ _ => true
  end.

(** *** The string form of a number

    [Number::toString] prints the fewest decimal digits that still
    identify the double, followed by zeros up to the size of the number
    ([2^64] is printed 18446744073709552000); a number of [10^21] or more
    is printed in the exponent form ([1e+21]).  Below [2^53] every
    integer is a double of its own and is printed digit for digit. *)

(** The double nearest to the integer [z >= 0], ties to the even
    significand: what the language reads the numeral [z] as. *)
Definition round_to_double (z : Z) : Z :=
  if z <? 2 ^ 53 then z
  else
    let e := Z.log2 z - 52 in
    let q := z / 2 ^ e in
    let r := z mod 2 ^ e in
    let half := 2 ^ (e - 1) in
    let q' := if r <? half then q
              else if half <? r then q + 1
              else if Z.even q then q else q + 1 in
    q' * 2 ^ e.

Definition digits_of (z : Z) : Z := Z.of_nat (String.length (pretty z)).

(** The number with [k] significant digits that reads back as the double
    [v] (of [n] digits), if there is one: the multiple of [10^(n-k)] just
    below [v] or just above it, the nearer one when both do. *)
Definition candidate (v n k : Z) : option Z :=
  let p := 10 ^ (n - k) in
  let lo := (v / p) * p in
  let hi := lo + p in
  match round_to_double lo =? v, round_to_double hi =? v with
  | true, true =>
      if v - lo <? hi - v then Some lo
      else if hi - v <? v - lo then Some hi
      else Some (if Z.even (lo / p) then lo else hi)
  | true, false => Some lo
  | false, true => Some hi
  | false, false => None
  end.

(** The candidate of the fewest digits, [k] counting up from 1; with [n]
    digits [v] itself is one. *)
Fixpoint shortest (fuel : nat) (v n k : Z) : Z :=
  match fuel with
  | O => v
  | S fuel' =>
      match candidate v n k with
      | Some c => c
      | None => shortest fuel' v n (k + 1)
      end
  end.

Fixpoint strip_zeros (fuel : nat) (c : Z) : Z :=
  match fuel with
  | O => c
  | S fuel' =>
      if (c mod 10 =? 0) && negb (c =? 0) then strip_zeros fuel' (c / 10) else c
  end.

(** [d.ddde+x]: the significant digits of [c], a point after the first
    when there are more, and the exponent. *)
Definition exponent_form (c : Z) : string :=
  let n := digits_of c in
  let s := pretty (strip_zeros (Z.to_nat n) c) in
  let e := pretty (n - 1) in
  match s with
  | String d EmptyString => String d ("e+" ++ e)
  | String d rest => String d ("." ++ rest ++ "e+" ++ e)
  | EmptyString => EmptyString
  end.

Definition Number_toString_pos (z : Z) : string :=
  if z <? 2 ^ 53 then pretty z
  else
    let v := round_to_double z in
    if 2 ^ 1024 <=? v then "Infinity"
    else
      let n := digits_of v in
      let c := shortest (Z.to_nat n) v n 1 in
      if digits_of c <=? 21 then pretty c else exponent_form c.

Definition Number_toString (z : Z) : string :=
  if z <? 0 then "-" ++ Number_toString_pos (- z) else Number_toString_pos z.

(** [ToString] of the language, on primitives. *)
Definition ToString (p : prim) : string :=
  match p with
  | PUndefined => "undefined"
  | PNull => "null"
  | PBool true => "true"
  | PBool false => "false"
  | PNum n => Number_toString n
  | PStr s => s
  end.

(** [Array.prototype.join(',')], which is [ToString] of an array:
    [undefined] and [null] elements give the empty string. *)
Definition join_element (p : prim) : string :=
  match p with
  | PUndefined | PNull => ""
  | _ => ToString p
  end.

Fixpoint join_array (xs : list prim) : string :=
  match xs with
  | [] => ""
  | [x] => join_element x
  | x :: rest => (join_element x ++ "," ++ join_array rest)%string
  end.

(** ** Outcomes *)

Inductive error : Type :=
  | TypeError (msg : string)
  | ReferenceError (msg : string)
  | DuplicationError (msg : string)
  | NameError (msg : string).

Inductive result (A : Type) : Type :=
  | Ok (a : A)
  | Throw (e : error).
Arguments Ok {A} a.
Arguments Throw {A} e.

Definition bind {A B} (m : result A) (k : A -> result B) : result B :=
  match m with
  | Ok a => k a
  | Throw e => Throw e
  end.

#[global] Instance result_bind : MBind result := fun A B k m => bind m k.
#[global] Instance result_ret : MRet result := fun A a => Ok a.
#[global] Instance result_fmap : FMap result :=
  fun A B f m => match m with Ok a => Ok (f a) | Throw e => Throw e end.

Definition is_NameError (e : error) : bool :=
  match e with NameError _ => true | _ => false end.

Definition is_NameError_outcome {A} (r : result A) : bool :=
  match r with Throw e => is_NameError e | Ok _ => false end.

(** A JavaScript argument that is expected to be a function: either a
    function, or some value that is not one. *)
Inductive arg (F : Type) : Type :=
  | Fn (f : F)
  | NotFn (v : value).
Arguments Fn {F} f.
Arguments NotFn {F} v.

(** [typeof a === 'function'] *)
Definition is_function {F} (a : arg F) : bool :=
  match a with Fn _ => true | NotFn _ => false end.

Definition truthy_arg {F} (a : arg F) : bool :=
  match a with Fn _ => true | NotFn v => truthy_value v end.

(** ** The native [Map] *)

Section Map.
Context {K V : Type} `{EqDecision K}.

Fixpoint Map_has (k : K) (m : list (K * V)) : bool :=
  match m with
  | [] => false
  | (k', _) :: m' => if decide (k = k') then true else Map_has k m'
  end.

Fixpoint Map_get (k : K) (m : list (K * V)) : option V :=
  match m with
  | [] => None
  | (k', v) :: m' => if decide (k = k') then Some v else Map_get k m'
  end.

Fixpoint Map_set (k : K) (v : V) (m : list (K * V)) : list (K * V) :=
  match m with
  | [] => [(k, v)]
  | (k', v') :: m' =>
      if decide (k = k') then (k', v) :: m' else (k', v') :: Map_set k v m'
  end.

Fixpoint Map_delete (k : K) (m : list (K * V)) : list (K * V) :=
  match m with
  | [] => []
  | (k', v') :: m' =>
      if decide (k = k') then m' else (k', v') :: Map_delete k m'
  end.

(** [new Map(iterable)], and every loop [for (e of iterable) m.set(...)]. *)
Definition Map_set_all (it : list (K * V)) (m : list (K * V)) : list (K * V) :=
  fold_left (fun acc e => Map_set (fst e) (snd e) acc) it m.

Definition Map_new (it : list (K * V)) : list (K * V) := Map_set_all it [].

Definition keys (m : list (K * V)) : list K := fst <$> m.
End Map.

(** ** Arrays *)

(** [Array.prototype.sort(compare)].  For a consistent comparator the
    language fixes the result (in comparator order, equal elements in
    their old order) and not the algorithm; for any other comparator the
    order is left to the implementation.  The sort is embedded as the
    stable insertion sort, which gives the result the language requires
    ([Array_sort_unique]); what it gives for a comparator that is not
    consistent is one of the orders an engine may give, and only facts
    that hold of every rearrangement are stated for those.
    [compare a b > 0] puts [a] after [b]. *)
Fixpoint Array_sort_insert {A} (compare : A -> A -> Z) (x : A) (l : list A) : list A :=
  match l with
  | [] => [x]
  | y :: l' =>
      if 0 <? compare x y then y :: Array_sort_insert compare x l' else x :: l
  end.

Definition Array_sort {A} (compare : A -> A -> Z) (l : list A) : list A :=
  fold_right (Array_sort_insert compare) [] l.

(** [Array.prototype.slice(start, end)]; [None] is an argument left
    [undefined]. *)
Definition relative_index (len : Z) (i : Z) : Z :=
  if i <? 0 then Z.max (len + i) 0 else Z.min i len.

Definition Array_slice {A} (start end_ : option Z) (l : list A) : list A :=
  let len := Z.of_nat (length l) in
  let k := relative_index len (default 0 start) in
  let final := relative_index len (default len end_) in
  take (Z.to_nat (final - k)) (drop (Z.to_nat k) l).

(** [Array.prototype.includes], on primitives. *)
Definition Array_includes (x : prim) (l : list prim) : bool :=
  existsb (fun y => bool_decide (x = y)) l.

(** ** RecordSet ([src/record/set.js]) *)

Module RecordSet.

(** [Object.getOwnPropertyNames(RecordSet.prototype)]: the constructor and
    the string-named methods and accessors of the class, in source order. *)
Definition prototype_names : list string :=
  [ "constructor"; "set"; "delete"; "clear"; "map"; "reduce"; "filter";
    "find"; "findId"; "only"; "except"; "sort"; "every"; "some"; "select";
    "pluck"; "groupBy"; "duplicate"; "merge"; "append"; "where"; "whereNot";
    "batchIterator"; "limit"; "offset"; "slice"; "first"; "last"; "count";
    "length"; "ids"; "toArray"; "toObject"; "toJSON" ].

(** The string-named members a RecordSet inherits from [Map.prototype]
    that the class does not override, [size] apart. *)
Definition Map_prototype_names : list string :=
  [ "get"; "has"; "forEach"; "entries"; "keys"; "values" ].

(** The members every object inherits from [Object.prototype]. *)
Definition Object_prototype_names : list string :=
  [ "constructor"; "__defineGetter__"; "__defineSetter__"; "hasOwnProperty";
    "__lookupGetter__"; "__lookupSetter__"; "isPrototypeOf";
    "propertyIsEnumerable"; "toString"; "valueOf"; "__proto__";
    "toLocaleString" ].

Definition mem (name : string) (names : list string) : bool :=
  bool_decide (name ∈ names).

(** An entry [[id, value]] of the map *)
Abbreviation entry R := (prim * R)%type.

Section Records.
(** The type of the records the set holds *)
Context {R : Type}.

(** [callbackFn(value, id, recordSet)] *)
Definition callback : Type := R -> prim -> list (entry R) -> bool.
(** [comparatorFn(value1, value2, id1, id2)] *)
Definition comparator : Type := R -> R -> prim -> prim -> Z.

Definition scope : Type := callback * arg comparator.

(** The state of a RecordSet object: the entries of the [Map] it extends
    and its private [#scopes] table.  Every write to [#scopes] defines,
    in the same step, the accessor of that name on the object (lines
    571-577 and 594-600), so the accessors an object owns are the names
    of its scope table. *)
Record t : Type := mk {
  entries : list (entry R);
  scopes : list (string * scope)
}.

Definition size (this : t) : Z := Z.of_nat (length (entries this)).
Definition ids (this : t) : list prim := keys (entries this).
Definition own_accessors (this : t) : list string := keys (scopes this).

Definition has (id : prim) (this : t) : bool := Map_has id (entries this).
Definition get (id : prim) (this : t) : option R := Map_get id (entries this).

(** [#copyScopes(otherRecordSet)], on the table under construction *)
Definition copyScopes (otherRecordSet : t) (table : list (string * scope))
  : list (string * scope) :=
  Map_set_all (scopes otherRecordSet) table.

(** [new RecordSet({ iterable, copyScopesFrom })] *)
Definition new (iterable : list (entry R)) (copyScopesFrom : option t) : t :=
  mk (Map_set_all iterable [])
     (match copyScopesFrom with
      | Some other => copyScopes other []
      | None => []
      end).

(** *** The public mutators of [Map], disabled *)

Definition set (args : list value) (this : t) : result unit * t :=
  (Throw (TypeError "You cannot directly modify a RecordSet. Please use `Model.prototype.createRecord()` instead."),
   this).

Definition delete (args : list value) (this : t) : result unit * t :=
  (Throw (TypeError "You cannot directly modify a RecordSet. Please use `Model.prototype.deleteRecord()` instead."),
   this).

Definition clear (args : list value) (this : t) : result unit * t :=
  (Throw (TypeError "You cannot directly modify a RecordSet Please use `Model.prototype.deleteRecord()` instead."),
   this).

(** *** Protected entry points *)

(** [[$set](id, value)] *)
Definition set' (id : prim) (value : R) (this : t) : t :=
  mk (Map_set id value (entries this)) (scopes this).

(** [[$delete](id)] *)
Definition delete' (id : prim) (this : t) : t :=
  mk (Map_delete id (entries this)) (scopes this).

(** [[$clearRecordSetForTesting]()] *)
Definition clearRecordSetForTesting (this : t) : t :=
  mk [] (scopes this).

(** *** Reading *)

Definition call (callbackFn : callback) (this : t) (e : entry R) : bool :=
  callbackFn (snd e) (fst e) (entries this).

(** [filter(callbackFn, { flat: true })] *)
Definition filter_flat (callbackFn : callback) (this : t) : list R :=
  fold_left (fun arr e => if call callbackFn this e then arr ++ [snd e] else arr)
            (entries this) [].

(** [filter(callbackFn)] *)
Definition filter (callbackFn : callback) (this : t) : t :=
  fold_left (fun newMap e =>
               if call callbackFn this e then set' (fst e) (snd e) newMap
               else newMap)
            (entries this) (new [] (Some this)).

Definition where_ (callbackFn : callback) (this : t) : t :=
  filter callbackFn this.

Definition whereNot (callbackFn : callback) (this : t) : t :=
  filter (fun value id map => negb (callbackFn value id map)) this.

Fixpoint find_loop (callbackFn : callback) (this : t) (es : list (entry R)) : option R :=
  match es with
  | [] => None
  | e :: es' =>
      if call callbackFn this e then Some (snd e)
      else find_loop callbackFn this es'
  end.

Definition find (callbackFn : callback) (this : t) : option R :=
  find_loop callbackFn this (entries this).

Definition only (ids : list prim) (this : t) : t :=
  new (fold_left (fun itr id =>
                    if has id this
                    then match get id this with
                         | Some v => itr ++ [(id, v)]
                         | None => itr
                         end
                    else itr) ids [])
      (Some this).

Definition except (ids : list prim) (this : t) : t :=
  new (List.filter (fun e => negb (Array_includes (fst e) ids)) (entries this))
      (Some this).

Definition compare_entries (comparatorFn : comparator) (e1 e2 : entry R) : Z :=
  comparatorFn (snd e1) (snd e2) (fst e1) (fst e2).

Definition sort (comparatorFn : comparator) (this : t) : t :=
  let sorted := Array_sort (compare_entries comparatorFn) (entries this) in
  new sorted (Some this).

Definition duplicate (this : t) : t :=
  new (entries this) (Some this).

(** [merge(...recordSets)]: the inner loop over one argument, on the
    local [Map] [res]. *)
Fixpoint merge_entries (es : list (entry R)) (res : list (entry R)) : result (list (entry R)) :=
  match es with
  | [] => Ok res
  | (id, value) :: es' =>
      if Map_has id res
      then Throw (DuplicationError
                    ("Id " ++ ToString id ++ " already exists in the record set."))
      else merge_entries es' (Map_set id value res)
  end.

Fixpoint merge_loop (recordSets : list t) (res : list (entry R)) : result (list (entry R)) :=
  match recordSets with
  | [] => Ok res
  | recordSet :: rest =>
      res' ← merge_entries (entries recordSet) res;
      merge_loop rest res'
  end.

Definition merge (recordSets : list t) (this : t) : result t :=
  res ← merge_loop recordSets (Map_new (entries this));
  Ok (new res (Some this)).

(** [append(...records)] *)
Definition append (id_of : R -> prim) (records : list R) (this : t) : t :=
  fold_left (fun res record => set' (id_of record) record res)
            records (new (entries this) (Some this)).

(** [batchIterator(batchSize, { flat })]: the batches the generator
    yields when it is run to its end.  [item] is what is pushed for an
    entry: the value when [flat], the entry otherwise. *)
Fixpoint batch_loop {A} (item : entry R -> A) (batchSize : Z)
         (es : list (entry R)) (batch : list A) : list (list A) :=
  match es with
  | [] => if (Z.of_nat (length batch) =? 0) then [] else [batch]
  | e :: es' =>
      let batch := batch ++ [item e] in
      if Z.of_nat (length batch) =? batchSize
      then batch :: batch_loop item batchSize es' []
      else batch_loop item batchSize es' batch
  end.

Definition batchIterator_flat (batchSize : Z) (this : t) : list (list R) :=
  batch_loop snd batchSize (entries this) [].

Definition batchIterator (batchSize : Z) (this : t) : list t :=
  List.map (fun batch => new batch (Some this))
           (batch_loop (fun e => e) batchSize (entries this) []).

(** [limit(n)] *)
Fixpoint limit_loop (n : Z) (es : list (entry R)) (records : list (entry R)) : list (entry R) :=
  match es with
  | [] => records
  | e :: es' =>
      let records := records ++ [e] in
      if Z.of_nat (length records) =? n then records
      else limit_loop n es' records
  end.

Definition limit (n : Z) (this : t) : t :=
  new (limit_loop n (entries this) []) (Some this).

(** [offset(n)] *)
Fixpoint offset_loop (n : Z) (es : list (entry R)) (counter : Z) (records : list (entry R))
  : list (entry R) :=
  match es with
  | [] => records
  | e :: es' =>
      if counter <? n then offset_loop n es' (counter + 1) records
      else offset_loop n es' counter (records ++ [e])
  end.

Definition offset (n : Z) (this : t) : t :=
  new (offset_loop n (entries this) 0 []) (Some this).

Definition slice (start end_ : option Z) (this : t) : t :=
  new (Array_slice start end_ (entries this)) (Some this).

Definition first (this : t) : option R :=
  match entries this with
  | [] => None
  | e :: _ => Some (snd e)
  end.

(** [map(callbackFn, { flat: true })] *)
Definition map_flat {B} (callbackFn : R -> prim -> list (entry R) -> B) (this : t) : list B :=
  List.map (fun e => callbackFn (snd e) (fst e) (entries this)) (entries this).

(** [reduce(callbackFn, initialValue)] *)
Definition reduce {A} (callbackFn : A -> R -> prim -> list (entry R) -> A)
           (initialValue : A) (this : t) : A :=
  fold_left (fun acc e => callbackFn acc (snd e) (fst e) (entries this))
            (entries this) initialValue.

(** [findId(callbackFn)] *)
Fixpoint findId_loop (callbackFn : callback) (this : t) (es : list (entry R)) : option prim :=
  match es with
  | [] => None
  | e :: es' =>
      if call callbackFn this e then Some (fst e)
      else findId_loop callbackFn this es'
  end.

Definition findId (callbackFn : callback) (this : t) : option prim :=
  findId_loop callbackFn this (entries this).

(** [every(callbackFn)] and [some(callbackFn)].  The guard reads
    [this.size]; on a set whose count is shadowed by a scope the guard
    fails and the array method answers, with the answer of the guard
    when there are no entries ([size_guard]). *)
Definition every (callbackFn : callback) (this : t) : bool :=
  if size this =? 0 then true
  else forallb (call callbackFn this) (entries this).

Definition some (callbackFn : callback) (this : t) : bool :=
  if size this =? 0 then false
  else existsb (call callbackFn this) (entries this).

(** [toArray()], the option [flat] left [false]: the records *)
Definition toArray (this : t) : list R := List.map snd (entries this).

(** [toArray({ flat: true })]: what [toObject()] returns for each of the
    records.  [Record_toObject] is the [toObject] method of the records,
    which the record set calls and does not define. *)
Definition toArray_flat {O} (Record_toObject : R -> O) (this : t) : list O :=
  List.map Record_toObject (List.map snd (entries this)).

(** A plain object whose property values are records: its own
    properties and, once [__proto__] has been assigned, its prototype.
    [obj[id] = value] turns [id] into a property name; a record is an
    object, so assigning one to [__proto__] runs the setter of
    [Object.prototype], which replaces the prototype and creates no
    property; any other name gets, or overwrites, an own property. *)
Record plain : Type := mkPlain {
  own : gmap string R;
  proto : option R
}.

Definition assign (obj : plain) (id : prim) (value : R) : plain :=
  let name := ToString id in
  if String.eqb name "__proto__" then mkPlain (own obj) (Some value)
  else mkPlain (<[name := value]> (own obj)) (proto obj).

(** [toObject()], the option [flat] left [false], which [toJSON()]
    returns *)
Definition toObject (this : t) : plain :=
  fold_left (fun obj e => assign obj (fst e) (snd e)) (entries this) (mkPlain ∅ None).

Definition toJSON (this : t) : plain := toObject this.

(** *** Scopes *)

(** [#validateProperty(callbackType, callbackName, callback, callbacks)] *)
Definition validateProperty {F X} (callbackType callbackName : string)
           (callback : arg F) (callbacks : list (string * X)) : result F :=
  match callback with
  | NotFn _ =>
      Throw (TypeError (callbackType ++ " " ++ callbackName ++ " is not a function."))
  | Fn f =>
      if Map_has callbackName callbacks
      then Throw (DuplicationError
                    (callbackType ++ " " ++ callbackName ++ " already exists."))
      else Ok f
  end.

(** [#validateFunction(callbackType, callbackName, callback)] *)
Definition validateFunction {F} (callbackType callbackName : string)
           (callback : arg F) : result F :=
  match callback with
  | NotFn _ =>
      Throw (TypeError (callbackType ++ " " ++ callbackName ++ " is not a function."))
  | Fn f => Ok f
  end.

(** [#scopedWhere(scopeName)].  Destructuring the entry of a name that is
    not in the table throws; a stored comparator that is truthy and not
    a function throws once [sort] has two elements to compare. *)
Definition scopedWhere (scopeName : string) (this : t) : result t :=
  match Map_get scopeName (scopes this) with
  | None => Throw (TypeError "undefined is not iterable")
  | Some (matcherFn, comparatorFn) =>
      let matches := List.filter (call matcherFn this) (entries this) in
      matches ←
        (if truthy_arg comparatorFn
         then match comparatorFn with
              | Fn c => Ok (Array_sort (compare_entries c) matches)
              | NotFn _ =>
                  if Z.of_nat (length matches) <? 2 then Ok matches
                  else Throw (TypeError "comparatorFn is not a function")
              end
         else Ok matches);
      Ok (new matches (Some this))
  end.

(** *** The getters that read [this.size] *)

(** [this.size].  [size] is an accessor of [Map.prototype] and gives the
    number of entries; [[$addScope]] lets a scope of that name through on
    a set that has no entries, and the own accessor it defines shadows
    the inherited one: [this.size] is then the record set the scope
    returns. *)
Inductive size_value : Type :=
  | Count (n : Z)
  | Scoped (s : t).

Definition get_size (this : t) : result size_value :=
  if mem "size" (own_accessors this)
  then s ← scopedWhere "size" this; Ok (Scoped s)
  else Ok (Count (size this)).

(** [v === 0], and whether [v] is truthy *)
Definition is_zero (v : size_value) : bool :=
  match v with Count n => n =? 0 | Scoped _ => false end.

Definition truthy_size (v : size_value) : bool :=
  match v with Count n => negb (n =? 0) | Scoped _ => true end.

(** [get last()].  When [this.size] is not the count, a set without
    entries gets past the guard; [pop()] then gives [undefined], and
    reading its element 1 throws. *)
Definition last (this : t) : result (option R) :=
  sz ← get_size this;
  if is_zero sz then Ok None
  else match list.last (entries this) with
       | Some e => Ok (Some (snd e))
       | None => Throw (TypeError "Cannot read properties of undefined (reading '1')")
       end.

(** [get count()] and [get length()] *)
Definition count (this : t) : result size_value := get_size this.
Definition length_ (this : t) : result size_value := get_size this.

(** Whether [this[name]] is truthy, as [[$addScope]] reads it.  An own
    accessor runs the scope and gives a RecordSet.  Otherwise the name is
    looked up on [RecordSet.prototype], [Map.prototype] and
    [Object.prototype]: the getters [first], [last], [count] and [length]
    are run ([first] and [last] give a record, which is an object, or
    [undefined]); [size] is the accessor of [Map.prototype]; the other
    members are functions (the getter [ids] returns the function
    [keys]). *)
Definition property_truthy (name : string) (this : t) : result bool :=
  if mem name (own_accessors this)
  then _ ← scopedWhere name this; Ok true
  else if String.eqb name "first"
  then Ok (match first this with Some _ => true | None => false end)
  else if String.eqb name "last"
  then r ← last this; Ok (match r with Some _ => true | None => false end)
  else if mem name ["count"; "length"; "size"]
  then sz ← get_size this; Ok (truthy_size sz)
  else if mem name prototype_names then Ok true
  else if mem name Map_prototype_names then Ok true
  else Ok (mem name Object_prototype_names).

(** [[$addScope](name, scope, sortFn)]; an argument that is not passed
    is [NotFn (VPrim PUndefined)]. *)
Definition addScope (name : string) (scope_ : arg callback)
           (sortFn : arg comparator) (this : t) : result unit * t :=
  match validateProperty "Scope" name scope_ (scopes this) with
  | Throw e => (Throw e, this)
  | Ok matcher =>
      match (if truthy_arg sortFn
             then _ ← validateFunction "Scope comparator" name sortFn; Ok tt
             else Ok tt) with
      | Throw e => (Throw e, this)
      | Ok _ =>
          match property_truthy name this with
          | Throw e => (Throw e, this)
          | Ok inUse =>
              if inUse || mem name prototype_names
              then (Throw (NameError ("Scope name " ++ name ++ " is already in use.")),
                    this)
              else (Ok tt,
                    mk (entries this) (Map_set name (matcher, sortFn) (scopes this)))
          end
      end
  end.
End Records.

Arguments t R : clear implicits.
Arguments callback R : clear implicits.
Arguments comparator R : clear implicits.
Arguments scope R : clear implicits.
Arguments plain R : clear implicits.
Arguments size_value R : clear implicits.

(** [toObject({ flat: true })]: the property of a key holds what
    [toObject()] returns for its record, an object too. *)
Definition toObject_flat {R O} (Record_toObject : R -> O) (this : t R) : plain O :=
  fold_left (fun obj e => assign obj (fst e) (Record_toObject (snd e)))
            (entries this) (mkPlain ∅ None).

(** *** groupBy *)

(** [value[key]] on a record *)
Definition record_get (r : record) (key : string) : value :=
  if String.eqb key "id" then VPrim (rid r)
  else default (VPrim PUndefined) (Map_get key (rfields r)).

(** The value a record is grouped by: [value[key]], or [value[key].id]
    when that is a record ([keyValue[$isRecord]]). *)
Definition groupBy_keyValue (key : string) (value : record) : prim + list prim :=
  match record_get value key with
  | VPrim p => inl p
  | VArr xs => inr xs
  | VRec id _ => inl id
  end.

(** [ToPropertyKey], used by [res[keyValue]] *)
Definition ToPropertyKey (keyValue : prim + list prim) : string :=
  match keyValue with
  | inl p => ToString p
  | inr xs => join_array xs
  end.

(** [res] starts as [{}]: a name that [Object.prototype] defines reads as
    a truthy inherited member, no partition is created for it, and the
    call of its [[$set]] throws. *)
Fixpoint groupBy_loop (key : string) (this : t record) (es : list (entry record))
         (res : gmap string (t record)) : result (gmap string (t record)) :=
  match es with
  | [] => Ok res
  | (recordKey, value) :: es' =>
      let keyValue := ToPropertyKey (groupBy_keyValue key value) in
      match res !! keyValue with
      | Some partition =>
          groupBy_loop key this es' (<[keyValue := set' recordKey value partition]> res)
      | None =>
          if mem keyValue Object_prototype_names
          then Throw (TypeError "res[keyValue][$set] is not a function")
          else groupBy_loop key this es'
                 (<[keyValue := set' recordKey value (new [] (Some this))]> res)
      end
  end.

Definition groupBy (key : string) (this : t record) : result (gmap string (t record)) :=
  groupBy_loop key this (entries this) ∅.

End RecordSet.

(** ** Relationship ([src/relationship.js]) *)

Module Relationship.

(** Modelled from the spec: the cardinalities and the predicates
    [isToOne] and [isFromOne], which [relationship.js] imports from
    [src/utils]: "a cardinality drawn from {to-one, to-many} x {from-one,
    from-many} (i.e., one-to-one, one-to-many, many-to-one,
    many-to-many)". *)
Inductive relationshipType : Type :=
  | oneToOne
  | oneToMany
  | manyToOne
  | manyToMany.

Definition isToOne (type : relationshipType) : bool :=
  match type with oneToOne | manyToOne => true | _ => false end.

Definition isFromOne (type : relationshipType) : bool :=
  match type with oneToOne | oneToMany => true | _ => false end.

(** What the resolver reads of a model: its name and its live store. *)
Record Model : Type := mkModel {
  model_name : string;
  records : RecordSet.t record
}.

Record t : Type := mk {
  type : relationshipType;
  from : Model;
  to : Model;
  name : string;
  reverseName : string
}.

Inductive resolved : Type :=
  | Undefined
  | One (r : record)
  | Many (s : RecordSet.t record).

(** [String.prototype.includes] *)
Fixpoint String_includes (needle hay : string) : bool :=
  String.prefix needle hay ||
  match hay with
  | EmptyString => false
  | String _ hay' => String_includes needle hay'
  end.

(** [v.includes(x)]: defined on arrays and strings; on any other value
    [includes] is [undefined] and the call throws. *)
Definition includes (v : value) (x : prim) : result bool :=
  match v with
  | VArr xs => Ok (Array_includes x xs)
  | VPrim (PStr s) => Ok (String_includes (ToString x) s)
  | _ => Throw (TypeError "includes is not a function")
  end.

(** [find] and [where] of [RecordSet] applied to a matcher of this file,
    which may throw: the exception of the first entry that throws
    leaves the loop. *)
Fixpoint find_loop (matcher : record -> result bool) (es : list (RecordSet.entry record))
  : result resolved :=
  match es with
  | [] => Ok Undefined
  | e :: es' =>
      b ← matcher (snd e);
      if (b : bool) then Ok (One (snd e)) else find_loop matcher es'
  end.

Fixpoint where_loop (matcher : record -> result bool) (es : list (RecordSet.entry record))
         (newMap : RecordSet.t record) : result (RecordSet.t record) :=
  match es with
  | [] => Ok newMap
  | e :: es' =>
      b ← matcher (snd e);
      where_loop matcher es'
        (if (b : bool) then RecordSet.set' (fst e) (snd e) newMap else newMap)
  end.

Definition find (matcher : record -> result bool) (s : RecordSet.t record) : result resolved :=
  find_loop matcher (RecordSet.entries s).

Definition where_ (matcher : record -> result bool) (s : RecordSet.t record) : result resolved :=
  d ← where_loop matcher (RecordSet.entries s) (RecordSet.new [] (Some s));
  Ok (Many d).

(** [a === b] where [a] is a Record, an object, and [b] a primitive:
    never the same value. *)
Definition strict_equals_record_prim (a : record) (b : prim) : bool := false.

(** [#getAssociatedRecords(record)].  [Map.prototype.get] of a value that
    is not a primitive finds nothing: the keys are primitives. *)
Definition getAssociatedRecords (this : t) (record_ : record) : result resolved :=
  if isToOne (type this)
  then
    let associationValue := RecordSet.record_get record_ (name this) in
    match associationValue with
    | VPrim p =>
        Ok (match RecordSet.get p (records (to this)) with
            | Some r => One r
            | None => Undefined
            end)
    | _ => Ok Undefined
    end
  else
    let associationValues :=
      let v := RecordSet.record_get record_ (name this) in
      if truthy_value v then v else VArr [] in
    where_ (fun associatedRecord => includes associationValues (rid associatedRecord))
           (records (to this)).

(** [#getAssociatedRecordsReverse(record)].  [record[this.#to[$key].name]]
    is the key of [record]; the matchers are called by [find] and [where]
    with the stored record as their first argument. *)
Definition getAssociatedRecordsReverse (this : t) (record_ : record) : result resolved :=
  let associationValue := rid record_ in
  let matcher :=
    if isToOne (type this)
    then fun associatedRecord =>
           Ok (strict_equals_record_prim associatedRecord associationValue)
    else fun associatedRecord =>
           let associatedRecordValue := RecordSet.record_get associatedRecord (name this) in
           match associatedRecordValue with
           | VPrim PUndefined | VPrim PNull => Ok false
           | _ => includes associatedRecordValue associationValue
           end in
  if isFromOne (type this)
  then find matcher (records (from this))
  else where_ matcher (records (from this)).

(** [get(modelName, property, record)] *)
Definition get (this : t) (modelName property : string) (record_ : record)
  : result resolved :=
  if String.eqb modelName (model_name (from this)) && String.eqb property (name this)
  then getAssociatedRecords this record_
  else if String.eqb modelName (model_name (to this))
          && String.eqb property (reverseName this)
  then getAssociatedRecordsReverse this record_
  else Ok Undefined.

Definition isReceiver (this : t) (modelName property : string) : bool :=
  String.eqb modelName (model_name (to this)) && String.eqb property (reverseName this).

End Relationship.

(** ** The object store

    RecordSet objects are addressed by references; a record set holds its
    records by reference too.  [new RecordSet(...)] allocates a fresh
    object; the entry points of a record set write the object they are
    called on and nothing else. *)

Module Store.

Definition ref : Type := positive.

Section Store.
Context {R : Type}.
(** [record.id] *)
Variable id_of : R -> prim.

(** The store of record sets *)
Abbreviation heap := (gmap ref (RecordSet.t R)).

(** The calls that derive a record set from [this]. *)
Inductive derivation : Type :=
  | Filter (callbackFn : RecordSet.callback R)
  | Sort (comparatorFn : RecordSet.comparator R)
  | Duplicate
  | Merge (recordSets : list ref)
  | Append (records_ : list R)
  | Only (ids : list prim)
  | Except (ids : list prim)
  | Slice (start end_ : option Z)
  | Limit (n : Z)
  | Offset (n : Z).

Definition derive (h : heap) (op : derivation) (this : RecordSet.t R)
  : result (RecordSet.t R) :=
  match op with
  | Filter f => Ok (RecordSet.filter f this)
  | Sort c => Ok (RecordSet.sort c this)
  | Duplicate => Ok (RecordSet.duplicate this)
  | Merge rs =>
      match mapM (fun r => h !! r) rs with
      | Some recordSets => RecordSet.merge recordSets this
      | None => Throw (TypeError "recordSet.entries is not a function")
      end
  | Append rs => Ok (RecordSet.append id_of rs this)
  | Only ids => Ok (RecordSet.only ids this)
  | Except ids => Ok (RecordSet.except ids this)
  | Slice s e => Ok (RecordSet.slice s e this)
  | Limit n => Ok (RecordSet.limit n this)
  | Offset n => Ok (RecordSet.offset n this)
  end.

(** [s.op(...)]: the reference of the new object and the store after
    the call; a call that throws allocates no record set. *)
Definition invoke (op : derivation) (s : ref) (h : heap) : result ref * heap :=
  match h !! s with
  | None => (Throw (TypeError "not a RecordSet"), h)
  | Some this =>
      match derive h op this with
      | Ok d => let r := fresh (dom h) in (Ok r, <[r := d]> h)
      | Throw e => (Throw e, h)
      end
  end.

(** The calls that write a record set. *)
Inductive mutation : Type :=
  | PublicSet (args : list value)
  | PublicDelete (args : list value)
  | PublicClear (args : list value)
  | ProtectedSet (id : prim) (value_ : R)
  | ProtectedDelete (id : prim)
  | ClearRecordSetForTesting
  | AddScope (name : string) (scope_ : arg (RecordSet.callback R))
             (sortFn : arg (RecordSet.comparator R)).

Definition apply (m : mutation) (this : RecordSet.t R) : result unit * RecordSet.t R :=
  match m with
  | PublicSet args => RecordSet.set args this
  | PublicDelete args => RecordSet.delete args this
  | PublicClear args => RecordSet.clear args this
  | ProtectedSet id v => (Ok tt, RecordSet.set' id v this)
  | ProtectedDelete id => (Ok tt, RecordSet.delete' id this)
  | ClearRecordSetForTesting => (Ok tt, RecordSet.clearRecordSetForTesting this)
  | AddScope name scope_ sortFn => RecordSet.addScope name scope_ sortFn this
  end.

Definition mutate (m : mutation) (s : ref) (h : heap) : result unit * heap :=
  match h !! s with
  | None => (Throw (TypeError "not a RecordSet"), h)
  | Some this =>
      let '(outcome, this') := apply m this in
      (outcome, <[s := this']> h)
  end.

(** A run of calls on [s], each outcome dropped (caught). *)
Definition mutate_all (ms : list mutation) (s : ref) (h : heap) : heap :=
  fold_left (fun h m => snd (mutate m s h)) ms h.
End Store.

(** Records are objects of their own, held by reference: the record
    store maps a reference to the key and field values of the record.
    No entry point of a record set writes it. *)
Definition recref : Type := positive.
Definition recstore : Type := gmap recref record.

(** [record.id], read through the reference *)
Definition id_in (recs : recstore) (r : recref) : prim :=
  match recs !! r with
  | Some x => rid x
  | None => PUndefined
  end.

(** What can be observed of the record set at [d]: its keys in order, each
    with the key and field values of the record it maps to, and its scope
    table. *)
Definition observe (recs : recstore) (h : gmap ref (RecordSet.t recref)) (d : ref)
  : option (list (prim * option record) * list (string * RecordSet.scope recref)) :=
  match h !! d with
  | Some D =>
      Some (List.map (fun e => (fst e, recs !! snd e)) (RecordSet.entries D),
            RecordSet.scopes D)
  | None => None
  end.

End Store.

(** ** Model ([src/model.js]): the parsing of a scope, and the update of a
    record *)

Module Model.

(** What the [scopes] option of a model holds under a name: a function,
    an object (read through its [matcher] and [sorter] properties, a
    missing one being [undefined]), [null], or another primitive. *)
Inductive scope_spec (R : Type) : Type :=
  | AFunction (f : RecordSet.callback R)
  | AnObject (matcher : arg (RecordSet.callback R)) (sorter : arg (RecordSet.comparator R))
  | Null
  | APrimitive.
Arguments AFunction {R} f.
Arguments AnObject {R} matcher sorter.
Arguments Null {R}.
Arguments APrimitive {R}.

(** [Model.#parseScope(scope)]: the arguments [[matcher, sorter]] that
    are spread into [addScope].  [typeof null] is ['object'], and
    destructuring [null] throws a [TypeError] of the language. *)
Definition parseScope {R} (scope_ : scope_spec R)
  : result (arg (RecordSet.callback R) * arg (RecordSet.comparator R)) :=
  match scope_ with
  | AFunction f => Ok (Fn f, NotFn (VPrim PUndefined))
  | AnObject matcher sorter =>
      if negb (is_function matcher)
      then Throw (TypeError "The provided matcher for the scope is not a function.")
      else if truthy_arg sorter && negb (is_function sorter)
      then Throw (TypeError "The provided sorter for the scope is not a function.")
      else Ok (matcher, sorter)
  | Null => Throw (TypeError "Cannot destructure property 'matcher' of 'scope' as it is null.")
  | APrimitive =>
      Throw (TypeError "The provided scope is not a function or valid object.")
  end.

(** *** Records written in place *)

(** The argument of [updateRecord]: an object, given by its own
    enumerable properties in order ([Object.entries]), [null], or a
    value that is not an object. *)
Inductive record_data : Type :=
  | DataObject (props : list (string * value))
  | DataNull
  | DataOther.

Section Gateway.
(** The assignment [oldRecord[fieldName] = fieldValue] goes through the
    [set] trap of the Record proxy ([RecordHandler], which is not part
    of [model.js]): it gives the record with the field written, or
    throws. *)
Variable Record_set : record -> string -> value -> result record.

(** The loop of [Object.entries(record).forEach]: an assignment that
    throws leaves the loop, the fields assigned before it stay
    written. *)
Fixpoint assign_fields (props : list (string * value)) (oldRecord : Store.recref)
         (recs : Store.recstore) : result unit * Store.recstore :=
  match props with
  | [] => (Ok tt, recs)
  | (fieldName, fieldValue) :: props' =>
      match recs !! oldRecord with
      | None => (Throw (TypeError "oldRecord is not a record"), recs)
      | Some r =>
          match Record_set r fieldName fieldValue with
          | Ok r' => assign_fields props' oldRecord (<[oldRecord := r']> recs)
          | Throw e => (Throw e, recs)
          end
      end
  end.

(** [updateRecord(recordId, record)], on the model whose live record set
    is [records].  [typeof null] is ['object'], and [Object.entries(null)]
    throws a [TypeError] of the language. *)
Definition updateRecord (recordId : prim) (record_ : record_data)
           (records : RecordSet.t Store.recref) (recs : Store.recstore)
  : result Store.recref * Store.recstore :=
  match record_ with
  | DataOther => (Throw (TypeError "Record data must be an object."), recs)
  | _ =>
      if negb (RecordSet.has recordId records)
      then (Throw (ReferenceError ("Record " ++ ToString recordId ++ " does not exist.")),
            recs)
      else
        match RecordSet.get recordId records, record_ with
        | Some oldRecord, DataObject props =>
            let '(outcome, recs') := assign_fields props oldRecord recs in
            (_ ← outcome; Ok oldRecord, recs')
        | _, _ => (Throw (TypeError "Cannot convert undefined or null to object"), recs)
        end
  end.

(** What a program does to a model after it has derived a record set:
    calls that write the live record set of the model, and updates of
    its records. *)
Inductive write : Type :=
  | OnRecords (m : @Store.mutation Store.recref)
  | UpdateRecord (recordId : prim) (record_ : record_data).

Definition is_update (w : write) : bool :=
  match w with UpdateRecord _ _ => true | OnRecords _ => false end.

(** The record-set objects and the record objects of the program *)
Record world : Type := mkWorld {
  sets : gmap Store.ref (RecordSet.t Store.recref);
  recs : Store.recstore
}.

(** One call on the model whose live record set is the object [live];
    its outcome is dropped (caught). *)
Definition step (live : Store.ref) (w : write) (st : world) : world :=
  match w with
  | OnRecords m => mkWorld (snd (Store.mutate m live (sets st))) (recs st)
  | UpdateRecord recordId record_ =>
      match sets st !! live with
      | Some records =>
          mkWorld (sets st) (snd (updateRecord recordId record_ records (recs st)))
      | None => st
      end
  end.

Definition run (live : Store.ref) (ws : list write) (st : world) : world :=
  fold_left (fun st w => step live w st) ws st.
End Gateway.

End Model.

(** ** Vocabulary of the specification *)

(** A record set is well formed when it is a state the class can reach:
    the keys of its [Map] and the names of its scope table are pairwise
    distinct, and a stored comparator that is truthy is a function (what
    [[$addScope]] checks before it stores one). *)
Definition comparator_ok {F} (c : arg F) : Prop :=
  truthy_arg c = true -> is_function c = true.

Definition wf {R} (s : RecordSet.t R) : Prop :=
  NoDup (RecordSet.ids s) /\
  NoDup (RecordSet.own_accessors s) /\
  Forall (fun sc => comparator_ok (snd (snd sc))) (RecordSet.scopes s).

(** [x] comes before [y] in [l] *)
Definition before {A} (x y : A) (l : list A) : Prop :=
  exists l1 l2 l3, l = l1 ++ x :: l2 ++ y :: l3.

(** A consistent comparator, in the words of the language for
    [Array.prototype.sort]: writing [a =CF b] for [compare a b = 0],
    [a <CF b] for [compare a b < 0] and [a >CF b] for [compare a b > 0],
    [a =CF a]; [a =CF b] gives [b =CF a]; and each of [=CF], [<CF] and
    [>CF] is transitive.  (That a call always returns the same value and
    writes nothing is what a function is.)  For any other comparator the
    language leaves the order of the result to the implementation. *)
Record consistent {A} (compare : A -> A -> Z) : Prop := {
  same_refl : forall a, compare a a = 0;
  same_sym : forall a b, compare a b = 0 -> compare b a = 0;
  same_trans : forall a b c, compare a b = 0 -> compare b c = 0 -> compare a c = 0;
  less_trans : forall a b c, compare a b < 0 -> compare b c < 0 -> compare a c < 0;
  greater_trans : forall a b c, 0 < compare a b -> 0 < compare b c -> 0 < compare a c
}.

(** [l] is in the order of [compare]: no element is after a later one. *)
Definition ordered {A} (compare : A -> A -> Z) (l : list A) : Prop :=
  StronglySorted (fun a b => compare a b <= 0) l.

(** What the language requires of the result [l'] of sorting [l] with a
    consistent comparator, whatever the algorithm: the same elements; an
    element that compares less than another comes before it; elements
    that compare equal keep the order they had in [l]. *)
Definition sorted_as_required {A} (compare : A -> A -> Z) (l l' : list A) : Prop :=
  Permutation l' l /\
  (forall a b, a ∈ l -> b ∈ l -> compare a b < 0 -> before a b l') /\
  (forall a b, before a b l -> compare a b = 0 -> before a b l').

(** The string a record is grouped under by [groupBy(key)], and the
    entries of a list that are grouped under [p]. *)
Definition group_key (key : string) (e : RecordSet.entry record) : string :=
  RecordSet.ToPropertyKey (RecordSet.groupBy_keyValue key (snd e)).

Definition partition_of (key p : string) (es : list (RecordSet.entry record))
  : list (RecordSet.entry record) :=
  List.filter (fun e => String.eqb (group_key key e) p) es.

(** A callback that does not look at the collection it is handed *)
Definition collection_blind {R} (f : RecordSet.callback R) : Prop :=
  forall value_ id c c', f value_ id c = f value_ id c'.

(** [ceil(m / n)] for [n > 0] *)
Definition ceil_div (m n : Z) : Z := (m + n - 1) / n.

(** The [[$set]] calls a partition receives *)
Definition set_all (es : list (RecordSet.entry record)) (P : RecordSet.t record)
  : RecordSet.t record :=
  fold_left (fun P e => RecordSet.set' (fst e) (snd e) P) es P.

(** What the to-many matcher of the receiving side answers on a record
    whose foreign-key field is a list of keys, or is empty *)
Definition holds_key (fieldName : string) (k : prim) (r : record) : bool :=
  match RecordSet.record_get r fieldName with
  | VArr xs => Array_includes k xs
  | _ => false
  end.

(** The foreign-key field of [r] is a list of keys, or is empty. *)
Definition key_list_or_empty (fieldName : string) (r : record) : Prop :=
  match RecordSet.record_get r fieldName with
  | VArr _ | VPrim PUndefined | VPrim PNull => True
  | _ => False
  end.

(** ** Sample data *)

Module Examples.

Definition person (id : Z) (name_ : string) (age status : prim) : record :=
  mkRecord (PNum id)
           [("name", VPrim (PStr name_)); ("age", VPrim age); ("status", VPrim status)].

Definition ada : record := person 1 "Ada" (PNum 36) (PStr "open").
Definition bob : record := person 2 "Bob" (PNum 25) (PStr "open").
Definition eve : record := person 3 "Eve" (PNum 36) (PStr "closed").

Definition age_of (r : record) : Z :=
  match RecordSet.record_get r "age" with
  | VPrim (PNum n) => n
  | _ => 0
  end.

(** [(a, b) => a.age - b.age] *)
Definition by_age : RecordSet.comparator record :=
  fun value1 value2 _ _ => age_of value1 - age_of value2.

(** [r => r.status === 'open'] *)
Definition is_open : RecordSet.callback record :=
  fun value_ _ _ =>
    match RecordSet.record_get value_ "status" with
    | VPrim (PStr s) => String.eqb s "open"
    | _ => false
    end.

(** [r => r.age > 30] *)
Definition over_30 : RecordSet.callback record :=
  fun value_ _ _ => 30 <? age_of value_.

(** A store with three people and the scope [open], sorted by age. *)
Definition people : RecordSet.t record :=
  RecordSet.mk [(PNum 1, ada); (PNum 2, bob); (PNum 3, eve)]
               [("open", (is_open, Fn by_age))].

Definition dan : record := person 4 "Dan" (PNum 41) (PStr "open").
Definition rob : record := person 2 "Rob" (PNum 52) (PStr "closed").

(** A set whose keys are not keys of [people], and one that shares the key 2. *)
Definition newcomers : RecordSet.t record := RecordSet.new [(PNum 4, dan)] None.
Definition returning : RecordSet.t record := RecordSet.new [(PNum 2, rob)] None.

(** Tickets whose [status] is the number 1, the string '1', [null],
    absent, and the record [ada]. *)
Definition ticket (id : Z) (fields : list (string * value)) : record :=
  mkRecord (PNum id) fields.

Definition tickets : RecordSet.t record :=
  RecordSet.new
    [(PNum 1, ticket 1 [("status", VPrim (PNum 1))]);
     (PNum 2, ticket 2 [("status", VPrim (PStr "1"))]);
     (PNum 3, ticket 3 [("status", VPrim PNull)]);
     (PNum 4, ticket 4 []);
     (PNum 5, ticket 5 [("status", VRecord ada)])]
    None.

(** A one-to-one relationship from Passport to Person: a passport holds
    the key of its owner in [owner]; a person reads the passport back
    through [passport].  Passport 1 is owned by person 2. *)
Definition passport (id : Z) (owner : prim) : record :=
  mkRecord (PNum id) [("owner", VPrim owner)].

Definition Passport : Relationship.Model :=
  Relationship.mkModel "Passport"
    (RecordSet.new [(PNum 1, passport 1 (PNum 2)); (PNum 2, passport 2 (PNum 3))] None).

Definition Person : Relationship.Model :=
  Relationship.mkModel "Person" people.

Definition passport_of : Relationship.t :=
  Relationship.mk Relationship.oneToOne Passport Person "owner" "passport".

(** A many-to-many relationship of Person with itself: [friends] holds a
    list of keys, [friendOf] reads it back. *)
Definition friend (id : Z) (friends : value) : record :=
  mkRecord (PNum id) [("friends", friends)].

Definition Friend : Relationship.Model :=
  Relationship.mkModel "Friend"
    (RecordSet.new [(PNum 1, friend 1 (VArr [PNum 2; PNum 3]));
                    (PNum 2, friend 2 (VPrim PNull));
                    (PNum 3, friend 3 (VArr [PNum 2]))] None).

Definition friends : Relationship.t :=
  Relationship.mk Relationship.manyToMany Friend Friend "friends" "friendOf".

(** The same people held by reference: the record store, and the store
    of record sets with the model's live set at reference 1. *)
Definition people_records : Store.recstore :=
  <[10%positive := ada]> (<[20%positive := bob]> (<[30%positive := eve]> ∅)).

Definition live : RecordSet.t Store.recref :=
  RecordSet.new [(PNum 1, 10%positive); (PNum 2, 20%positive); (PNum 3, 30%positive)] None.

Definition live_store : gmap Store.ref (RecordSet.t Store.recref) :=
  <[1%positive := live]> ∅.

(** Modelled from the spec: the [set] trap of [RecordHandler], which is
    defined outside [model.js].  "Record: key (model-defined, typically
    id) + field values": a handler whose fields accept every value stores
    the value under the name of the field; the key is not a field and is
    not assigned. *)
Definition store_field (r : record) (fieldName : string) (v : value) : result record :=
  if String.eqb fieldName "id"
  then Throw (TypeError "The key of a record cannot be assigned.")
  else Ok (mkRecord (rid r) (Map_set fieldName v (rfields r))).

End Examples.

(** ** Facts about [Map] *)

Section MapFacts.
Context {K V : Type} `{EqDecision K}.
Implicit Types (m it : list (K * V)) (k : K) (v : V).

Lemma Map_has_true k m : Map_has k m = true <-> k ∈ keys m.
Proof.
  induction m as [|[k' v'] m IH]; simpl.
  - split; [discriminate | intros Hin; inversion Hin].
  - destruct (decide (k = k')) as [->|Hne].
    + split; [intros _; left | reflexivity].
    + rewrite IH. split; [intros Hin; now right |].
      intros Hin. apply elem_of_cons in Hin as [Heq | Hin]; [contradiction | exact Hin].
Qed.

Lemma Map_has_false k m : Map_has k m = false <-> k ∉ keys m.
Proof.
  rewrite <- Map_has_true. destruct (Map_has k m); split; congruence.
Qed.

Lemma Map_get_None k m : Map_get k m = None <-> k ∉ keys m.
Proof.
  induction m as [|[k' v'] m IH]; simpl.
  - split; [intros _ Hin; inversion Hin | reflexivity].
  - destruct (decide (k = k')) as [->|Hne].
    + split; [discriminate | intros Hn; exfalso; apply Hn; left].
    + rewrite IH. rewrite not_elem_of_cons. tauto.
Qed.

Lemma Map_get_elem k v m : Map_get k m = Some v -> (k, v) ∈ m.
Proof.
  induction m as [|[k' v'] m IH]; simpl; [discriminate |].
  destruct (decide (k = k')) as [->|Hne].
  - intros [= ->]. left.
  - intros Hget. right. now apply IH.
Qed.

Lemma Map_get_NoDup k v m : NoDup (keys m) -> (k, v) ∈ m -> Map_get k m = Some v.
Proof.
  induction m as [|[k' v'] m IH]; simpl; intros Hnd Hin; [inversion Hin |].
  apply NoDup_cons in Hnd as [Hk' Hnd].
  apply elem_of_cons in Hin as [[= -> ->] | Hin].
  - now rewrite decide_True.
  - destruct (decide (k = k')) as [->|Hne]; [| now apply IH].
    exfalso. apply Hk'. unfold keys.
    change k' with (fst (k', v)). now apply list_elem_of_fmap_2.
Qed.

Lemma Map_set_fresh k v m : k ∉ keys m -> Map_set k v m = m ++ [(k, v)].
Proof.
  induction m as [|[k' v'] m IH]; simpl; intros Hn; [reflexivity |].
  apply not_elem_of_cons in Hn as [Hne Hn].
  rewrite decide_False by exact Hne. now rewrite IH.
Qed.

Lemma keys_Map_set_present k v m : k ∈ keys m -> keys (Map_set k v m) = keys m.
Proof.
  induction m as [|[k' v'] m IH]; simpl; intros Hin; [inversion Hin |].
  destruct (decide (k = k')) as [->|Hne]; [reflexivity |].
  simpl. f_equal. apply IH.
  apply elem_of_cons in Hin as [Heq | Hin]; [contradiction | exact Hin].
Qed.

Lemma keys_app m1 m2 : keys (m1 ++ m2) = keys m1 ++ keys m2.
Proof. unfold keys. apply fmap_app. Qed.

Lemma Map_set_NoDup k v m : NoDup (keys m) -> NoDup (keys (Map_set k v m)).
Proof.
  intros Hnd. destruct (decide (k ∈ keys m)) as [Hin | Hn].
  - now rewrite keys_Map_set_present.
  - rewrite Map_set_fresh, keys_app by exact Hn. simpl.
    apply NoDup_app. split; [exact Hnd |]. split; [| apply NoDup_singleton].
    intros x Hx Hx'. apply list_elem_of_singleton in Hx' as ->. contradiction.
Qed.

Lemma Map_delete_subset k x m : x ∈ keys (Map_delete k m) -> x ∈ keys m.
Proof.
  induction m as [|[k' v'] m IH]; simpl; [trivial |].
  destruct (decide (k = k')) as [->|Hne]; simpl.
  - intros Hin. now right.
  - intros Hin. apply elem_of_cons in Hin as [-> | Hin]; [left | right; now apply IH].
Qed.

Lemma Map_delete_NoDup k m : NoDup (keys m) -> NoDup (keys (Map_delete k m)).
Proof.
  induction m as [|[k' v'] m IH]; simpl; intros Hnd; [exact Hnd |].
  apply NoDup_cons in Hnd as [Hk' Hnd].
  destruct (decide (k = k')) as [->|Hne]; simpl; [exact Hnd |].
  apply NoDup_cons. split; [| now apply IH].
  intros Hin. apply Hk'. eapply Map_delete_subset, Hin.
Qed.

Lemma Map_set_all_NoDup it m : NoDup (keys m) -> NoDup (keys (Map_set_all it m)).
Proof.
  revert m. induction it as [|[k v] it IH]; simpl; intros m Hnd; [exact Hnd |].
  apply IH. now apply Map_set_NoDup.
Qed.

Lemma Map_set_all_fresh it m :
  NoDup (keys (m ++ it)) -> Map_set_all it m = m ++ it.
Proof.
  revert m. induction it as [|[k v] it IH]; simpl; intros m Hnd.
  - now rewrite app_nil_r.
  - assert (Hn : k ∉ keys m).
    { rewrite keys_app in Hnd. apply NoDup_app in Hnd as (_ & Hdisj & _).
      intros Hin. apply (Hdisj k Hin). simpl. left. }
    unfold Map_set_all in *. simpl. rewrite Map_set_fresh by exact Hn.
    rewrite IH; rewrite <- app_assoc; simpl; [reflexivity | exact Hnd].
Qed.

Lemma Map_new_NoDup it : NoDup (keys it) -> Map_new it = it.
Proof. intros Hnd. unfold Map_new. now rewrite Map_set_all_fresh. Qed.

Lemma Map_new_keys_NoDup it : NoDup (keys (Map_new it)).
Proof. apply Map_set_all_NoDup. constructor. Qed.

Lemma Map_get_set_eq k v m : Map_get k (Map_set k v m) = Some v.
Proof.
  induction m as [|[k' v'] m IH]; simpl.
  - now rewrite decide_True.
  - destruct (decide (k = k')) as [->|Hne]; simpl.
    + now rewrite decide_True.
    + now rewrite decide_False.
Qed.

Lemma Map_get_set_ne k k' v m : k ≠ k' -> Map_get k (Map_set k' v m) = Map_get k m.
Proof.
  intros Hne. induction m as [|[k2 v2] m IH]; simpl.
  - now rewrite decide_False.
  - destruct (decide (k' = k2)) as [->|Hne2]; simpl.
    + now rewrite !decide_False.
    + destruct (decide (k = k2)); [reflexivity | exact IH].
Qed.
End MapFacts.

Section KeysFacts.
Context {K V : Type}.

Lemma NoDup_keys_middle (a : list (K * V)) (e : K * V) (es : list (K * V)) :
  NoDup (keys (a ++ e :: es)) -> NoDup (keys (a ++ es)) /\ fst e ∉ keys a.
Proof.
  rewrite !keys_app. simpl. rewrite !NoDup_app, NoDup_cons.
  intros (Ha & Hdisj & Hne & Hes). split; [split; [exact Ha | split; [| exact Hes]] |].
  - intros x Hx Hx'. apply (Hdisj x Hx). now right.
  - intros Hin. apply (Hdisj _ Hin). left.
Qed.

Lemma NoDup_keys_app_l (a b : list (K * V)) : NoDup (keys (a ++ b)) -> NoDup (keys a).
Proof. rewrite keys_app, NoDup_app. tauto. Qed.

Lemma NoDup_keys_app_r (a b : list (K * V)) : NoDup (keys (a ++ b)) -> NoDup (keys b).
Proof. rewrite keys_app, NoDup_app. tauto. Qed.

Lemma NoDup_keys_filter (p : K * V -> bool) (l : list (K * V)) :
  NoDup (keys l) -> NoDup (keys (List.filter p l)).
Proof.
  induction l as [|e l IH]; simpl; intros Hnd; [exact Hnd |].
  apply NoDup_cons in Hnd as [Hn Hnd].
  destruct (p e); [| now apply IH]. simpl. apply NoDup_cons. split; [| now apply IH].
  intros Hin. apply Hn. unfold keys in *.
  apply list_elem_of_fmap in Hin as (x & -> & Hx).
  apply list_elem_of_In, List.filter_In in Hx as [Hx _].
  apply list_elem_of_fmap_2, list_elem_of_In, Hx.
Qed.
End KeysFacts.

(** ** Facts about the constructor and the loops of [RecordSet] *)

Section RecordSetFacts.
Context {R : Type}.
Implicit Types (this s : RecordSet.t R) (es it : list (RecordSet.entry R)).

Lemma new_entries it o : NoDup (keys it) -> RecordSet.entries (RecordSet.new it o) = it.
Proof. intros Hnd. simpl. now apply (Map_set_all_fresh it []). Qed.

Lemma new_scopes it this :
  NoDup (RecordSet.own_accessors this) ->
  RecordSet.scopes (RecordSet.new it (Some this)) = RecordSet.scopes this.
Proof.
  intros Hnd. simpl. unfold RecordSet.copyScopes.
  now apply (Map_set_all_fresh (RecordSet.scopes this) []).
Qed.

Lemma new_eq it this :
  NoDup (keys it) -> wf this ->
  RecordSet.new it (Some this) = RecordSet.mk it (RecordSet.scopes this).
Proof.
  intros Hit (_ & Hsc & _).
  pose proof (new_entries it (Some this) Hit) as He.
  pose proof (new_scopes it this Hsc) as Hs.
  destruct (RecordSet.new it (Some this)); simpl in *. now subst.
Qed.

Lemma wf_mk it this :
  NoDup (keys it) -> wf this -> wf (RecordSet.mk it (RecordSet.scopes this)).
Proof. intros Hit (_ & Hsc & Hc). now repeat split. Qed.

Lemma wf_new it this : wf this -> wf (RecordSet.new it (Some this)).
Proof.
  intros (Hids & Hsc & Hc). repeat split.
  - apply Map_new_keys_NoDup.
  - apply Map_new_keys_NoDup.
  - simpl. unfold RecordSet.copyScopes.
    rewrite (Map_set_all_fresh (RecordSet.scopes this) []) by exact Hsc. exact Hc.
Qed.

Lemma wf_new_None it : wf (RecordSet.new (R := R) it None).
Proof.
  repeat split; simpl; [apply Map_new_keys_NoDup | constructor | constructor].
Qed.

Lemma wf_set' id v this : wf this -> wf (RecordSet.set' id v this).
Proof. intros (Hids & Hsc & Hc). repeat split; trivial. now apply Map_set_NoDup. Qed.

Lemma wf_delete' id this : wf this -> wf (RecordSet.delete' id this).
Proof. intros (Hids & Hsc & Hc). repeat split; trivial. now apply Map_delete_NoDup. Qed.

(** The [reduce] of [filter], from any accumulator *)
Lemma filter_fold (p : RecordSet.entry R -> bool) es acc :
  NoDup (keys (RecordSet.entries acc ++ es)) ->
  fold_left (fun newMap e => if p e then RecordSet.set' (fst e) (snd e) newMap else newMap)
            es acc
  = RecordSet.mk (RecordSet.entries acc ++ List.filter p es) (RecordSet.scopes acc).
Proof.
  revert acc. induction es as [|[k v] es IH]; intros acc Hnd; simpl.
  - rewrite app_nil_r. now destruct acc.
  - destruct (NoDup_keys_middle _ _ _ Hnd) as [Hrest Hk]. simpl in Hk.
    destruct (p (k, v)).
    + rewrite IH; simpl.
      * rewrite Map_set_fresh by exact Hk. now rewrite <- app_assoc.
      * rewrite Map_set_fresh by exact Hk. now rewrite <- app_assoc.
    + now apply IH.
Qed.

Lemma filter_eq f this :
  wf this ->
  RecordSet.filter f this
  = RecordSet.mk (List.filter (RecordSet.call f this) (RecordSet.entries this))
                 (RecordSet.scopes this).
Proof.
  intros Hwf. unfold RecordSet.filter.
  rewrite (new_eq [] this) by (trivial; constructor).
  rewrite filter_fold; [reflexivity | simpl; apply Hwf].
Qed.
End RecordSetFacts.

(** ** Facts about [Array.prototype.sort] *)

Section SortFacts.
Context {A : Type} (compare : A -> A -> Z).
Implicit Types (l : list A) (x y : A).

Lemma Array_sort_insert_split x l :
  exists l1 l2, l = l1 ++ l2 /\ Array_sort_insert compare x l = l1 ++ x :: l2 /\
                Forall (fun y => 0 < compare x y) l1.
Proof.
  induction l as [|y l IH]; simpl.
  - exists [], []. repeat split. constructor.
  - destruct (0 <? compare x y) eqn:Hc.
    + destruct IH as (l1 & l2 & -> & Heq & Hall).
      exists (y :: l1), l2. rewrite Heq. repeat split.
      constructor; [now apply Z.ltb_lt | exact Hall].
    + exists [], (y :: l). repeat split. constructor.
Qed.

Lemma Array_sort_insert_Permutation x l :
  Permutation (Array_sort_insert compare x l) (x :: l).
Proof.
  destruct (Array_sort_insert_split x l) as (l1 & l2 & -> & -> & _).
  symmetry. apply Permutation_middle.
Qed.

Lemma Array_sort_Permutation l : Permutation (Array_sort compare l) l.
Proof.
  induction l as [|x l IH]; simpl; [constructor |].
  rewrite Array_sort_insert_Permutation. now constructor.
Qed.

Lemma Array_sort_length l : length (Array_sort compare l) = length l.
Proof. apply Permutation_length, Array_sort_Permutation. Qed.

Lemma before_cons a b x l : before a b l -> before a b (x :: l).
Proof. intros (m1 & m2 & m3 & ->). now exists (x :: m1), m2, m3. Qed.

Lemma before_head a b l : b ∈ l -> before a b (a :: l).
Proof. intros (k1 & k2 & ->)%list_elem_of_split. now exists [], k1, k2. Qed.

Lemma before_cons_inv a b x l :
  before a b (x :: l) -> (a = x /\ b ∈ l) \/ before a b l.
Proof.
  intros (m1 & m2 & m3 & Heq). destruct m1 as [|x' m1]; simpl in Heq.
  - injection Heq as -> ->. left. split; [reflexivity |].
    apply elem_of_app. right. left.
  - injection Heq as -> ->. right. now exists m1, m2, m3.
Qed.

Lemma before_middle a b x l1 l2 :
  before a b (l1 ++ l2) -> before a b (l1 ++ x :: l2).
Proof.
  induction l1 as [|y l1 IH]; simpl; intros Hbef.
  - now apply before_cons.
  - apply before_cons_inv in Hbef as [[-> Hb] | Hbef].
    + apply before_head. rewrite elem_of_app in *. rewrite elem_of_cons. tauto.
    + now apply before_cons, IH.
Qed.

Lemma before_insert a b x l :
  before a b l -> before a b (Array_sort_insert compare x l).
Proof.
  destruct (Array_sort_insert_split x l) as (l1 & l2 & -> & -> & _).
  apply before_middle.
Qed.

Lemma before_insert_head a b l :
  b ∈ l -> compare a b <= 0 -> before a b (Array_sort_insert compare a l).
Proof.
  intros Hb Hc.
  destruct (Array_sort_insert_split a l) as (l1 & l2 & -> & -> & Hall).
  apply elem_of_app in Hb as [Hb | Hb].
  - exfalso. rewrite Forall_forall in Hall. specialize (Hall _ Hb). lia.
  - apply list_elem_of_split in Hb as (k1 & k2 & ->).
    now exists l1, k1, k2.
Qed.

(** Stability: an element stays before every later element it does not
    compare greater than. *)
Lemma Array_sort_stable a b l :
  before a b l -> compare a b <= 0 -> before a b (Array_sort compare l).
Proof.
  induction l as [|x l IH]; intros Hbef Hc.
  - destruct Hbef as (m1 & m2 & m3 & Heq). now destruct m1.
  - simpl. apply before_cons_inv in Hbef as [[-> Hb] | Hbef].
    + apply before_insert_head; [| exact Hc]. now rewrite Array_sort_Permutation.
    + now apply before_insert, IH.
Qed.

(** A consistent comparator orders the classes of [=CF] totally. *)
Lemma consistent_flip a b : consistent compare -> 0 < compare a b -> compare b a < 0.
Proof.
  intros Hc Hab.
  destruct (Z.lt_total (compare b a) 0) as [Hlt | [Heq | Hgt]]; [exact Hlt | |].
  - apply (same_sym _ Hc) in Heq. lia.
  - pose proof (greater_trans _ Hc a b a Hab Hgt) as Haa.
    rewrite (same_refl _ Hc) in Haa. lia.
Qed.

Lemma consistent_flip_less a b : consistent compare -> compare a b < 0 -> 0 < compare b a.
Proof.
  intros Hc Hab.
  destruct (Z.lt_total (compare b a) 0) as [Hlt | [Heq | Hgt]]; [| | exact Hgt].
  - pose proof (less_trans _ Hc a b a Hab Hlt) as Haa.
    rewrite (same_refl _ Hc) in Haa. lia.
  - apply (same_sym _ Hc) in Heq. lia.
Qed.

Lemma consistent_total a b : consistent compare -> 0 < compare a b -> compare b a <= 0.
Proof. intros Hc Hab. pose proof (consistent_flip a b Hc Hab). lia. Qed.

Lemma consistent_trans a b c :
  consistent compare -> compare a b <= 0 -> compare b c <= 0 -> compare a c <= 0.
Proof.
  intros Hc Hab Hbc.
  destruct (Z.lt_total 0 (compare a c)) as [Hgt | Hle]; [exfalso | lia].
  pose proof (consistent_flip a c Hc Hgt) as Hca.
  apply Z.le_lteq in Hab as [Hlt | Heq]; apply Z.le_lteq in Hbc as [Hlt' | Heq'].
  - pose proof (less_trans _ Hc a b c Hlt Hlt'). lia.
  - (* a < b, b = c: c < a < b gives c < b *)
    pose proof (less_trans _ Hc c a b Hca Hlt) as Hcb.
    apply (same_sym _ Hc) in Heq'. lia.
  - (* a = b, b < c: b < c < a gives b < a *)
    pose proof (less_trans _ Hc b c a Hlt' Hca) as Hba.
    apply (same_sym _ Hc) in Heq. lia.
  - pose proof (same_trans _ Hc a b c Heq Heq'). lia.
Qed.

Lemma Array_sort_insert_ordered x l :
  consistent compare -> ordered compare l -> ordered compare (Array_sort_insert compare x l).
Proof.
  intros Hcons.
  pose proof (fun a b => consistent_total a b Hcons) as Htot.
  pose proof (fun a b c => consistent_trans a b c Hcons) as Htrans.
  unfold ordered.
  induction l as [|y l IH]; simpl; intros Hl.
  - repeat constructor.
  - apply StronglySorted_inv in Hl as [Hl Hy].
    destruct (0 <? compare x y) eqn:Hc.
    + apply Z.ltb_lt in Hc. constructor; [now apply IH |].
      rewrite Forall_forall. intros z Hz.
      rewrite Array_sort_insert_Permutation in Hz.
      apply elem_of_cons in Hz as [-> | Hz]; [now apply Htot |].
      rewrite Forall_forall in Hy. now apply Hy.
    + apply Z.ltb_ge in Hc. constructor; [now constructor |].
      constructor; [exact Hc |].
      rewrite Forall_forall in *. intros z Hz. eapply Htrans; [exact Hc | now apply Hy].
Qed.

Lemma Array_sort_ordered l : consistent compare -> ordered compare (Array_sort compare l).
Proof.
  intros Hc. induction l as [|x l IH]; simpl; [constructor |].
  now apply Array_sort_insert_ordered.
Qed.

Lemma before_elem a b l : before a b l -> a ∈ l /\ b ∈ l.
Proof.
  intros (m1 & m2 & m3 & ->). rewrite !elem_of_app, !elem_of_cons, !elem_of_app, !elem_of_cons.
  tauto.
Qed.

Lemma before_total a b l : a ∈ l -> b ∈ l -> a <> b -> before a b l \/ before b a l.
Proof.
  induction l as [|x l IH]; intros Ha Hb Hne; [inversion Ha |].
  apply elem_of_cons in Ha as [-> | Ha]; apply elem_of_cons in Hb as [-> | Hb].
  - contradiction.
  - left. now apply before_head.
  - right. now apply before_head.
  - destruct (IH Ha Hb Hne) as [H | H]; [left | right]; now apply before_cons.
Qed.

Lemma before_asym a b l : NoDup l -> before a b l -> before b a l -> False.
Proof.
  induction l as [|x l IH]; intros Hnd Hab Hba.
  - destruct Hab as (m1 & m2 & m3 & Heq). now destruct m1.
  - apply NoDup_cons in Hnd as [Hx Hnd].
    apply before_cons_inv in Hab as [[-> Hb] | Hab];
      apply before_cons_inv in Hba as [[-> Ha] | Hba].
    + contradiction.
    + apply before_elem in Hba as [_ Ha]. contradiction.
    + apply before_elem in Hab as [_ Hb]. contradiction.
    + now apply IH.
Qed.

Lemma ordered_before a b l : ordered compare l -> before a b l -> compare a b <= 0.
Proof.
  unfold ordered. induction l as [|x l IH]; intros Hl Hab.
  - destruct Hab as (m1 & m2 & m3 & Heq). now destruct m1.
  - apply StronglySorted_inv in Hl as [Hl Hx].
    apply before_cons_inv in Hab as [[-> Hb] | Hab]; [| now apply IH].
    rewrite Forall_forall in Hx. now apply Hx.
Qed.

(** Two arrangements of the same distinct elements in which the same
    elements come before the same elements are one arrangement. *)
Lemma eq_of_before l1 l2 :
  NoDup l1 -> Permutation l1 l2 ->
  (forall a b, before a b l1 -> before a b l2) -> l1 = l2.
Proof.
  revert l2. induction l1 as [|x l1 IH]; intros l2 Hnd Hperm Hbef.
  - now apply Permutation_nil in Hperm.
  - assert (Hnd2 : NoDup l2) by now rewrite <- Hperm.
    apply NoDup_cons in Hnd as [Hx Hnd].
    assert (Hin : x ∈ l2) by (rewrite <- Hperm; left).
    apply list_elem_of_split in Hin as (p & q & ->).
    destruct p as [|y p].
    + simpl in *. f_equal. apply IH; [exact Hnd | now apply Permutation_cons_inv in Hperm |].
      intros a b Hab. pose proof (Hbef a b (before_cons _ _ x _ Hab)) as Hab2.
      apply before_cons_inv in Hab2 as [[-> _] | Hab2]; [| exact Hab2].
      apply before_elem in Hab as [Ha _]. contradiction.
    + exfalso.
      assert (Hyx : before y x ((y :: p) ++ x :: q)) by now exists [], p, q.
      assert (Hne : y <> x).
      { intros ->. simpl in Hnd2. apply NoDup_cons in Hnd2 as [Hy _]. apply Hy.
        rewrite elem_of_app, elem_of_cons. tauto. }
      assert (Hy1 : y ∈ l1).
      { assert (Hy : y ∈ x :: l1) by (rewrite Hperm; left).
        apply elem_of_cons in Hy as [-> | Hy]; [contradiction | exact Hy]. }
      exact (before_asym _ _ _ Hnd2 (Hbef x y (before_head x y l1 Hy1)) Hyx).
Qed.

(** For a consistent comparator the result of sorting is determined by
    what the language requires of it: whatever algorithm an engine uses,
    sorting distinct elements gives what [Array_sort] gives. *)
Lemma Array_sort_unique l l' :
  consistent compare -> NoDup l -> sorted_as_required compare l l' ->
  l' = Array_sort compare l.
Proof.
  intros Hc Hnd (Hperm & Hless & Hsame).
  assert (Hnd' : NoDup l') by now rewrite Hperm.
  assert (HndS : NoDup (Array_sort compare l)) by now rewrite Array_sort_Permutation.
  apply eq_of_before; [exact Hnd' | now rewrite Array_sort_Permutation |].
  intros a b Hab.
  destruct (before_elem _ _ _ Hab) as [Ha Hb]. rewrite Hperm in Ha, Hb.
  assert (Hne : a <> b).
  { intros ->. destruct Hab as (m1 & m2 & m3 & ->).
    apply NoDup_app in Hnd' as (_ & _ & Hnd'). apply NoDup_cons in Hnd' as [Hb' _].
    apply Hb'. rewrite elem_of_app, elem_of_cons. tauto. }
  destruct (Z.lt_total (compare a b) 0) as [Hlt | [Heq | Hgt]].
  - assert (HaS : a ∈ Array_sort compare l) by now rewrite Array_sort_Permutation.
    assert (HbS : b ∈ Array_sort compare l) by now rewrite Array_sort_Permutation.
    destruct (before_total a b _ HaS HbS Hne) as [H | H]; [exact H | exfalso].
    pose proof (ordered_before b a _ (Array_sort_ordered l Hc) H).
    pose proof (consistent_flip_less a b Hc Hlt). lia.
  - destruct (before_total a b l Ha Hb Hne) as [H | H].
    + apply Array_sort_stable; [exact H | lia].
    + exfalso. apply (before_asym a b l' Hnd' Hab).
      apply Hsame; [exact H | now apply (same_sym _ Hc)].
  - exfalso. apply (before_asym a b l' Hnd' Hab).
    apply Hless; [exact Hb | exact Ha | now apply consistent_flip].
Qed.

Lemma Array_sort_as_required l :
  consistent compare -> NoDup l -> sorted_as_required compare l (Array_sort compare l).
Proof.
  intros Hc Hnd. split; [apply Array_sort_Permutation |]. split.
  - intros a b Ha Hb Hlt.
    assert (Hne : a <> b) by (intros ->; rewrite (same_refl _ Hc) in Hlt; lia).
    assert (HaS : a ∈ Array_sort compare l) by now rewrite Array_sort_Permutation.
    assert (HbS : b ∈ Array_sort compare l) by now rewrite Array_sort_Permutation.
    destruct (before_total a b _ HaS HbS Hne) as [H | H]; [exact H | exfalso].
    pose proof (ordered_before b a _ (Array_sort_ordered l Hc) H).
    pose proof (consistent_flip_less a b Hc Hlt). lia.
  - intros a b Hab Heq. apply Array_sort_stable; [exact Hab | lia].
Qed.
End SortFacts.


Ltac solve_NoDup :=
  repeat (apply NoDup_cons; split;
          [ rewrite ?not_elem_of_cons, ?elem_of_nil; repeat split; (discriminate || tauto)
          | ]);
  try apply NoDup_nil_2.

Lemma wf_people : wf Examples.people.
Proof.
  repeat split; simpl.
  - solve_NoDup.
  - solve_NoDup.
  - repeat constructor.
Qed.

Lemma consistent_by_age : consistent (RecordSet.compare_entries Examples.by_age).
Proof.
  split; unfold RecordSet.compare_entries, Examples.by_age; intros; lia.
Qed.

(** ** The public mutators *)

(** C2: on every record set, the public [set], [delete] and [clear] throw
    a usage error ([TypeError]) whatever their arguments, and the object
    they were called on, its key-to-record mapping and its scope table,
    is after the throw what it was before; so is the whole store. *)
Theorem public_mutators_throw {R} (this : RecordSet.t R) (args : list value)
        (h : gmap Store.ref (RecordSet.t R)) (s : Store.ref) :
  (exists msg, RecordSet.set args this = (Throw (TypeError msg), this)) /\
  (exists msg, RecordSet.delete args this = (Throw (TypeError msg), this)) /\
  (exists msg, RecordSet.clear args this = (Throw (TypeError msg), this)) /\
  (exists msg, Store.mutate (R := R) (Store.PublicSet args) s h = (Throw (TypeError msg), h)) /\
  (exists msg, Store.mutate (R := R) (Store.PublicDelete args) s h = (Throw (TypeError msg), h)) /\
  (exists msg, Store.mutate (R := R) (Store.PublicClear args) s h = (Throw (TypeError msg), h)).
Proof.
  assert (Hstore : forall m msg,
             (forall o, Store.apply (R := R) m o = (Throw (TypeError msg), o)) ->
             Store.mutate m s h = (Throw (TypeError msg), h) \/
             Store.mutate m s h = (Throw (TypeError "not a RecordSet"), h)).
  { intros m msg Hm. unfold Store.mutate. destruct (h !! s) as [o|] eqn:Hs.
    - left. rewrite Hm. now rewrite insert_id.
    - now right. }
  repeat split; try (eexists; reflexivity).
  - edestruct (Hstore (Store.PublicSet args)) as [-> | ->]; eauto.
  - edestruct (Hstore (Store.PublicDelete args)) as [-> | ->]; eauto.
  - edestruct (Hstore (Store.PublicClear args)) as [-> | ->]; eauto.
Qed.

(** ** limit *)

Section Limit.
Context {R : Type}.

Lemma limit_loop_nonpositive (n : Z) (es records_ : list (RecordSet.entry R)) :
  n <= 0 -> RecordSet.limit_loop n es records_ = records_ ++ es.
Proof.
  intros Hn. revert records_. induction es as [|e es IH]; intros records_; simpl.
  - now rewrite app_nil_r.
  - destruct (Z.of_nat (length (records_ ++ [e])) =? n) eqn:Hlen.
    + apply Z.eqb_eq in Hlen. rewrite length_app in Hlen. simpl in Hlen. lia.
    + rewrite IH. now rewrite <- app_assoc.
Qed.
End Limit.

(** C9: for [n <= 0], [limit(n)] cuts nothing: the length test runs
    after an entry has been pushed, a length of at least 1 never equals
    [n], and the new record set has all the entries of [this], in order
    (and its scopes). *)
Theorem limit_nonpositive_keeps_all {R} (n : Z) (this : RecordSet.t R) :
  wf this -> n <= 0 ->
  RecordSet.limit n this = RecordSet.mk (RecordSet.entries this) (RecordSet.scopes this).
Proof.
  intros Hwf Hn. unfold RecordSet.limit.
  rewrite limit_loop_nonpositive by exact Hn. simpl app.
  apply new_eq; [apply Hwf | exact Hwf].
Qed.

Lemma limit_nonpositive_keeps_all_witness :
  RecordSet.entries (RecordSet.limit 0 Examples.people)
  = [(PNum 1, Examples.ada); (PNum 2, Examples.bob); (PNum 3, Examples.eve)].
Proof.
  rewrite (limit_nonpositive_keeps_all 0 Examples.people); [reflexivity | | lia].
  exact wf_people.
Defined.

(** ** sort *)

Lemma NoDup_keys_Permutation {K V} (l l' : list (K * V)) :
  Permutation l l' -> NoDup (keys l) -> NoDup (keys l').
Proof. intros Hp. unfold keys. now rewrite Hp. Qed.

Lemma sort_eq {R} (comparatorFn : RecordSet.comparator R) (this : RecordSet.t R) :
  wf this ->
  RecordSet.sort comparatorFn this
  = RecordSet.mk (Array_sort (RecordSet.compare_entries comparatorFn) (RecordSet.entries this))
                 (RecordSet.scopes this).
Proof.
  intros Hwf. unfold RecordSet.sort. apply new_eq; [| exact Hwf].
  eapply NoDup_keys_Permutation; [symmetry; apply Array_sort_Permutation | apply Hwf].
Qed.

(** C6: for a comparator [cmp] (a consistent one, which is what the
    language calls a comparator that orders), [sort(cmp)] gives a new
    record set with the entries of [this] in the order of [cmp], and the
    sort is stable: two entries that compare equal are in the result in
    the order they have in [this].  The scopes are carried over.  The
    result does not depend on the sorting algorithm of the engine: every
    array that meets what the language requires of the sorted entries is
    the entries of [sort(cmp)]. *)
Theorem sort_is_stable {R} (comparatorFn : RecordSet.comparator R) (this : RecordSet.t R) :
  wf this ->
  consistent (RecordSet.compare_entries comparatorFn) ->
  let sorted := RecordSet.sort comparatorFn this in
  Permutation (RecordSet.entries sorted) (RecordSet.entries this) /\
  ordered (RecordSet.compare_entries comparatorFn) (RecordSet.entries sorted) /\
  (forall e1 e2,
      before e1 e2 (RecordSet.entries this) ->
      RecordSet.compare_entries comparatorFn e1 e2 = 0 ->
      before e1 e2 (RecordSet.entries sorted)) /\
  RecordSet.scopes sorted = RecordSet.scopes this /\
  wf sorted /\
  (forall l',
      sorted_as_required (RecordSet.compare_entries comparatorFn) (RecordSet.entries this) l' ->
      l' = RecordSet.entries sorted).
Proof.
  intros Hwf Hcmp sorted. subst sorted. rewrite sort_eq by exact Hwf. simpl.
  split; [apply Array_sort_Permutation |].
  split; [now apply Array_sort_ordered |].
  split; [| split; [reflexivity | split]].
  - intros e1 e2 Hbef Heq. apply Array_sort_stable; [exact Hbef | lia].
  - apply wf_mk; [| exact Hwf].
    eapply NoDup_keys_Permutation; [symmetry; apply Array_sort_Permutation | apply Hwf].
  - intros l' Hreq. apply Array_sort_unique; [exact Hcmp | | exact Hreq].
    apply (NoDup_fmap_1 fst), Hwf.
Qed.

Lemma sort_is_stable_witness :
  RecordSet.entries (RecordSet.sort Examples.by_age Examples.people)
  = [(PNum 2, Examples.bob); (PNum 1, Examples.ada); (PNum 3, Examples.eve)] /\
  before (PNum 1, Examples.ada) (PNum 3, Examples.eve)
         (RecordSet.entries (RecordSet.sort Examples.by_age Examples.people)).
Proof.
  split; [reflexivity |].
  apply (sort_is_stable Examples.by_age Examples.people wf_people consistent_by_age).
  - now exists [], [(PNum 2, Examples.bob)], [].
  - reflexivity.
Defined.

(** ** filter and the scopes of a derived set *)

Lemma scope_comparator_ok {R} (this : RecordSet.t R) scopeName matcherFn comparatorFn :
  wf this ->
  Map_get scopeName (RecordSet.scopes this) = Some (matcherFn, comparatorFn) ->
  comparator_ok comparatorFn.
Proof.
  intros (_ & _ & Hc) Hget. apply Map_get_elem in Hget.
  rewrite Forall_forall in Hc. exact (Hc _ Hget).
Qed.

(** What reading a scope accessor returns on a well-formed set. *)
Lemma scopedWhere_eq {R} (this : RecordSet.t R) scopeName matcherFn comparatorFn :
  wf this ->
  Map_get scopeName (RecordSet.scopes this) = Some (matcherFn, comparatorFn) ->
  let matches := List.filter (RecordSet.call matcherFn this) (RecordSet.entries this) in
  RecordSet.scopedWhere scopeName this
  = Ok (RecordSet.mk
          (match comparatorFn with
           | Fn c => Array_sort (RecordSet.compare_entries c) matches
           | NotFn _ => matches
           end)
          (RecordSet.scopes this)).
Proof.
  intros Hwf Hget matches. unfold RecordSet.scopedWhere. rewrite Hget.
  fold matches.
  assert (Hm : NoDup (keys matches)) by (apply NoDup_keys_filter, Hwf).
  pose proof (scope_comparator_ok _ _ _ _ Hwf Hget) as Hok.
  destruct comparatorFn as [c | v]; simpl.
  - rewrite new_eq; [reflexivity | | exact Hwf].
    eapply NoDup_keys_Permutation; [symmetry; apply Array_sort_Permutation | exact Hm].
  - destruct (truthy_value v) eqn:Hv.
    + specialize (Hok Hv). discriminate.
    + simpl. rewrite new_eq; [reflexivity | exact Hm | exact Hwf].
Qed.

(** C3: [D = S.filter(f)] holds exactly the entries of [S] on which [f]
    is truthy, in the order of [S]; the scope table of [S], and so the
    accessors, are those of [D]; and reading a scope on [D] runs its
    matcher over the entries of [D] (with [D] as the collection): the
    result holds exactly the entries of [D] the matcher accepts, sorted
    when the scope has a comparator. *)
Theorem filter_carries_scopes {R} (callbackFn : RecordSet.callback R) (this : RecordSet.t R) :
  wf this ->
  let D := RecordSet.filter callbackFn this in
  RecordSet.entries D
  = List.filter (fun e => callbackFn (snd e) (fst e) (RecordSet.entries this))
                (RecordSet.entries this) /\
  RecordSet.scopes D = RecordSet.scopes this /\
  RecordSet.own_accessors D = RecordSet.own_accessors this /\
  forall scopeName matcherFn comparatorFn,
    Map_get scopeName (RecordSet.scopes this) = Some (matcherFn, comparatorFn) ->
    let members :=
      List.filter (fun e => matcherFn (snd e) (fst e) (RecordSet.entries D))
                  (RecordSet.entries D) in
    exists Q,
      RecordSet.scopedWhere scopeName D = Ok Q /\
      Permutation (RecordSet.entries Q) members /\
      (forall e, e ∈ RecordSet.entries Q <->
                 e ∈ RecordSet.entries D /\
                 matcherFn (snd e) (fst e) (RecordSet.entries D) = true) /\
      RecordSet.entries Q
      = match comparatorFn with
        | Fn c => Array_sort (RecordSet.compare_entries c) members
        | NotFn _ => members
        end /\
      RecordSet.scopes Q = RecordSet.scopes this.
Proof.
  intros Hwf D. subst D. rewrite filter_eq by exact Hwf. simpl.
  split; [reflexivity |]. split; [reflexivity |]. split; [reflexivity |].
  intros scopeName matcherFn comparatorFn Hget.
  set (D := RecordSet.mk (List.filter (RecordSet.call callbackFn this) (RecordSet.entries this))
                         (RecordSet.scopes this)).
  set (members := List.filter (fun e => matcherFn (snd e) (fst e) (RecordSet.entries D))
                              (RecordSet.entries D)).
  assert (HwfD : wf D).
  { apply wf_mk; [| exact Hwf]. apply NoDup_keys_filter, Hwf. }
  eexists. split; [apply (scopedWhere_eq D scopeName matcherFn comparatorFn HwfD Hget) |].
  simpl. fold members.
  assert (Hperm : Permutation
                    (match comparatorFn with
                     | Fn c => Array_sort (RecordSet.compare_entries c) members
                     | NotFn _ => members
                     end) members).
  { destruct comparatorFn; [apply Array_sort_Permutation | reflexivity]. }
  split; [exact Hperm |]. split; [| split; reflexivity].
  intros e.
  transitivity (e ∈ members).
  - apply elem_of_Permutation_proper, Hperm.
  - unfold members.
    rewrite list_elem_of_In, List.filter_In, <- list_elem_of_In. reflexivity.
Qed.

Lemma filter_carries_scopes_witness :
  RecordSet.entries (RecordSet.filter Examples.over_30 Examples.people)
  = [(PNum 1, Examples.ada); (PNum 3, Examples.eve)] /\
  RecordSet.scopes (RecordSet.filter Examples.over_30 Examples.people)
  = RecordSet.scopes Examples.people.
Proof.
  destruct (filter_carries_scopes Examples.over_30 Examples.people wf_people)
    as (He & Hs & _).
  split; [rewrite He; reflexivity | exact Hs].
Defined.

(** The scope [open] read on the filtered set runs over the filtered
    membership: Bob, who is open, is not in it. *)
Example scope_on_filtered_set :
  RecordSet.entries <$> RecordSet.scopedWhere "open" Examples.people
  = Ok [(PNum 2, Examples.bob); (PNum 1, Examples.ada)] /\
  RecordSet.entries <$>
    RecordSet.scopedWhere "open" (RecordSet.filter Examples.over_30 Examples.people)
  = Ok [(PNum 1, Examples.ada)].
Proof. split; reflexivity. Qed.

(** ** batchIterator *)

Section Batches.
Context {R A : Type} (item : RecordSet.entry R -> A).
Implicit Types (es : list (RecordSet.entry R)) (batch : list A).

Lemma ceil_div_small (m n : Z) : 1 <= m <= n -> ceil_div m n = 1.
Proof.
  intros Hm. unfold ceil_div. symmetry.
  apply (Z.div_unique_pos _ _ 1 (m - 1)); lia.
Qed.

Lemma ceil_div_zero (n : Z) : 1 <= n -> ceil_div 0 n = 0.
Proof. intros Hn. unfold ceil_div. apply Z.div_small. lia. Qed.

Lemma ceil_div_step (m n : Z) : 1 <= n -> ceil_div (n + m) n = 1 + ceil_div m n.
Proof.
  intros Hn. unfold ceil_div.
  replace (n + m + n - 1) with (m + n - 1 + 1 * n) by lia.
  rewrite Z.div_add by lia. lia.
Qed.

Lemma batch_loop_concat (n : Z) es batch :
  concat (RecordSet.batch_loop item n es batch) = batch ++ (item <$> es).
Proof.
  revert batch. induction es as [|e es IH]; intros batch; simpl.
  - destruct (Z.of_nat (length batch) =? 0) eqn:Hlen; simpl.
    + apply Z.eqb_eq in Hlen. destruct batch; [reflexivity | simpl in Hlen; lia].
    + reflexivity.
  - destruct (Z.of_nat (length (batch ++ [item e])) =? n); simpl; rewrite IH.
    + now rewrite <- app_assoc.
    + now rewrite <- app_assoc.
Qed.

Lemma batch_loop_length (n : Z) es batch :
  1 <= n -> Z.of_nat (length batch) < n ->
  Z.of_nat (length (RecordSet.batch_loop item n es batch))
  = ceil_div (Z.of_nat (length batch) + Z.of_nat (length es)) n.
Proof.
  intros Hn. revert batch. induction es as [|e es IH]; intros batch Hb; simpl.
  - rewrite Z.add_0_r. destruct (Z.of_nat (length batch) =? 0) eqn:Hlen.
    + apply Z.eqb_eq in Hlen. rewrite Hlen. now rewrite ceil_div_zero.
    + apply Z.eqb_neq in Hlen. rewrite ceil_div_small by lia. reflexivity.
  - assert (Hlen' : Z.of_nat (length (batch ++ [item e])) = Z.of_nat (length batch) + 1).
    { rewrite length_app. simpl. lia. }
    destruct (Z.of_nat (length (batch ++ [item e])) =? n) eqn:Hfull.
    + apply Z.eqb_eq in Hfull. simpl length.
      rewrite Nat2Z.inj_succ, IH by (simpl; lia). simpl length.
      replace (Z.of_nat (length batch) + Z.of_nat (S (length es)))
        with (n + Z.of_nat (length es)) by lia.
      rewrite ceil_div_step by lia.
      change (Z.of_nat 0) with 0. rewrite Z.add_0_l. lia.
    + apply Z.eqb_neq in Hfull. rewrite IH by lia. f_equal. lia.
Qed.

Lemma batch_loop_full (n : Z) es batch :
  1 <= n -> Z.of_nat (length batch) < n ->
  forall i b,
    RecordSet.batch_loop item n es batch !! i = Some b ->
    (i + 1 < length (RecordSet.batch_loop item n es batch))%nat ->
    Z.of_nat (length b) = n.
Proof.
  intros Hn. revert batch. induction es as [|e es IH]; intros batch Hb i b; simpl.
  - destruct (Z.of_nat (length batch) =? 0); simpl; intros _ Hi; lia.
  - assert (Hlen' : Z.of_nat (length (batch ++ [item e])) = Z.of_nat (length batch) + 1).
    { rewrite length_app. simpl. lia. }
    destruct (Z.of_nat (length (batch ++ [item e])) =? n) eqn:Hfull.
    + apply Z.eqb_eq in Hfull. destruct i as [|i]; simpl.
      * intros [= <-] _. exact Hfull.
      * intros Hlook Hi. apply (IH [] ltac:(simpl; lia) i b Hlook). lia.
    + apply Z.eqb_neq in Hfull. apply IH. lia.
Qed.

Lemma batch_loop_last (n : Z) es batch :
  1 <= n -> Z.of_nat (length batch) < n ->
  forall b,
    last (RecordSet.batch_loop item n es batch) = Some b ->
    1 <= Z.of_nat (length b) <= n.
Proof.
  intros Hn. revert batch. induction es as [|e es IH]; intros batch Hb b; simpl.
  - destruct (Z.of_nat (length batch) =? 0) eqn:Hlen; simpl; [discriminate |].
    apply Z.eqb_neq in Hlen. intros [= <-]. lia.
  - assert (Hlen' : Z.of_nat (length (batch ++ [item e])) = Z.of_nat (length batch) + 1).
    { rewrite length_app. simpl. lia. }
    destruct (Z.of_nat (length (batch ++ [item e])) =? n) eqn:Hfull.
    + apply Z.eqb_eq in Hfull. rewrite last_cons.
      destruct (last (RecordSet.batch_loop item n es [])) as [b'|] eqn:Hlast.
      * intros [= <-]. apply (IH [] ltac:(simpl; lia) b' Hlast).
      * intros [= <-]. lia.
    + apply Z.eqb_neq in Hfull. apply IH. lia.
Qed.

(** The batches of pushed items are the batches of entries, mapped. *)
Lemma batch_loop_item (n : Z) es (batch0 : list (RecordSet.entry R)) :
  RecordSet.batch_loop item n es (item <$> batch0)
  = (fun b : list (RecordSet.entry R) => item <$> b)
      <$> RecordSet.batch_loop (fun e => e) n es batch0.
Proof.
  revert batch0. induction es as [|e es IH]; intros batch0; simpl.
  - rewrite length_fmap. now destruct (Z.of_nat (length batch0) =? 0).
  - replace ((item <$> batch0) ++ [item e]) with (item <$> (batch0 ++ [e]))
      by now rewrite fmap_app.
    rewrite length_fmap.
    destruct (Z.of_nat (length (batch0 ++ [e])) =? n); simpl.
    + f_equal. apply (IH []).
    + apply IH.
Qed.
End Batches.

Lemma NoDup_keys_concat {K V} (bs : list (list (K * V))) :
  NoDup (keys (concat bs)) -> Forall (fun b => NoDup (keys b)) bs.
Proof.
  induction bs as [|b bs IH]; simpl; intros Hnd; constructor.
  - eapply NoDup_keys_app_l, Hnd.
  - eapply IH, NoDup_keys_app_r, Hnd.
Qed.

Lemma batchIterator_eq {R} (batchSize : Z) (this : RecordSet.t R) :
  wf this ->
  RecordSet.batchIterator batchSize this
  = (fun batch => RecordSet.mk batch (RecordSet.scopes this))
      <$> RecordSet.batch_loop (fun e => e) batchSize (RecordSet.entries this) [].
Proof.
  intros Hwf. unfold RecordSet.batchIterator.
  assert (Hall : Forall (fun b => NoDup (keys b))
                        (RecordSet.batch_loop (fun e => e) batchSize (RecordSet.entries this) [])).
  { apply NoDup_keys_concat. rewrite batch_loop_concat. simpl.
    rewrite list_fmap_id. apply Hwf. }
  induction Hall as [|b bs Hb Hbs IH]; simpl; [reflexivity |].
  rewrite new_eq by (exact Hb || exact Hwf). f_equal. exact IH.
Qed.

(** C7: for [batchSize >= 1], [batchIterator(batchSize)] over [m] entries
    yields [ceil(m / batchSize)] batches (none when [m = 0]); every batch
    but the last has exactly [batchSize] entries, the last has between 1
    and [batchSize]; the batches, in the order they are yielded, add up to
    the entries of the set in insertion order.  With [flat] the batches
    are those same batches, each reduced to its values. *)
Theorem batchIterator_batches {R} (batchSize : Z) (this : RecordSet.t R) :
  wf this -> 1 <= batchSize ->
  let batches := RecordSet.batchIterator batchSize this in
  Z.of_nat (length batches) = ceil_div (RecordSet.size this) batchSize /\
  (RecordSet.size this = 0 -> batches = []) /\
  (forall i b, batches !! i = Some b -> (i + 1 < length batches)%nat ->
               RecordSet.size b = batchSize) /\
  (forall b, last batches = Some b -> 1 <= RecordSet.size b <= batchSize) /\
  concat (RecordSet.entries <$> batches) = RecordSet.entries this /\
  Forall (fun b => RecordSet.scopes b = RecordSet.scopes this) batches /\
  RecordSet.batchIterator_flat batchSize this
  = (fun b => snd <$> RecordSet.entries b) <$> batches.
Proof.
  intros Hwf Hn batches. subst batches. rewrite batchIterator_eq by exact Hwf.
  set (L := RecordSet.batch_loop (fun e => e) batchSize (RecordSet.entries this) []).
  assert (Hempty : Z.of_nat (length (@nil (RecordSet.entry R))) < batchSize) by (simpl; lia).
  split; [| split; [| split; [| split; [| split; [| split]]]]].
  - rewrite length_fmap. unfold L. rewrite batch_loop_length by (trivial; lia).
    simpl. reflexivity.
  - unfold RecordSet.size. intros Hsize. unfold L.
    destruct (RecordSet.entries this); [reflexivity | simpl in Hsize; lia].
  - intros i b Hlook Hi. rewrite length_fmap in Hi. rewrite list_lookup_fmap in Hlook.
    destruct (L !! i) as [b0|] eqn:Hb0; [| discriminate]. injection Hlook as <-.
    unfold RecordSet.size. simpl.
    exact (batch_loop_full _ batchSize _ [] Hn Hempty i b0 Hb0 Hi).
  - intros b Hlast. rewrite fmap_last in Hlast.
    destruct (last L) as [b0|] eqn:Hb0; [| discriminate]. injection Hlast as <-.
    unfold RecordSet.size. simpl.
    exact (batch_loop_last _ batchSize _ [] Hn Hempty b0 Hb0).
  - rewrite <- list_fmap_compose.
    change (concat ((fun b => b) <$> L) = RecordSet.entries this).
    rewrite list_fmap_id. unfold L. rewrite batch_loop_concat. simpl. apply list_fmap_id.
  - rewrite Forall_fmap. apply Forall_forall. intros b _. reflexivity.
  - rewrite <- list_fmap_compose. unfold RecordSet.batchIterator_flat.
    exact (batch_loop_item snd batchSize (RecordSet.entries this) []).
Qed.

Lemma batchIterator_batches_witness :
  RecordSet.entries <$> RecordSet.batchIterator 2 Examples.people
  = [[(PNum 1, Examples.ada); (PNum 2, Examples.bob)]; [(PNum 3, Examples.eve)]] /\
  Z.of_nat (length (RecordSet.batchIterator 2 Examples.people))
  = ceil_div (RecordSet.size Examples.people) 2.
Proof.
  split; [reflexivity |].
  apply (batchIterator_batches 2 Examples.people wf_people). lia.
Defined.

(** ** merge and append *)

Section Merge.
Context {R : Type}.
Implicit Types (es res : list (RecordSet.entry R)) (this : RecordSet.t R).

Lemma merge_entries_disjoint es res :
  NoDup (keys (res ++ es)) -> RecordSet.merge_entries es res = Ok (res ++ es).
Proof.
  revert res. induction es as [|[k v] es IH]; intros res Hnd; simpl.
  - now rewrite app_nil_r.
  - destruct (NoDup_keys_middle _ _ _ Hnd) as [_ Hk]. simpl in Hk.
    apply Map_has_false in Hk as Hhas. rewrite Hhas.
    rewrite Map_set_fresh by exact Hk. rewrite IH; rewrite <- app_assoc; [reflexivity | exact Hnd].
Qed.

(** A key that is already among the keys accumulated so far stops the
    loop with a duplication error (if an earlier one has not). *)
Lemma merge_entries_collision es res pre k v post :
  es = pre ++ (k, v) :: post -> k ∈ keys res ++ keys pre ->
  exists msg, RecordSet.merge_entries es res = Throw (DuplicationError msg).
Proof.
  intros ->. revert res. induction pre as [|[k' v'] pre IH]; intros res Hin; simpl.
  - rewrite app_nil_r in Hin. apply Map_has_true in Hin. rewrite Hin. eauto.
  - destruct (Map_has k' res) eqn:Hhas; [eauto |].
    apply IH. apply Map_has_false in Hhas. rewrite Map_set_fresh by exact Hhas.
    rewrite keys_app. simpl in *. rewrite <- app_assoc. exact Hin.
Qed.

Lemma merge_loop_flat (recordSets : list (RecordSet.t R)) res :
  RecordSet.merge_loop recordSets res
  = RecordSet.merge_entries (concat (RecordSet.entries <$> recordSets)) res.
Proof.
  revert res. induction recordSets as [|s rest IH]; intros res; simpl; [reflexivity |].
  generalize (RecordSet.entries s). intros es. revert res.
  induction es as [|[k v] es IHes]; intros res; simpl; [apply IH |].
  destruct (Map_has k res); [reflexivity | apply IHes].
Qed.

Lemma merge_disjoint this (recordSets : list (RecordSet.t R)) :
  wf this ->
  NoDup (keys (RecordSet.entries this ++ concat (RecordSet.entries <$> recordSets))) ->
  RecordSet.merge recordSets this
  = Ok (RecordSet.mk (RecordSet.entries this ++ concat (RecordSet.entries <$> recordSets))
                     (RecordSet.scopes this)).
Proof.
  intros Hwf Hnd. unfold RecordSet.merge.
  rewrite Map_new_NoDup by apply Hwf.
  rewrite merge_loop_flat, merge_entries_disjoint by exact Hnd. simpl.
  now rewrite new_eq.
Qed.

Lemma merge_collision this (recordSets : list (RecordSet.t R)) pre k v post :
  wf this ->
  concat (RecordSet.entries <$> recordSets) = pre ++ (k, v) :: post ->
  k ∈ RecordSet.ids this ++ keys pre ->
  exists msg, RecordSet.merge recordSets this = Throw (DuplicationError msg).
Proof.
  intros Hwf Hcat Hin. unfold RecordSet.merge.
  rewrite Map_new_NoDup by apply Hwf. rewrite merge_loop_flat.
  destruct (merge_entries_collision _ (RecordSet.entries this) _ _ _ _ Hcat Hin)
    as [msg Hthrow].
  exists msg.
  exact (f_equal (fun x => x ≫= (fun res => Ok (RecordSet.new res (Some this)))) Hthrow).
Qed.

Variable id_of : R -> prim.

Lemma append_fold_get_other k (records_ : list R) acc :
  Forall (fun r => id_of r <> k) records_ ->
  RecordSet.get k (fold_left (fun a r => RecordSet.set' (id_of r) r a) records_ acc)
  = RecordSet.get k acc.
Proof.
  revert acc. induction records_ as [|r rs IH]; intros acc Hall; simpl; [reflexivity |].
  apply Forall_cons in Hall as [Hr Hall]. rewrite IH by exact Hall.
  unfold RecordSet.get. simpl. apply Map_get_set_ne. congruence.
Qed.

Lemma append_last_wins (before_ after_ : list R) r this :
  Forall (fun r' => id_of r' <> id_of r) after_ ->
  RecordSet.get (id_of r) (RecordSet.append id_of (before_ ++ r :: after_) this) = Some r.
Proof.
  intros Hafter. unfold RecordSet.append. rewrite fold_left_app. simpl.
  rewrite append_fold_get_other by exact Hafter.
  unfold RecordSet.get. simpl. apply Map_get_set_eq.
Qed.

Lemma append_fold_ids (records_ : list R) acc :
  Forall (fun r => id_of r ∈ RecordSet.ids acc) records_ ->
  RecordSet.ids (fold_left (fun a r => RecordSet.set' (id_of r) r a) records_ acc)
  = RecordSet.ids acc.
Proof.
  revert acc. induction records_ as [|r rs IH]; intros acc Hall; simpl; [reflexivity |].
  apply Forall_cons in Hall as [Hr Hall].
  assert (Hids : RecordSet.ids (RecordSet.set' (id_of r) r acc) = RecordSet.ids acc)
    by now apply keys_Map_set_present.
  rewrite IH; [exact Hids |]. now rewrite Hids.
Qed.
End Merge.

(** ** Facts about the store *)

Section StoreFacts.
Context {R : Type} (id_of : R -> prim).
Implicit Types (h : gmap Store.ref (RecordSet.t R)) (s d : Store.ref).

Lemma invoke_inv op s h out h' :
  Store.invoke id_of op s h = (out, h') ->
  (exists e, out = Throw e /\ h' = h) \/
  (exists this D, h !! s = Some this /\ Store.derive id_of h op this = Ok D /\
                  out = Ok (fresh (dom h)) /\ h' = <[fresh (dom h) := D]> h).
Proof.
  unfold Store.invoke. destruct (h !! s) as [this|] eqn:Hs.
  - destruct (Store.derive id_of h op this) as [D|e] eqn:Hd; intros [= <- <-].
    + right. now exists this, D.
    + left. now exists e.
  - intros [= <- <-]. left. eauto.
Qed.

Lemma fresh_not_allocated h r : is_Some (h !! r) -> r <> fresh (dom h).
Proof.
  intros Hr ->. apply elem_of_dom in Hr. exact (is_fresh (dom h) Hr).
Qed.

(** A call leaves every object that exists as it is. *)
Lemma invoke_frame op s h out h' r :
  Store.invoke id_of op s h = (out, h') -> is_Some (h !! r) -> h' !! r = h !! r.
Proof.
  intros Hinv Hr. apply invoke_inv in Hinv as [(e & _ & ->) | (this & D & _ & _ & _ & ->)].
  - reflexivity.
  - apply lookup_insert_ne. apply not_eq_sym. now apply fresh_not_allocated.
Qed.

Lemma mutate_frame (m : Store.mutation) s h d :
  d <> s -> snd (Store.mutate m s h) !! d = h !! d.
Proof.
  intros Hne. unfold Store.mutate. destruct (h !! s) as [this|]; [| reflexivity].
  destruct (Store.apply m this) as [outcome this']. simpl.
  apply lookup_insert_ne. congruence.
Qed.

Lemma mutate_all_frame (ms : list Store.mutation) s h d :
  d <> s -> Store.mutate_all ms s h !! d = h !! d.
Proof.
  intros Hne. revert h. induction ms as [|m ms IH]; intros h; simpl; [reflexivity |].
  unfold Store.mutate_all in *. simpl. rewrite IH. now apply mutate_frame.
Qed.
End StoreFacts.

(** C1: when the keys of [S] and [T] are disjoint, [S.merge(T)] succeeds
    and its size is [|S| + |T|]; when a key of [T], or of a later
    argument, is already among the keys accumulated so far, [merge] throws
    a duplication error, no record set is created and every existing one,
    [S] and [T] among them, is as before; [append] does not fail on a
    colliding key: the key keeps its place and the later record is the
    one it maps to. *)
Theorem merge_all_or_nothing {R} (id_of : R -> prim) (S T : RecordSet.t R)
        (others : list (RecordSet.t R)) :
  wf S -> wf T ->
  ((forall k, k ∈ RecordSet.ids S -> k ∉ RecordSet.ids T) ->
   exists D, RecordSet.merge [T] S = Ok D /\
             RecordSet.entries D = RecordSet.entries S ++ RecordSet.entries T /\
             RecordSet.size D = RecordSet.size S + RecordSet.size T /\
             RecordSet.scopes D = RecordSet.scopes S) /\
  (forall pre k v post,
      concat (RecordSet.entries <$> T :: others) = pre ++ (k, v) :: post ->
      k ∈ RecordSet.ids S ++ keys pre ->
      exists msg, RecordSet.merge (T :: others) S = Throw (DuplicationError msg)) /\
  (forall (h : gmap Store.ref (RecordSet.t R)) s rs out h',
      Store.invoke id_of (Store.Merge rs) s h = (out, h') ->
      (forall e, out = Throw e -> h' = h) /\
      (forall r, is_Some (h !! r) -> h' !! r = h !! r)) /\
  (forall before_ r after_,
      Forall (fun r' => id_of r' <> id_of r) after_ ->
      RecordSet.get (id_of r) (RecordSet.append id_of (before_ ++ r :: after_) S) = Some r) /\
  (forall records_,
      Forall (fun r => id_of r ∈ RecordSet.ids S) records_ ->
      RecordSet.ids (RecordSet.append id_of records_ S) = RecordSet.ids S).
Proof.
  intros HS HT. split; [| split; [| split; [| split]]].
  - intros Hdisj.
    assert (Hnd : NoDup (keys (RecordSet.entries S
                               ++ concat (RecordSet.entries <$> [T])))).
    { replace (concat (RecordSet.entries <$> [T])) with (RecordSet.entries T)
        by (simpl; now rewrite app_nil_r).
      rewrite keys_app. apply NoDup_app.
      split; [apply HS | split; [exact Hdisj | apply HT]]. }
    rewrite (merge_disjoint S [T] HS Hnd). eexists. split; [reflexivity |].
    simpl. rewrite app_nil_r. repeat split.
    unfold RecordSet.size. simpl. rewrite length_app. lia.
  - intros pre k v post Hcat Hin. now apply (merge_collision S (T :: others) pre k v post).
  - intros h s rs out h' Hinv. split.
    + intros e ->. apply invoke_inv in Hinv as [(e' & _ & ->) | (this & D & _ & _ & Hout & _)];
        [reflexivity | discriminate].
    + intros r Hr. now apply (invoke_frame id_of _ _ _ _ _ r Hinv).
  - intros before_ r after_ Hafter. now apply append_last_wins.
  - intros records_ Hall. unfold RecordSet.append.
    assert (Hnew : RecordSet.new (RecordSet.entries S) (Some S)
                   = RecordSet.mk (RecordSet.entries S) (RecordSet.scopes S))
      by (apply new_eq; [apply HS | exact HS]).
    rewrite Hnew. now rewrite append_fold_ids.
Qed.

Lemma merge_all_or_nothing_witness :
  (exists D, RecordSet.merge [Examples.newcomers] Examples.people = Ok D /\
             RecordSet.size D = 4) /\
  (exists msg,
      RecordSet.merge [Examples.returning] Examples.people = Throw (DuplicationError msg)).
Proof.
  split.
  - destruct (merge_all_or_nothing rid Examples.people Examples.newcomers []
                wf_people (wf_new_None _)) as (Hmerge & _).
    destruct Hmerge as (D & HD & _ & Hsize & _).
    + intros k Hk Hk'.
      change (k ∈ [PNum 1; PNum 2; PNum 3]) in Hk. change (k ∈ [PNum 4]) in Hk'.
      apply list_elem_of_singleton in Hk' as ->.
      rewrite !elem_of_cons, elem_of_nil in Hk.
      destruct Hk as [Hk | [Hk | [Hk | []]]]; discriminate.
    + exists D. split; [exact HD | exact Hsize].
  - destruct (merge_all_or_nothing rid Examples.people Examples.returning []
                wf_people (wf_new_None _)) as (_ & Hcollide & _).
    apply (Hcollide [] (PNum 2) Examples.rob []); [reflexivity |].
    change (PNum 2 ∈ [PNum 1; PNum 2; PNum 3]). rewrite !elem_of_cons. tauto.
Defined.

(** ** addScope *)

Section AddScope.
Context {R : Type}.
Implicit Types (this : RecordSet.t R) (name : string).

Lemma addScope_no_effect_on_failure name scope_ sortFn this e :
  fst (RecordSet.addScope name scope_ sortFn this) = Throw e ->
  snd (RecordSet.addScope name scope_ sortFn this) = this.
Proof.
  unfold RecordSet.addScope.
  destruct (RecordSet.validateProperty "Scope" name scope_ (RecordSet.scopes this));
    [| reflexivity].
  destruct (if truthy_arg sortFn then _ else _); [| reflexivity].
  destruct (RecordSet.property_truthy name this) as [inUse|]; [| reflexivity].
  destruct (inUse || RecordSet.mem name RecordSet.prototype_names);
    [reflexivity | discriminate].
Qed.

(** Without a scope named [size], [this.size] is the number of entries
    and the getters do not throw. *)
Lemma get_size_count this :
  "size" ∉ RecordSet.own_accessors this ->
  RecordSet.get_size this = Ok (RecordSet.Count (RecordSet.size this)).
Proof.
  intros Hn. unfold RecordSet.get_size, RecordSet.mem.
  now rewrite bool_decide_eq_false_2.
Qed.

Lemma last_count this :
  "size" ∉ RecordSet.own_accessors this ->
  RecordSet.last this = Ok (snd <$> list.last (RecordSet.entries this)).
Proof.
  intros Hn. unfold RecordSet.last. rewrite get_size_count by exact Hn. simpl.
  unfold RecordSet.size.
  destruct (RecordSet.entries this) as [|e es] eqn:Hes using rev_ind; [reflexivity |].
  rewrite length_app, last_snoc. simpl.
  replace (Z.of_nat (length es + 1) =? 0) with false; [reflexivity |].
  symmetry. apply Z.eqb_neq. lia.
Qed.

Lemma property_truthy_total name this :
  name ∉ RecordSet.own_accessors this ->
  "size" ∉ RecordSet.own_accessors this ->
  exists inUse, RecordSet.property_truthy name this = Ok inUse.
Proof.
  intros Hn Hsize. unfold RecordSet.property_truthy.
  replace (RecordSet.mem name (RecordSet.own_accessors this)) with false
    by (symmetry; now apply bool_decide_eq_false_2).
  rewrite last_count, get_size_count by exact Hsize. simpl.
  repeat match goal with |- context [if ?b then _ else _] => destruct b end; eauto.
Qed.

(** The name of a member reads as in use, or is a name of the class. *)
Lemma property_truthy_member name this :
  name ∉ RecordSet.own_accessors this ->
  "size" ∉ RecordSet.own_accessors this ->
  RecordSet.mem name RecordSet.prototype_names
  || RecordSet.mem name RecordSet.Map_prototype_names
  || RecordSet.mem name RecordSet.Object_prototype_names = true ->
  exists inUse, RecordSet.property_truthy name this = Ok inUse /\
                inUse || RecordSet.mem name RecordSet.prototype_names = true.
Proof.
  intros Hn Hsize Hmem. unfold RecordSet.property_truthy.
  replace (RecordSet.mem name (RecordSet.own_accessors this)) with false
    by (symmetry; now apply bool_decide_eq_false_2).
  destruct (String.eqb name "first") eqn:Hfirst.
  { apply String.eqb_eq in Hfirst as ->. eexists. split; [reflexivity | apply orb_true_r]. }
  destruct (String.eqb name "last") eqn:Hlast.
  { apply String.eqb_eq in Hlast as ->. rewrite last_count by exact Hsize.
    eexists. split; [reflexivity | apply orb_true_r]. }
  destruct (RecordSet.mem name ["count"; "length"; "size"]) eqn:Hcount.
  { rewrite get_size_count by exact Hsize. eexists. split; [reflexivity |].
    apply bool_decide_eq_true in Hcount.
    rewrite !elem_of_cons, elem_of_nil in Hcount.
    destruct Hcount as [-> | [-> | [-> | []]]]; [apply orb_true_r | apply orb_true_r |].
    vm_compute in Hmem. discriminate. }
  destruct (RecordSet.mem name RecordSet.prototype_names) eqn:Hp.
  { eexists. split; reflexivity. }
  simpl in Hmem.
  destruct (RecordSet.mem name RecordSet.Map_prototype_names).
  { eexists. split; reflexivity. }
  simpl in Hmem. rewrite Hmem. eexists. split; reflexivity.
Qed.

(** On a well-formed set [this.size] is read without an exception, and
    the guards [this.size === 0] of [every] and [some] can be taken on
    the count: when a scope shadows it, the guard fails and the array
    methods give, on no entries, what the guard gives. *)
Lemma size_guard (f : RecordSet.callback R) this :
  wf this ->
  exists sz,
    RecordSet.get_size this = Ok sz /\
    (if RecordSet.is_zero sz then true
     else forallb (RecordSet.call f this) (RecordSet.entries this)) = RecordSet.every f this /\
    (if RecordSet.is_zero sz then false
     else existsb (RecordSet.call f this) (RecordSet.entries this)) = RecordSet.some f this.
Proof.
  intros Hwf. unfold RecordSet.get_size, RecordSet.every, RecordSet.some.
  destruct (RecordSet.mem "size" (RecordSet.own_accessors this)) eqn:Hmem.
  - apply bool_decide_eq_true in Hmem.
    destruct (Map_get "size" (RecordSet.scopes this)) as [[m c]|] eqn:Hget;
      [| apply Map_get_None in Hget; contradiction].
    rewrite (scopedWhere_eq this "size" m c Hwf Hget). eexists. split; [reflexivity |].
    simpl. unfold RecordSet.size.
    destruct (RecordSet.entries this); split; reflexivity.
  - eexists. split; [reflexivity |]. simpl. split; reflexivity.
Qed.

(** A name that no prototype knows, other than [size], reads as
    [undefined]. *)
Lemma property_truthy_free name this :
  name ∉ RecordSet.own_accessors this ->
  name <> "size" ->
  RecordSet.mem name RecordSet.prototype_names
  || RecordSet.mem name RecordSet.Map_prototype_names
  || RecordSet.mem name RecordSet.Object_prototype_names = false ->
  RecordSet.property_truthy name this = Ok false.
Proof.
  intros Hn Hsize Hmem.
  apply orb_false_iff in Hmem as [Hmem Hobj]. apply orb_false_iff in Hmem as [Hp Hmap].
  unfold RecordSet.property_truthy.
  replace (RecordSet.mem name (RecordSet.own_accessors this)) with false
    by (symmetry; now apply bool_decide_eq_false_2).
  assert (Hnot : forall n, n ∈ RecordSet.prototype_names -> String.eqb name n = false).
  { intros n Hin. apply String.eqb_neq. intros ->.
    apply bool_decide_eq_false in Hp. contradiction. }
  rewrite (Hnot "first") by (unfold RecordSet.prototype_names; rewrite !elem_of_cons; tauto).
  rewrite (Hnot "last") by (unfold RecordSet.prototype_names; rewrite !elem_of_cons; tauto).
  replace (RecordSet.mem name ["count"; "length"; "size"]) with false.
  - now rewrite Hp, Hmap, Hobj.
  - symmetry. apply bool_decide_eq_false. rewrite !elem_of_cons, elem_of_nil.
    intros [-> | [-> | [-> | []]]]; [| | contradiction];
      apply bool_decide_eq_false in Hp; apply Hp;
      unfold RecordSet.prototype_names; rewrite !elem_of_cons; tauto.
Qed.
End AddScope.

(** C8 does not hold as it is stated.  A comparator that is passed, is
    not callable and is falsy (here the number 0) is let through by the
    guard [if (sortFn)]: the scope is registered, with that value stored
    in the place of the comparator.  And the name of a field is no
    obstacle: every record of [people] has the field [age], and a scope
    named [age] is registered; the record set looks the name up on
    itself, where only its own members and scopes are. *)
Lemma addScope_accepts_falsy_comparator_and_field_name :
  let sortFn : arg (RecordSet.comparator record) := NotFn (VPrim (PNum 0)) in
  (sortFn <> NotFn (VPrim PUndefined) /\
   is_function sortFn = false /\
   RecordSet.addScope "adults" (Fn Examples.over_30) sortFn Examples.people
   = (Ok tt,
      RecordSet.mk (RecordSet.entries Examples.people)
                   (RecordSet.scopes Examples.people
                    ++ [("adults", (Examples.over_30, sortFn))]))) /\
  (Forall (fun e => Map_has "age" (rfields (snd e)) = true)
          (RecordSet.entries Examples.people) /\
   RecordSet.addScope "age" (Fn Examples.over_30) (NotFn (VPrim PUndefined)) Examples.people
   = (Ok tt,
      RecordSet.mk (RecordSet.entries Examples.people)
                   (RecordSet.scopes Examples.people
                    ++ [("age", (Examples.over_30, NotFn (VPrim PUndefined)))]))).
Proof.
  split; [split; [discriminate | split; reflexivity] |].
  split; [repeat constructor | reflexivity].
Qed.

(** C8, amended: [addScope(name, matcher, comparator)] fails
    - with a [TypeError] when the matcher is not callable;
    - else with a [DuplicationError] when [name] is a registered scope;
    - else with a [TypeError] when the comparator is truthy and not
      callable (a falsy one counts as not given);
    - else with a [NameError] when [name] is a string-named member of the
      class or a method inherited from [Map.prototype] or
      [Object.prototype], on a set that has no scope named [size];
    and a call that fails has no effect: the scope table, and with it the
    accessors, are unchanged.  A call with a callable matcher, a
    comparator that is callable or falsy, and a name that is no scope, no
    member of the three prototypes and not [size] registers the scope at
    the end of the table.  The name of a field is not looked at. *)
Theorem addScope_validates {R} (name : string) (scope_ : arg (RecordSet.callback R))
        (sortFn : arg (RecordSet.comparator R)) (this : RecordSet.t R) :
  let outcome := fst (RecordSet.addScope name scope_ sortFn this) in
  let this' := snd (RecordSet.addScope name scope_ sortFn this) in
  (is_function scope_ = false ->
   exists msg, outcome = Throw (TypeError msg)) /\
  (is_function scope_ = true -> name ∈ RecordSet.own_accessors this ->
   exists msg, outcome = Throw (DuplicationError msg)) /\
  (is_function scope_ = true -> name ∉ RecordSet.own_accessors this ->
   truthy_arg sortFn = true -> is_function sortFn = false ->
   exists msg, outcome = Throw (TypeError msg)) /\
  (is_function scope_ = true -> name ∉ RecordSet.own_accessors this ->
   comparator_ok sortFn ->
   "size" ∉ RecordSet.own_accessors this ->
   RecordSet.mem name RecordSet.prototype_names
   || RecordSet.mem name RecordSet.Map_prototype_names
   || RecordSet.mem name RecordSet.Object_prototype_names = true ->
   exists msg, outcome = Throw (NameError msg)) /\
  (forall e, outcome = Throw e ->
             this' = this /\ RecordSet.own_accessors this' = RecordSet.own_accessors this) /\
  (forall matcher,
      scope_ = Fn matcher -> name ∉ RecordSet.own_accessors this ->
      comparator_ok sortFn ->
      name <> "size" ->
      RecordSet.mem name RecordSet.prototype_names
      || RecordSet.mem name RecordSet.Map_prototype_names
      || RecordSet.mem name RecordSet.Object_prototype_names = false ->
      outcome = Ok tt /\
      this' = RecordSet.mk (RecordSet.entries this)
                           (RecordSet.scopes this ++ [(name, (matcher, sortFn))])).
Proof.
  intros outcome this'. subst outcome this'.
  assert (Hcmp : comparator_ok sortFn ->
                 (if truthy_arg sortFn
                  then _ ← RecordSet.validateFunction "Scope comparator" name sortFn; Ok tt
                  else Ok tt) = Ok tt).
  { intros Hok. destruct (truthy_arg sortFn) eqn:Ht; [| reflexivity].
    specialize (Hok Ht). destruct sortFn; [reflexivity | discriminate]. }
  split; [| split; [| split; [| split; [| split]]]].
  - destruct scope_ as [m | v]; [discriminate |]. intros _. simpl. eauto.
  - destruct scope_ as [m | v]; [| discriminate]. intros _ Hin.
    apply Map_has_true in Hin. unfold RecordSet.addScope. simpl. rewrite Hin. simpl. eauto.
  - destruct scope_ as [m | v]; [| discriminate]. intros _ Hn Htruthy Hfn.
    apply Map_has_false in Hn. unfold RecordSet.addScope. simpl. rewrite Hn, Htruthy.
    destruct sortFn as [c | w]; [discriminate |]. simpl. eauto.
  - destruct scope_ as [m | v]; [| discriminate]. intros _ Hn Hok Hsize Hmem.
    destruct (property_truthy_member name this Hn Hsize Hmem) as (inUse & Hprop & Huse).
    apply Map_has_false in Hn. unfold RecordSet.addScope. simpl. rewrite Hn.
    rewrite (Hcmp Hok), Hprop, Huse. simpl. eauto.
  - intros e He. rewrite (addScope_no_effect_on_failure _ _ _ _ _ He). now split.
  - intros matcher -> Hn Hok Hsize Hfree.
    pose proof (property_truthy_free name this Hn Hsize Hfree) as Hprop.
    apply orb_false_iff in Hfree as [Hfree _]. apply orb_false_iff in Hfree as [Hp _].
    pose proof Hn as Hhas. apply Map_has_false in Hhas.
    unfold RecordSet.addScope. simpl. rewrite Hhas.
    rewrite (Hcmp Hok), Hprop, Hp. simpl. split; [reflexivity |].
    now rewrite Map_set_fresh.
Qed.

Lemma addScope_validates_witness :
  (exists msg,
      fst (RecordSet.addScope "open" (Fn Examples.over_30) (NotFn (VPrim PUndefined))
                              Examples.people)
      = Throw (DuplicationError msg)) /\
  (exists msg,
      fst (RecordSet.addScope "filter" (Fn Examples.over_30) (NotFn (VPrim PUndefined))
                              Examples.people)
      = Throw (NameError msg)) /\
  (exists msg,
      fst (RecordSet.addScope "adults" (Fn Examples.over_30) (NotFn (VPrim (PStr "age")))
                              Examples.people)
      = Throw (TypeError msg)) /\
  fst (RecordSet.addScope "adults" (Fn Examples.over_30) (Fn Examples.by_age) Examples.people)
  = Ok tt.
Proof.
  assert (Hnot : forall n : string, n <> "open" -> n ∉ RecordSet.own_accessors Examples.people).
  { intros n Hne Hin. apply list_elem_of_singleton in Hin. contradiction. }
  split; [| split; [| split]].
  - apply (addScope_validates "open" (Fn Examples.over_30) (NotFn (VPrim PUndefined))
                              Examples.people); [reflexivity |].
    apply list_elem_of_singleton. reflexivity.
  - apply (addScope_validates "filter" (Fn Examples.over_30) (NotFn (VPrim PUndefined))
                              Examples.people);
      [reflexivity | apply Hnot; discriminate | discriminate | apply Hnot; discriminate
       | reflexivity].
  - apply (addScope_validates "adults" (Fn Examples.over_30) (NotFn (VPrim (PStr "age")))
                              Examples.people);
      [reflexivity | apply Hnot; discriminate | reflexivity | reflexivity].
  - eapply (addScope_validates "adults" (Fn Examples.over_30) (Fn Examples.by_age)
                               Examples.people);
      [reflexivity | apply Hnot; discriminate | intros _; reflexivity | discriminate
       | reflexivity].
Defined.

(** [size] is a member inherited from [Map.prototype], read by its value:
    on a set that has no entries it is 0, and the name is let through;
    on a set that has entries it is refused. *)
Example addScope_size :
  fst (RecordSet.addScope "size" (Fn Examples.over_30) (NotFn (VPrim PUndefined))
                          (RecordSet.new [] None))
  = Ok tt /\
  is_NameError_outcome
    (fst (RecordSet.addScope "size" (Fn Examples.over_30) (NotFn (VPrim PUndefined))
                             Examples.people)) = true.
Proof. split; reflexivity. Qed.

(** Once a scope named [size] is on a set that has no entries, the
    getter [last] passes its guard and throws, and so does registering a
    scope under the name [last]: the error is the [TypeError] of the
    getter, not the [NameError] of the name. *)
Example addScope_last_after_size :
  let sized :=
    snd (RecordSet.addScope "size" (Fn Examples.over_30) (NotFn (VPrim PUndefined))
                            (RecordSet.new [] None)) in
  RecordSet.own_accessors sized = ["size"] /\
  wf sized /\
  (exists msg, RecordSet.last sized = Throw (TypeError msg)) /\
  exists msg,
    RecordSet.addScope "last" (Fn Examples.over_30) (NotFn (VPrim PUndefined)) sized
    = (Throw (TypeError msg), sized).
Proof.
  split; [reflexivity |]. split; [| split; eexists; reflexivity].
  repeat split; simpl; repeat constructor; [apply not_elem_of_nil | discriminate].
Qed.

(** ** groupBy *)

Section GroupBy.
Variable key : string.
Variable this : RecordSet.t record.
Implicit Types (es : list (RecordSet.entry record))
         (res : gmap string (RecordSet.t record)) (p : string).

Lemma set_all_fresh es (P : RecordSet.t record) :
  NoDup (keys (RecordSet.entries P ++ es)) ->
  set_all es P = RecordSet.mk (RecordSet.entries P ++ es) (RecordSet.scopes P).
Proof.
  intros Hnd. unfold set_all.
  pose proof (filter_fold (fun _ => true) es P Hnd) as Hfold.
  assert (Hall : List.filter (fun _ : RecordSet.entry record => true) es = es).
  { clear. induction es as [|e es IH]; simpl; [reflexivity | now rewrite IH]. }
  rewrite Hall in Hfold. exact Hfold.
Qed.

Lemma partition_of_cons_eq e es :
  partition_of key (group_key key e) (e :: es) = e :: partition_of key (group_key key e) es.
Proof. unfold partition_of. simpl. now rewrite String.eqb_refl. Qed.

Lemma partition_of_cons_ne e es p :
  group_key key e <> p -> partition_of key p (e :: es) = partition_of key p es.
Proof.
  intros Hne. unfold partition_of. simpl.
  apply String.eqb_neq in Hne. now rewrite Hne.
Qed.

Lemma groupBy_loop_ok es res :
  Forall (fun e => RecordSet.mem (group_key key e) RecordSet.Object_prototype_names = false) es ->
  exists res',
    RecordSet.groupBy_loop key this es res = Ok res' /\
    forall p,
      res' !! p =
      match res !! p with
      | Some P => Some (set_all (partition_of key p es) P)
      | None =>
          match partition_of key p es with
          | [] => None
          | part => Some (set_all part (RecordSet.new [] (Some this)))
          end
      end.
Proof.
  revert res. induction es as [|[recordKey value_] es IH]; intros res Hall.
  - exists res. split; [reflexivity |]. intros p. simpl. now destruct (res !! p).
  - apply Forall_cons in Hall as [He Hall]. cbn [RecordSet.groupBy_loop].
    set (p0 := group_key key (recordKey, value_)) in *.
    change (RecordSet.ToPropertyKey (RecordSet.groupBy_keyValue key value_)) with p0.
    destruct (res !! p0) as [P0|] eqn:Hp0.
    + destruct (IH (<[p0 := RecordSet.set' recordKey value_ P0]> res) Hall)
        as (res' & -> & Hres').
      exists res'. split; [reflexivity |]. intros p. rewrite Hres'.
      destruct (decide (p = p0)) as [->|Hne].
      * rewrite lookup_insert_eq, Hp0. unfold p0. now rewrite partition_of_cons_eq.
      * rewrite lookup_insert_ne by congruence.
        now rewrite (partition_of_cons_ne _ _ p) by (fold p0; congruence).
    + rewrite He.
      destruct (IH (<[p0 := RecordSet.set' recordKey value_ (RecordSet.new [] (Some this))]> res)
                   Hall) as (res' & -> & Hres').
      exists res'. split; [reflexivity |]. intros p. rewrite Hres'.
      destruct (decide (p = p0)) as [->|Hne].
      * rewrite lookup_insert_eq, Hp0. unfold p0. now rewrite partition_of_cons_eq.
      * rewrite lookup_insert_ne by congruence.
        now rewrite (partition_of_cons_ne _ _ p) by (fold p0; congruence).
Qed.

Lemma groupBy_loop_throw es res :
  (forall p, is_Some (res !! p) ->
             RecordSet.mem p RecordSet.Object_prototype_names = false) ->
  Exists (fun e => RecordSet.mem (group_key key e) RecordSet.Object_prototype_names = true) es ->
  exists msg, RecordSet.groupBy_loop key this es res = Throw (TypeError msg).
Proof.
  revert res. induction es as [|[recordKey value_] es IH]; intros res Hres Hex.
  - inversion Hex.
  - cbn [RecordSet.groupBy_loop]. set (p0 := group_key key (recordKey, value_)) in *.
    change (RecordSet.ToPropertyKey (RecordSet.groupBy_keyValue key value_)) with p0.
    destruct (RecordSet.mem p0 RecordSet.Object_prototype_names) eqn:Hmem.
    + destruct (res !! p0) as [P0|] eqn:Hp0; [| eauto].
      rewrite Hres in Hmem by (rewrite Hp0; eauto). discriminate.
    + assert (Htail : Exists (fun e => RecordSet.mem (group_key key e)
                                         RecordSet.Object_prototype_names = true) es).
      { apply Exists_cons in Hex as [Hhd | Htl]; [| exact Htl].
        fold p0 in Hhd. congruence. }
      destruct (res !! p0) as [P0|] eqn:Hp0; apply IH; trivial;
        intros p [P HP]; (destruct (decide (p = p0)) as [->|Hne];
          [exact Hmem | rewrite lookup_insert_ne in HP by congruence; apply Hres; eauto]).
Qed.

Lemma partition_of_elem p e es :
  e ∈ partition_of key p es <-> e ∈ es /\ group_key key e = p.
Proof.
  unfold partition_of.
  rewrite list_elem_of_In, List.filter_In, <- list_elem_of_In, String.eqb_eq. reflexivity.
Qed.
End GroupBy.

(** [res] starts as [{}] and inherits the members of [Object.prototype]:
    as soon as the string form of one record is the name of such a member
    the call throws. *)
Lemma groupBy_throws_on_inherited_name (key : string) (this : RecordSet.t record) :
  Exists (fun e => RecordSet.mem (group_key key e) RecordSet.Object_prototype_names = true)
         (RecordSet.entries this) ->
  exists msg, RecordSet.groupBy key this = Throw (TypeError msg).
Proof.
  intros Hex. apply groupBy_loop_throw; [| exact Hex].
  intros p [P HP]. rewrite lookup_empty in HP. discriminate.
Qed.

(** C10, where the code departs from it: a ticket whose [status] is the
    string 'constructor' cannot be grouped by [status].
    [res['constructor']] is the function [Object], which [res = {}]
    inherits, no partition is created for the string, and the call of
    its [[$set]] throws, where the claim (and the documentation of the
    method) has a partition named 'constructor'. *)
Theorem groupBy_throws_on_constructor :
  let created : RecordSet.t record :=
    RecordSet.new [(PNum 1, Examples.ticket 1 [("status", VPrim (PStr "open"))]);
                   (PNum 2, Examples.ticket 2 [("status", VPrim (PStr "constructor"))])]
                  None in
  wf created /\
  group_key "status" (PNum 2, Examples.ticket 2 [("status", VPrim (PStr "constructor"))])
  = "constructor" /\
  exists msg, RecordSet.groupBy "status" created = Throw (TypeError msg).
Proof.
  split; [apply wf_new_None | split; [reflexivity | eexists; reflexivity]].
Qed.

(** X27: when no record's string form for [k] is the name of a
    member of [Object.prototype] (as 'constructor' is), [groupBy(k)]
    keys its partitions by the string form of each record's value for
    [k], or of the key of that value when it is a record: every record is
    in the partition named by that string, in the order of the set and
    with the scopes of the set, so two records whose values differ and
    have the same string form (the number 1 and the string '1') share a
    partition; [null] and [undefined] are grouped under 'null' and
    'undefined' and raise nothing. *)
Theorem groupBy_by_string_form (key : string) (this : RecordSet.t record) :
  wf this ->
  Forall (fun e => RecordSet.mem (group_key key e) RecordSet.Object_prototype_names = false)
         (RecordSet.entries this) ->
  (exists res,
     RecordSet.groupBy key this = Ok res /\
     (forall p,
         res !! p = match partition_of key p (RecordSet.entries this) with
                    | [] => None
                    | part => Some (RecordSet.mk part (RecordSet.scopes this))
                    end) /\
     (forall e1 e2,
         e1 ∈ RecordSet.entries this -> e2 ∈ RecordSet.entries this ->
         group_key key e1 = group_key key e2 ->
         exists P, res !! group_key key e1 = Some P /\
                   e1 ∈ RecordSet.entries P /\ e2 ∈ RecordSet.entries P)) /\
  (forall e,
      group_key key e
      = match RecordSet.record_get (snd e) key with
        | VPrim p => ToString p
        | VArr xs => join_array xs
        | VRec id _ => ToString id
        end) /\
  ToString (PNum 1) = ToString (PStr "1") /\
  (ToString PNull = "null" /\
   RecordSet.mem "null" RecordSet.Object_prototype_names = false) /\
  (ToString PUndefined = "undefined" /\
   RecordSet.mem "undefined" RecordSet.Object_prototype_names = false).
Proof.
  intros Hwf Hall. split; [| split; [| repeat split]].
  - destruct (groupBy_loop_ok key this (RecordSet.entries this) ∅ Hall) as (res & Hres & Hlook).
    exists res. split; [exact Hres |].
    assert (Hpart : forall p,
               res !! p = match partition_of key p (RecordSet.entries this) with
                          | [] => None
                          | part => Some (RecordSet.mk part (RecordSet.scopes this))
                          end).
    { intros p. rewrite Hlook, lookup_empty.
      rewrite (new_eq [] this) by (trivial; constructor).
      assert (Hset : set_all (partition_of key p (RecordSet.entries this))
                             (RecordSet.mk [] (RecordSet.scopes this))
                     = RecordSet.mk (partition_of key p (RecordSet.entries this))
                                    (RecordSet.scopes this)).
      { rewrite set_all_fresh; [reflexivity |]. simpl. apply NoDup_keys_filter, Hwf. }
      destruct (partition_of key p (RecordSet.entries this)) as [|e part];
        [reflexivity |].
      f_equal. exact Hset. }
    split; [exact Hpart |].
    intros e1 e2 He1 He2 Heq. rewrite Hpart.
    assert (H1 : e1 ∈ partition_of key (group_key key e1) (RecordSet.entries this))
      by now apply partition_of_elem.
    assert (H2 : e2 ∈ partition_of key (group_key key e1) (RecordSet.entries this))
      by now apply partition_of_elem.
    destruct (partition_of key (group_key key e1) (RecordSet.entries this)) as [|e part].
    + inversion H1.
    + eexists. split; [reflexivity |]. simpl. now split.
  - intros e. unfold group_key, RecordSet.groupBy_keyValue.
    now destruct (RecordSet.record_get (snd e) key).
Qed.

Lemma groupBy_by_string_form_witness :
  exists res,
    RecordSet.groupBy "status" Examples.tickets = Ok res /\
    RecordSet.ids <$> res !! "1" = Some [PNum 1; PNum 2; PNum 5] /\
    RecordSet.ids <$> res !! "null" = Some [PNum 3] /\
    RecordSet.ids <$> res !! "undefined" = Some [PNum 4].
Proof.
  destruct (groupBy_by_string_form "status" Examples.tickets (wf_new_None _))
    as (Hok & _); [repeat constructor |].
  destruct Hok as (res & Hres & Hpart & _).
  exists res. split; [exact Hres |]. rewrite !Hpart. repeat split.
Defined.

(** ** Relationship: the receiving side *)

Section Reverse.
Implicit Types (this : Relationship.t) (es : list (RecordSet.entry record)).

Lemma find_loop_never es :
  Relationship.find_loop (fun _ => Ok false) es = Ok Relationship.Undefined.
Proof. induction es as [|e es IH]; simpl; [reflexivity | exact IH]. Qed.

Lemma where_loop_never es newMap :
  Relationship.where_loop (fun _ => Ok false) es newMap = Ok newMap.
Proof. revert newMap. induction es as [|e es IH]; intros newMap; simpl; [reflexivity | apply IH]. Qed.

(** With a to-one cardinality the matcher of the receiving side compares
    the record itself with the key: nothing is ever found. *)
Lemma reverse_toOne_finds_nothing this record_ :
  Relationship.isToOne (Relationship.type this) = true ->
  Relationship.getAssociatedRecordsReverse this record_
  = Ok (if Relationship.isFromOne (Relationship.type this)
        then Relationship.Undefined
        else Relationship.Many
               (RecordSet.new [] (Some (Relationship.records (Relationship.from this))))).
Proof.
  intros HtoOne. unfold Relationship.getAssociatedRecordsReverse. rewrite HtoOne.
  unfold Relationship.strict_equals_record_prim.
  destruct (Relationship.isFromOne (Relationship.type this)).
  - apply find_loop_never.
  - unfold Relationship.where_. now rewrite where_loop_never.
Qed.

(** A matcher that does not throw on the entries makes [where] the
    [filter] of its truth values. *)
Lemma where_loop_total (matcher : record -> result bool) (g : record -> bool) es newMap :
  Forall (fun e => matcher (snd e) = Ok (g (snd e))) es ->
  Relationship.where_loop matcher es newMap
  = Ok (fold_left (fun m e => if g (snd e) then RecordSet.set' (fst e) (snd e) m else m)
                  es newMap).
Proof.
  revert newMap. induction es as [|e es IH]; intros newMap Hall; simpl; [reflexivity |].
  apply Forall_cons in Hall as [He Hall]. rewrite He. simpl. now apply IH.
Qed.

(** With a to-many, from-many cardinality, on a store whose foreign-key
    field is a list of keys or empty, the receiving side gives exactly
    the records whose list holds the key of the given record. *)
Lemma reverse_toMany_exact this record_ :
  Relationship.type this = Relationship.manyToMany ->
  wf (Relationship.records (Relationship.from this)) ->
  Forall (fun e => key_list_or_empty (Relationship.name this) (snd e))
         (RecordSet.entries (Relationship.records (Relationship.from this))) ->
  Relationship.getAssociatedRecordsReverse this record_
  = Ok (Relationship.Many
          (RecordSet.mk
             (List.filter (fun e => holds_key (Relationship.name this) (rid record_) (snd e))
                          (RecordSet.entries (Relationship.records (Relationship.from this))))
             (RecordSet.scopes (Relationship.records (Relationship.from this))))).
Proof.
  intros Htype Hwf Hall. unfold Relationship.getAssociatedRecordsReverse.
  rewrite Htype. simpl. unfold Relationship.where_.
  rewrite (where_loop_total _ (holds_key (Relationship.name this) (rid record_))).
  - simpl. rewrite (new_eq [] _) by (trivial; constructor).
    rewrite filter_fold by (simpl; apply Hwf). reflexivity.
  - eapply Forall_impl; [exact Hall |]. intros e He. simpl in He.
    unfold key_list_or_empty in He. unfold holds_key.
    destruct (RecordSet.record_get e.2 (Relationship.name this)) as [[| | | |]|xs|];
      simpl; try reflexivity; contradiction.
Qed.
End Reverse.

(** C5, where the code departs from it: in a one-to-one relationship the
    passport of person 2 exists (passport 1 has [owner] 2, the key of
    Bob), and resolving the receiving side [passport] on Bob gives
    [undefined], not that passport. *)
Theorem reverse_oneToOne_finds_nothing :
  RecordSet.record_get (Examples.passport 1 (PNum 2)) "owner" = VPrim (rid Examples.bob) /\
  (PNum 1, Examples.passport 1 (PNum 2))
    ∈ RecordSet.entries (Relationship.records Examples.Passport) /\
  Relationship.get Examples.passport_of "Person" "passport" Examples.bob
  = Ok Relationship.Undefined.
Proof. split; [reflexivity | split; [left | reflexivity]]. Qed.

(** The to-many receiving side, which reads the foreign-key field: person
    1 lists person 2 among its friends, and resolving [friendOf] on person
    2 gives the set of the records that list 2, person 1 among them. *)
Example reverse_manyToMany_round_trip :
  match Relationship.get Examples.friends "Friend" "friendOf"
                         (Examples.friend 2 (VPrim PNull)) with
  | Ok (Relationship.Many D) =>
      RecordSet.ids D = [PNum 1; PNum 3] /\
      RecordSet.get (PNum 1) D = Some (Examples.friend 1 (VArr [PNum 2; PNum 3]))
  | _ => False
  end.
Proof. split; reflexivity. Qed.

(** ** Well-formedness is kept by every call *)

Section Invariant.
Context {R : Type} (id_of : R -> prim).
Implicit Types (this : RecordSet.t R).

Lemma Forall_Map_set {V} (P : string * V -> Prop) (k : string) (v : V) (m : list (string * V)) :
  Forall P m -> P (k, v) -> Forall P (Map_set k v m).
Proof.
  intros Hm Hkv. induction m as [|[k' v'] m IH]; simpl.
  - now repeat constructor.
  - apply Forall_cons in Hm as [Hhd Htl].
    destruct (decide (k = k')) as [->|Hne]; constructor; auto.
Qed.

Lemma wf_addScope name scope_ sortFn this :
  wf this -> wf (snd (RecordSet.addScope name scope_ sortFn this)).
Proof.
  intros Hwf. unfold RecordSet.addScope.
  destruct (RecordSet.validateProperty "Scope" name scope_ (RecordSet.scopes this))
    as [matcher|]; [| exact Hwf].
  destruct (truthy_arg sortFn) eqn:Htruthy.
  - destruct sortFn as [c | v]; simpl; [| exact Hwf].
    destruct (RecordSet.property_truthy name this) as [inUse|]; [| exact Hwf].
    destruct (inUse || RecordSet.mem name RecordSet.prototype_names); [exact Hwf |].
    destruct Hwf as (Hids & Hsc & Hc). repeat split; simpl; trivial.
    + now apply Map_set_NoDup.
    + apply Forall_Map_set; [exact Hc | intros _; reflexivity].
  - destruct (RecordSet.property_truthy name this) as [inUse|]; [| exact Hwf].
    destruct (inUse || RecordSet.mem name RecordSet.prototype_names); [exact Hwf |].
    destruct Hwf as (Hids & Hsc & Hc). repeat split; simpl; trivial.
    + now apply Map_set_NoDup.
    + apply Forall_Map_set; [exact Hc |]. simpl. intros Ht. congruence.
Qed.

Lemma wf_append (records_ : list R) this :
  wf this -> wf (RecordSet.append id_of records_ this).
Proof.
  intros Hwf. unfold RecordSet.append.
  assert (Hacc : wf (RecordSet.new (RecordSet.entries this) (Some this))) by now apply wf_new.
  revert Hacc. generalize (RecordSet.new (RecordSet.entries this) (Some this)).
  induction records_ as [|r rs IH]; intros acc Hacc; simpl; [exact Hacc |].
  apply IH. now apply wf_set'.
Qed.

Lemma wf_apply (m : Store.mutation) this : wf this -> wf (snd (Store.apply m this)).
Proof.
  intros Hwf. destruct m; simpl; trivial.
  - now apply wf_set'.
  - now apply wf_delete'.
  - destruct Hwf as (_ & Hsc & Hc). repeat split; trivial. constructor.
  - now apply wf_addScope.
Qed.

Lemma wf_derive (h : gmap Store.ref (RecordSet.t R)) (op : Store.derivation) this D :
  wf this -> Store.derive id_of h op this = Ok D -> wf D.
Proof.
  intros Hwf. destruct op; simpl; try (intros [= <-]; now apply wf_new).
  - intros [= <-]. rewrite filter_eq by exact Hwf.
    apply wf_mk; [| exact Hwf]. apply NoDup_keys_filter, Hwf.
  - destruct (mapM (fun r => h !! r) recordSets) as [sets|]; [| discriminate].
    unfold RecordSet.merge.
    destruct (RecordSet.merge_loop sets (Map_new (RecordSet.entries this))) as [res|];
      [| discriminate].
    intros [= <-]. now apply wf_new.
  - intros [= <-]. now apply wf_append.
Qed.

(** A derivation copies the scope table of the set it is called on. *)
Lemma derive_scopes (h : gmap Store.ref (RecordSet.t R)) (op : Store.derivation) this D :
  wf this -> Store.derive id_of h op this = Ok D ->
  RecordSet.scopes D = RecordSet.scopes this.
Proof.
  intros Hwf HD. destruct op; simpl in HD;
    try (injection HD as <-; apply new_scopes, Hwf).
  - injection HD as <-. now rewrite filter_eq.
  - destruct (mapM (fun r => h !! r) recordSets) as [sets|]; [| discriminate].
    unfold RecordSet.merge in HD.
    destruct (RecordSet.merge_loop sets (Map_new (RecordSet.entries this))) as [res|];
      [| discriminate].
    injection HD as <-. apply new_scopes, Hwf.
  - injection HD as <-. unfold RecordSet.append.
    assert (Hfold : forall acc : RecordSet.t R,
               RecordSet.scopes
                 (fold_left (fun res r => RecordSet.set' (id_of r) r res) records_ acc)
               = RecordSet.scopes acc).
    { induction records_ as [|r rs IH]; intros acc; simpl; [reflexivity | now rewrite IH]. }
    rewrite Hfold. apply new_scopes, Hwf.
Qed.
End Invariant.

(** ** Derived sets are snapshots of the collection *)

(** [duplicate()] copies the collection, not the records: the new set
    maps the same keys to the same records, in the same order. *)
Lemma duplicate_eq {R} (this : RecordSet.t R) :
  wf this ->
  RecordSet.duplicate this = RecordSet.mk (RecordSet.entries this) (RecordSet.scopes this).
Proof. intros Hwf. apply new_eq; [apply Hwf | exact Hwf]. Qed.

(** No derivation makes a record: the set it returns holds records of
    the set it was called on, of the sets it was given to merge, or the
    records it was given to append. *)
Section Sharing.
Context {R : Type} (id_of : R -> prim).
Implicit Types (this : RecordSet.t R) (e : RecordSet.entry R)
         (es : list (RecordSet.entry R)).

Lemma elem_of_Map_set (k : prim) (v : R) es e :
  e ∈ Map_set k v es -> e ∈ es \/ e = (k, v).
Proof.
  induction es as [|[k' v'] es IH]; simpl.
  - intros Hin. apply list_elem_of_singleton in Hin. now right.
  - destruct (decide (k = k')) as [->|Hne]; rewrite !elem_of_cons.
    + intros [-> | Hin]; [now right | left; now right].
    + intros [-> | Hin]; [left; now left |].
      destruct (IH Hin) as [H | H]; [left; now right | now right].
Qed.

Lemma elem_of_Map_set_all (it : list (RecordSet.entry R)) es e :
  e ∈ Map_set_all it es -> e ∈ es \/ e ∈ it.
Proof.
  revert es. induction it as [|[k v] it IH]; simpl; intros es Hin; [now left |].
  destruct (IH _ Hin) as [H | H]; [| right; now right].
  apply elem_of_Map_set in H as [H | ->]; [now left | right; left].
Qed.

Lemma elem_of_new (it : list (RecordSet.entry R)) o e :
  e ∈ RecordSet.entries (RecordSet.new it o) -> e ∈ it.
Proof.
  simpl. intros Hin. apply elem_of_Map_set_all in Hin as [Hin | Hin]; [inversion Hin | exact Hin].
Qed.

Lemma elem_of_filter_fold (f : RecordSet.callback R) this es (acc : RecordSet.t R) e :
  e ∈ RecordSet.entries
        (fold_left (fun newMap e' =>
                      if RecordSet.call f this e'
                      then RecordSet.set' (fst e') (snd e') newMap else newMap) es acc) ->
  e ∈ RecordSet.entries acc \/ e ∈ es.
Proof.
  revert acc. induction es as [|[k v] es IH]; simpl; intros acc Hin; [now left |].
  destruct (IH _ Hin) as [H | H]; [| right; now right].
  destruct (RecordSet.call f this (k, v)); [| now left].
  simpl in H. apply elem_of_Map_set in H as [H | ->]; [now left | right; left].
Qed.

Lemma elem_of_only_fold ids this (itr : list (RecordSet.entry R)) e :
  e ∈ fold_left (fun itr id =>
                   if RecordSet.has id this
                   then match RecordSet.get id this with
                        | Some v => itr ++ [(id, v)]
                        | None => itr
                        end
                   else itr) ids itr ->
  e ∈ itr \/ e ∈ RecordSet.entries this.
Proof.
  revert itr. induction ids as [|id ids IH]; simpl; intros itr Hin; [now left |].
  destruct (IH _ Hin) as [H | H]; [| now right].
  destruct (RecordSet.has id this); [| now left].
  destruct (RecordSet.get id this) as [v|] eqn:Hget; [| now left].
  apply elem_of_app in H as [H | H]; [now left |].
  apply list_elem_of_singleton in H as ->. right. now apply Map_get_elem.
Qed.

Lemma elem_of_limit_loop (n : Z) es (records_ : list (RecordSet.entry R)) e :
  e ∈ RecordSet.limit_loop n es records_ -> e ∈ records_ \/ e ∈ es.
Proof.
  revert records_. induction es as [|e' es IH]; simpl; intros records_ Hin; [now left |].
  assert (Hstep : e ∈ records_ ++ [e'] -> e ∈ records_ \/ e ∈ e' :: es).
  { rewrite elem_of_app, list_elem_of_singleton, elem_of_cons. tauto. }
  destruct (Z.of_nat (length (records_ ++ [e'])) =? n); [now apply Hstep |].
  destruct (IH _ Hin) as [H | H]; [now apply Hstep | right; now right].
Qed.

Lemma elem_of_offset_loop (n : Z) es (counter : Z) (records_ : list (RecordSet.entry R)) e :
  e ∈ RecordSet.offset_loop n es counter records_ -> e ∈ records_ \/ e ∈ es.
Proof.
  revert counter records_. induction es as [|e' es IH]; simpl; intros counter records_ Hin;
    [now left |].
  destruct (counter <? n).
  - destruct (IH _ _ Hin) as [H | H]; [now left | right; now right].
  - destruct (IH _ _ Hin) as [H | H]; [| right; now right].
    apply elem_of_app in H as [H | H]; [now left |].
    apply list_elem_of_singleton in H as ->. right. left.
Qed.

Lemma elem_of_merge_entries es (res res' : list (RecordSet.entry R)) e :
  RecordSet.merge_entries es res = Ok res' -> e ∈ res' -> e ∈ res \/ e ∈ es.
Proof.
  revert res. induction es as [|[k v] es IH]; simpl; intros res Hres Hin.
  - injection Hres as <-. now left.
  - destruct (Map_has k res); [discriminate |].
    destruct (IH _ Hres Hin) as [H | H]; [| right; now right].
    apply elem_of_Map_set in H as [H | ->]; [now left | right; left].
Qed.

Lemma elem_of_append_fold (records_ : list R) (acc : RecordSet.t R) e :
  e ∈ RecordSet.entries
        (fold_left (fun res r => RecordSet.set' (id_of r) r res) records_ acc) ->
  e ∈ RecordSet.entries acc \/ exists r, r ∈ records_ /\ e = (id_of r, r).
Proof.
  revert acc. induction records_ as [|r rs IH]; simpl; intros acc Hin; [now left |].
  destruct (IH _ Hin) as [H | (r' & Hr' & ->)].
  - simpl in H. apply elem_of_Map_set in H as [H | ->]; [now left |].
    right. exists r. split; [left | reflexivity].
  - right. exists r'. split; [now right | reflexivity].
Qed.

Lemma derive_shares_records (h : gmap Store.ref (RecordSet.t R)) (op : Store.derivation)
      this D e :
  Store.derive id_of h op this = Ok D ->
  e ∈ RecordSet.entries D ->
  e ∈ RecordSet.entries this \/
  (exists rs s T, op = Store.Merge rs /\ s ∈ rs /\ h !! s = Some T /\
                  e ∈ RecordSet.entries T) \/
  (exists rs r, op = Store.Append rs /\ r ∈ rs /\ e = (id_of r, r)).
Proof.
  intros HD Hin. destruct op; simpl in HD.
  - injection HD as <-. left. unfold RecordSet.filter in Hin.
    apply elem_of_filter_fold in Hin as [Hin | Hin]; [| exact Hin].
    apply elem_of_new in Hin. inversion Hin.
  - injection HD as <-. left. apply elem_of_new in Hin.
    now rewrite Array_sort_Permutation in Hin.
  - injection HD as <-. left. now apply elem_of_new in Hin.
  - destruct (mapM (fun r => h !! r) recordSets) as [sets|] eqn:Hsets; [| discriminate].
    unfold RecordSet.merge in HD. rewrite merge_loop_flat in HD.
    destruct (RecordSet.merge_entries (concat (RecordSet.entries <$> sets))
                                      (Map_new (RecordSet.entries this)))
      as [res|] eqn:Hres; [| discriminate].
    injection HD as <-. apply elem_of_new in Hin.
    apply (elem_of_merge_entries _ _ _ _ Hres) in Hin as [Hin | Hin].
    + left. unfold Map_new in Hin.
      apply elem_of_Map_set_all in Hin as [Hin | Hin]; [inversion Hin | exact Hin].
    + right. left. apply list_elem_of_In, in_concat in Hin as (es & Hes & Hin).
      apply list_elem_of_In in Hes, Hin.
      apply list_elem_of_fmap in Hes as (T & -> & HT).
      apply mapM_Some_1 in Hsets.
      apply list_elem_of_lookup in HT as (i & Hi).
      destruct (Forall2_lookup_r _ _ _ _ _ Hsets Hi) as (s & Hs & HsT).
      exists recordSets, s, T. repeat split; trivial.
      apply list_elem_of_lookup. eauto.
  - injection HD as <-. unfold RecordSet.append in Hin.
    apply elem_of_append_fold in Hin as [Hin | (r & Hr & ->)].
    + left. now apply elem_of_new in Hin.
    + right. right. eauto.
  - injection HD as <-. left. apply elem_of_new in Hin.
    apply elem_of_only_fold in Hin as [Hin | Hin]; [inversion Hin | exact Hin].
  - injection HD as <-. left. apply elem_of_new in Hin.
    apply list_elem_of_In, List.filter_In in Hin as [Hin _]. now apply list_elem_of_In.
  - injection HD as <-. left. apply elem_of_new in Hin. unfold Array_slice in Hin.
    now apply subseteq_take, subseteq_drop in Hin.
  - injection HD as <-. left. apply elem_of_new in Hin.
    apply elem_of_limit_loop in Hin as [Hin | Hin]; [inversion Hin | exact Hin].
  - injection HD as <-. left. apply elem_of_new in Hin.
    apply elem_of_offset_loop in Hin as [Hin | Hin]; [inversion Hin | exact Hin].
Qed.
End Sharing.

Section Snapshot.
Variable Record_set : record -> string -> value -> result record.
Implicit Types (st : Model.world) (ws : list Model.write) (recs : Store.recstore).

(** A call on the model writes no record set but its live one. *)
Lemma step_frame live w st d :
  d <> live -> Model.sets (Model.step Record_set live w st) !! d = Model.sets st !! d.
Proof.
  intros Hne. destruct w as [m | recordId record_]; simpl.
  - now apply mutate_frame.
  - now destruct (Model.sets st !! live).
Qed.

Lemma run_frame live ws st d :
  d <> live -> Model.sets (Model.run Record_set live ws st) !! d = Model.sets st !! d.
Proof.
  intros Hne. revert st. induction ws as [|w ws IH]; intros st; [reflexivity |].
  unfold Model.run in *. simpl. rewrite IH. now apply step_frame.
Qed.

(** The calls on the record set write no record. *)
Lemma run_without_updates live ws st :
  Forall (fun w => Model.is_update w = false) ws ->
  Model.recs (Model.run Record_set live ws st) = Model.recs st.
Proof.
  intros Hall. revert st. induction Hall as [|w ws Hw _ IH]; intros st; [reflexivity |].
  unfold Model.run in *. simpl. rewrite IH.
  destruct w as [m | recordId record_]; [reflexivity | discriminate].
Qed.

(** An update writes the record the live set holds under the key, and
    no other record. *)
Lemma assign_fields_frame props oldRecord recs r :
  r <> oldRecord ->
  snd (Model.assign_fields Record_set props oldRecord recs) !! r = recs !! r.
Proof.
  intros Hne. revert recs. induction props as [|[fieldName fieldValue] props IH];
    intros recs; simpl; [reflexivity |].
  destruct (recs !! oldRecord) as [x|]; [| reflexivity].
  destruct (Record_set x fieldName fieldValue) as [x'|e]; [| reflexivity].
  rewrite IH. now apply lookup_insert_ne.
Qed.

Lemma updateRecord_frame recordId record_ (records_ : RecordSet.t Store.recref) recs r :
  RecordSet.get recordId records_ <> Some r ->
  snd (Model.updateRecord Record_set recordId record_ records_ recs) !! r = recs !! r.
Proof.
  intros Hget. unfold Model.updateRecord.
  destruct record_ as [props | |]; try reflexivity;
    destruct (RecordSet.has recordId records_); simpl; try reflexivity;
    destruct (RecordSet.get recordId records_) as [oldRecord|]; try reflexivity.
  destruct (Model.assign_fields Record_set props oldRecord recs) as [outcome recs'] eqn:Hassign.
  simpl. change recs' with (snd (outcome, recs')). rewrite <- Hassign.
  apply assign_fields_frame. congruence.
Qed.
End Snapshot.




(** ** The scenarios of the specification *)

(** A five-entry set: [limit(2)] gives the first two entries, [offset(2)]
    the other three, [slice(1, 3)] those at positions 1 and 2. *)
Example positions :
  let five : RecordSet.t Z :=
    RecordSet.new [(PStr "a", 1); (PStr "b", 2); (PStr "c", 3); (PStr "d", 4); (PStr "e", 5)]
                  None in
  RecordSet.ids (RecordSet.limit 2 five) = [PStr "a"; PStr "b"] /\
  RecordSet.ids (RecordSet.offset 2 five) = [PStr "c"; PStr "d"; PStr "e"] /\
  RecordSet.ids (RecordSet.slice (Some 1) (Some 3) five) = [PStr "b"; PStr "c"] /\
  RecordSet.ids (RecordSet.only [PStr "d"; PStr "z"; PStr "a"] five) = [PStr "d"; PStr "a"] /\
  RecordSet.ids (RecordSet.except [PStr "d"; PStr "a"] five) = [PStr "b"; PStr "c"; PStr "e"].
Proof. repeat split. Qed.

(** [groupBy('status')] over [open, open, closed]: two partitions, of
    sizes 2 and 1, each with the scopes of the set. *)
Example groupBy_status :
  match RecordSet.groupBy "status" Examples.people with
  | Ok res =>
      (RecordSet.size <$> res !! "open") = Some 2 /\
      (RecordSet.size <$> res !! "closed") = Some 1 /\
      (RecordSet.scopes <$> res !! "open") = Some (RecordSet.scopes Examples.people) /\
      (RecordSet.scopes <$> res !! "closed") = Some (RecordSet.scopes Examples.people) /\
      size res = 2%nat
  | Throw _ => False
  end.
Proof. repeat split. Qed.

(** Friends: person 1 lists 2 and 3, person 3 lists 2; the forward side
    of person 3 resolves to person 2. *)
Example friends_forward :
  match Relationship.get Examples.friends "Friend" "friends"
                         (Examples.friend 3 (VArr [PNum 2])) with
  | Ok (Relationship.Many D) => RecordSet.ids D = [PNum 2]
  | _ => False
  end.
Proof. reflexivity. Qed.

(** * Further properties of the code *)

(** ** limit, offset and slice: positions in insertion order *)

Section Positions.
Context {R : Type}.
Implicit Types (this : RecordSet.t R) (es : list (RecordSet.entry R)).

Lemma NoDup_keys_take (n : nat) es : NoDup (keys es) -> NoDup (keys (take n es)).
Proof.
  intros Hnd. unfold keys. rewrite fmap_take.
  eapply sublist_NoDup; [exact Hnd | apply sublist_take].
Qed.

Lemma NoDup_keys_drop (n : nat) es : NoDup (keys es) -> NoDup (keys (drop n es)).
Proof.
  intros Hnd. unfold keys. rewrite fmap_drop.
  eapply sublist_NoDup; [exact Hnd | apply sublist_drop].
Qed.

Lemma limit_loop_positive (n : Z) es (records_ : list (RecordSet.entry R)) :
  Z.of_nat (length records_) < n ->
  RecordSet.limit_loop n es records_
  = records_ ++ take (Z.to_nat n - length records_) es.
Proof.
  revert records_. induction es as [|e es IH]; intros records_ Hlen; simpl.
  - now rewrite take_nil, app_nil_r.
  - assert (Hlen' : Z.of_nat (length (records_ ++ [e])) = Z.of_nat (length records_) + 1).
    { rewrite length_app. simpl. lia. }
    destruct (Z.of_nat (length (records_ ++ [e])) =? n) eqn:Hfull.
    + apply Z.eqb_eq in Hfull.
      replace (Z.to_nat n - length records_)%nat with 1%nat by lia.
      simpl. now rewrite take_0.
    + apply Z.eqb_neq in Hfull. rewrite IH by lia.
      rewrite <- app_assoc. simpl. f_equal.
      replace (Z.to_nat n - length records_)%nat
        with (S (Z.to_nat n - length (records_ ++ [e])))%nat
        by (rewrite length_app; simpl; lia).
      reflexivity.
Qed.

Lemma offset_loop_drop (n : Z) es (counter : Z) (records_ : list (RecordSet.entry R)) :
  0 <= counter ->
  RecordSet.offset_loop n es counter records_
  = records_ ++ drop (Z.to_nat (n - counter)) es.
Proof.
  revert counter records_. induction es as [|e es IH]; intros counter records_ Hc; simpl.
  - now rewrite drop_nil, app_nil_r.
  - destruct (counter <? n) eqn:Hlt.
    + apply Z.ltb_lt in Hlt. rewrite IH by lia.
      replace (Z.to_nat (n - counter)) with (S (Z.to_nat (n - (counter + 1)))) by lia.
      reflexivity.
    + apply Z.ltb_ge in Hlt. rewrite IH by lia.
      replace (Z.to_nat (n - counter)) with 0%nat by lia.
      simpl. now rewrite <- app_assoc.
Qed.

Lemma limit_eq (n : Z) this :
  wf this -> 1 <= n ->
  RecordSet.limit n this
  = RecordSet.mk (take (Z.to_nat n) (RecordSet.entries this)) (RecordSet.scopes this).
Proof.
  intros Hwf Hn. unfold RecordSet.limit. rewrite limit_loop_positive by (simpl; lia).
  simpl. rewrite Nat.sub_0_r.
  apply new_eq; [apply NoDup_keys_take, Hwf | exact Hwf].
Qed.

Lemma offset_eq (n : Z) this :
  wf this ->
  RecordSet.offset n this
  = RecordSet.mk (drop (Z.to_nat n) (RecordSet.entries this)) (RecordSet.scopes this).
Proof.
  intros Hwf. unfold RecordSet.offset. rewrite offset_loop_drop by lia.
  simpl. rewrite Z.sub_0_r.
  apply new_eq; [apply NoDup_keys_drop, Hwf | exact Hwf].
Qed.
End Positions.

(** X1: for [n >= 1], [limit(n)] is the first [n] entries in insertion
    order, all of them when the set has fewer, with the scopes of the
    set; its size is [min(n, size)]. *)
Theorem limit_takes_first {R} (n : Z) (this : RecordSet.t R) :
  wf this -> 1 <= n ->
  RecordSet.limit n this
  = RecordSet.mk (take (Z.to_nat n) (RecordSet.entries this)) (RecordSet.scopes this) /\
  RecordSet.size (RecordSet.limit n this) = Z.min n (RecordSet.size this).
Proof.
  intros Hwf Hn. pose proof (limit_eq n this Hwf Hn) as Heq.
  split; [exact Heq |]. rewrite Heq. unfold RecordSet.size. simpl.
  rewrite length_take. lia.
Qed.

Lemma limit_takes_first_witness :
  RecordSet.ids (RecordSet.limit 2 Examples.people) = [PNum 1; PNum 2] /\
  RecordSet.size (RecordSet.limit 5 Examples.people) = 3.
Proof.
  split.
  - destruct (limit_takes_first 2 Examples.people wf_people) as [-> _]; [lia | reflexivity].
  - destruct (limit_takes_first 5 Examples.people wf_people) as [_ ->]; [lia | reflexivity].
Defined.

(** X2: [offset(n)] is the set without its first [n] entries: everything
    for [n <= 0], nothing once [n] reaches the size.  For [n >= 1],
    [limit(n)] and [offset(n)] cut the set in two: their entries, one
    after the other, are the entries of the set. *)
Theorem offset_drops_first {R} (n : Z) (this : RecordSet.t R) :
  wf this ->
  RecordSet.offset n this
  = RecordSet.mk (drop (Z.to_nat n) (RecordSet.entries this)) (RecordSet.scopes this) /\
  (n <= 0 -> RecordSet.entries (RecordSet.offset n this) = RecordSet.entries this) /\
  (RecordSet.size this <= n -> RecordSet.entries (RecordSet.offset n this) = []) /\
  (1 <= n ->
   RecordSet.entries (RecordSet.limit n this) ++ RecordSet.entries (RecordSet.offset n this)
   = RecordSet.entries this).
Proof.
  intros Hwf. pose proof (offset_eq n this Hwf) as Heq.
  split; [exact Heq |]. rewrite Heq. cbn [RecordSet.entries]. split; [| split].
  - intros Hn. replace (Z.to_nat n) with 0%nat by lia. apply drop_0.
  - unfold RecordSet.size. intros Hn. apply drop_ge. lia.
  - intros Hn. rewrite (limit_eq n this Hwf Hn).
    cbn [RecordSet.entries]. apply firstn_skipn.
Qed.

Lemma offset_drops_first_witness :
  RecordSet.ids (RecordSet.offset 1 Examples.people) = [PNum 2; PNum 3].
Proof.
  destruct (offset_drops_first 1 Examples.people wf_people) as [-> _]. reflexivity.
Defined.

Section Slices.
Context {A : Type}.
Implicit Types (l : list A).

Lemma Array_slice_from (n : Z) l :
  0 <= n -> Array_slice (Some n) None l = drop (Z.to_nat n) l.
Proof.
  intros Hn. unfold Array_slice, relative_index. simpl.
  replace (n <? 0) with false by (symmetry; apply Z.ltb_ge; lia).
  replace (Z.of_nat (length l) <? 0) with false by (symmetry; apply Z.ltb_ge; lia).
  rewrite Z.min_id.
  destruct (Z.le_ge_cases n (Z.of_nat (length l))).
  - rewrite Z.min_l by lia. apply take_ge. rewrite length_drop. lia.
  - rewrite Z.min_r by lia. rewrite !drop_ge by lia. apply take_nil.
Qed.

Lemma Array_slice_to (n : Z) l :
  0 <= n -> Array_slice (Some 0) (Some n) l = take (Z.to_nat n) l.
Proof.
  intros Hn. unfold Array_slice, relative_index. simpl.
  replace (n <? 0) with false by (symmetry; apply Z.ltb_ge; lia).
  replace (Z.min 0 (Z.of_nat (length l))) with 0 by lia.
  rewrite Z.sub_0_r. change (Z.to_nat 0) with 0%nat. rewrite drop_0.
  destruct (Z.le_ge_cases n (Z.of_nat (length l))).
  - now rewrite Z.min_l.
  - rewrite Z.min_r by lia. rewrite !take_ge by lia. reflexivity.
Qed.

Lemma Array_slice_last (n : Z) l :
  1 <= n <= Z.of_nat (length l) ->
  Array_slice (Some (- n)) None l = drop (length l - Z.to_nat n) l.
Proof.
  intros Hn. unfold Array_slice, relative_index. simpl.
  replace (- n <? 0) with true by (symmetry; apply Z.ltb_lt; lia).
  replace (Z.of_nat (length l) <? 0) with false by (symmetry; apply Z.ltb_ge; lia).
  rewrite Z.min_id.
  replace (Z.max (Z.of_nat (length l) + - n) 0) with (Z.of_nat (length l) - n) by lia.
  replace (Z.to_nat (Z.of_nat (length l) - n)) with (length l - Z.to_nat n)%nat by lia.
  apply take_ge. rewrite length_drop. lia.
Qed.
End Slices.

(** X3: [slice] agrees with the other two on their common ground:
    [slice(n)], the end left out, is [offset(n)] for [n >= 0];
    [slice(0, n)] is [limit(n)] for [n >= 1], while for [n = 0] it is
    empty and [limit(0)] is not; a negative start counts from the end. *)
Theorem slice_meets_limit_offset {R} (n : Z) (this : RecordSet.t R) :
  wf this ->
  (0 <= n -> RecordSet.slice (Some n) None this = RecordSet.offset n this) /\
  (1 <= n -> RecordSet.slice (Some 0) (Some n) this = RecordSet.limit n this) /\
  RecordSet.entries (RecordSet.slice (Some 0) (Some 0) this) = [] /\
  (1 <= n <= RecordSet.size this ->
   RecordSet.entries (RecordSet.slice (Some (- n)) None this)
   = drop (length (RecordSet.entries this) - Z.to_nat n) (RecordSet.entries this)).
Proof.
  intros Hwf. unfold RecordSet.slice.
  split; [| split; [| split]].
  - intros Hn. rewrite (offset_eq n this Hwf).
    rewrite Array_slice_from by exact Hn.
    apply new_eq; [apply NoDup_keys_drop, Hwf | exact Hwf].
  - intros Hn. rewrite (limit_eq n this Hwf Hn).
    rewrite Array_slice_to by lia.
    apply new_eq; [apply NoDup_keys_take, Hwf | exact Hwf].
  - rewrite Array_slice_to by lia. reflexivity.
  - intros Hn. rewrite Array_slice_last by exact Hn.
    apply new_entries, NoDup_keys_drop, Hwf.
Qed.

Lemma slice_meets_limit_offset_witness :
  RecordSet.ids (RecordSet.slice (Some 1) None Examples.people) = [PNum 2; PNum 3] /\
  RecordSet.ids (RecordSet.slice (Some (-1)) None Examples.people) = [PNum 3].
Proof.
  destruct (slice_meets_limit_offset 1 Examples.people wf_people) as (Hoff & _ & _ & Hneg).
  split.
  - rewrite Hoff by lia. reflexivity.
  - assert (Hrange : 1 <= 1 <= RecordSet.size Examples.people)
      by (unfold RecordSet.size; simpl; lia).
    exact (f_equal keys (Hneg Hrange)).
Defined.

(** ** only and except: selection by key *)

Section Selection.
Context {R : Type}.
Implicit Types (this : RecordSet.t R) (es : list (RecordSet.entry R)) (ids : list prim).

Lemma Array_includes_true (x : prim) (l : list prim) : Array_includes x l = true <-> x ∈ l.
Proof.
  unfold Array_includes. rewrite existsb_exists. split.
  - intros (y & Hy & Heq). apply bool_decide_eq_true in Heq. subst y.
    now apply list_elem_of_In.
  - intros Hin. exists x. split; [now apply list_elem_of_In | now apply bool_decide_eq_true].
Qed.

Lemma Map_get_filter_keys (q : prim -> bool) (k : prim) es :
  Map_get k (List.filter (fun e => q (fst e)) es) = if q k then Map_get k es else None.
Proof.
  induction es as [|[k' v] es IH]; simpl; [now destruct (q k) |].
  destruct (q k') eqn:Hq'; simpl.
  - destruct (decide (k = k')) as [->|Hne]; [now rewrite Hq' | exact IH].
  - rewrite IH. destruct (decide (k = k')) as [->|Hne]; [now rewrite Hq' | reflexivity].
Qed.

(** In a [Map] filled from a list, a key maps to its last value in the list. *)
Lemma Map_get_set_all (k : prim) (it m : list (RecordSet.entry R)) :
  Map_get k (Map_set_all it m)
  = match Map_get k (reverse it) with
    | Some v => Some v
    | None => Map_get k m
    end.
Proof.
  revert m. induction it as [|[k' v'] it IH]; intros m; [reflexivity |].
  unfold Map_set_all in *. simpl fold_left. rewrite IH. rewrite reverse_cons.
  assert (Happ : forall (l : list (RecordSet.entry R)),
             Map_get k (l ++ [(k', v')])
             = match Map_get k l with
               | Some v => Some v
               | None => if decide (k = k') then Some v' else None
               end).
  { intros l. induction l as [|[k2 v2] l IHl]; simpl; [reflexivity |].
    destruct (decide (k = k2)); [reflexivity | exact IHl]. }
  rewrite Happ. destruct (Map_get k (reverse it)) as [v|]; [reflexivity |].
  simpl. destruct (decide (k = k')) as [->|Hne].
  - apply Map_get_set_eq.
  - now apply Map_get_set_ne.
Qed.

(** The array [only] hands to the constructor *)
Lemma only_fold ids this (itr : list (RecordSet.entry R)) :
  fold_left (fun itr id =>
               if RecordSet.has id this
               then match RecordSet.get id this with
                    | Some v => itr ++ [(id, v)]
                    | None => itr
                    end
               else itr) ids itr
  = itr ++ omap (fun id => (fun v => (id, v)) <$> RecordSet.get id this) ids.
Proof.
  revert itr. induction ids as [|id ids IH]; intros itr; simpl.
  - now rewrite app_nil_r.
  - rewrite IH. unfold RecordSet.has, RecordSet.get.
    destruct (Map_get id (RecordSet.entries this)) as [v|] eqn:Hget; simpl.
    + assert (Hhas : Map_has id (RecordSet.entries this) = true).
      { apply Map_has_true. destruct (Map_has id (RecordSet.entries this)) eqn:Hh.
        - now apply Map_has_true.
        - apply Map_has_false, Map_get_None in Hh. congruence. }
      rewrite Hhas. now rewrite <- app_assoc.
    + now destruct (Map_has id (RecordSet.entries this)).
Qed.

Lemma only_found_elem ids this k v :
  (k, v) ∈ omap (fun id => (fun v => (id, v)) <$> RecordSet.get id this) ids <->
  k ∈ ids /\ RecordSet.get k this = Some v.
Proof.
  rewrite list_elem_of_omap. split.
  - intros (id & Hid & Heq). destruct (RecordSet.get id this) as [w|] eqn:Hget;
      simpl in Heq; [| discriminate].
    injection Heq as <- <-. now split.
  - intros [Hin Hget]. exists k. split; [exact Hin |]. now rewrite Hget.
Qed.

Lemma only_found_keys ids this :
  keys (omap (fun id => (fun v => (id, v)) <$> RecordSet.get id this) ids)
  = List.filter (fun id => RecordSet.has id this) ids.
Proof.
  unfold RecordSet.has, RecordSet.get.
  induction ids as [|id ids IH]; simpl; [reflexivity |].
  destruct (Map_get id (RecordSet.entries this)) as [v|] eqn:Hget; simpl.
  - replace (Map_has id (RecordSet.entries this)) with true.
    + unfold keys in *. simpl. f_equal. exact IH.
    + symmetry. destruct (Map_has id (RecordSet.entries this)) eqn:Hh; [reflexivity |].
      apply Map_has_false, Map_get_None in Hh. congruence.
  - replace (Map_has id (RecordSet.entries this)) with false; [exact IH |].
    symmetry. apply Map_has_false, Map_get_None, Hget.
Qed.

Lemma only_get ids this k :
  RecordSet.get k (RecordSet.only ids this)
  = if decide (k ∈ ids) then RecordSet.get k this else None.
Proof.
  unfold RecordSet.only. rewrite (only_fold ids this []). simpl app.
  unfold RecordSet.get at 1. simpl. rewrite Map_get_set_all. simpl.
  set (found := omap (fun id => (fun v => (id, v)) <$> RecordSet.get id this) ids).
  destruct (Map_get k (reverse found)) as [v|] eqn:Hget.
  - apply Map_get_elem in Hget. rewrite elem_of_reverse in Hget.
    apply only_found_elem in Hget as [Hin Hk]. now rewrite decide_True.
  - destruct (decide (k ∈ ids)) as [Hin|]; [| reflexivity].
    destruct (RecordSet.get k this) as [v|] eqn:Hk; [| reflexivity].
    exfalso. apply Map_get_None in Hget. apply Hget.
    unfold keys. rewrite fmap_reverse, elem_of_reverse.
    change k with (fst (k, v)). apply list_elem_of_fmap_2.
    now apply only_found_elem.
Qed.

Lemma length_filter_split {A} (p : A -> bool) (l : list A) :
  (length (List.filter p l) + length (List.filter (fun x => negb (p x)) l) = length l)%nat.
Proof. induction l as [|x l IH]; simpl; [reflexivity |]. destruct (p x); simpl; lia. Qed.

Lemma NoDup_of_keys es : NoDup (keys es) -> NoDup es.
Proof. apply NoDup_fmap_1. Qed.

Lemma elem_of_entries_get this k v :
  NoDup (RecordSet.ids this) ->
  (k, v) ∈ RecordSet.entries this <-> RecordSet.get k this = Some v.
Proof. intros Hnd. split; [now apply Map_get_NoDup | apply Map_get_elem]. Qed.
End Selection.

(** X4: [only(...ids)] keeps the records whose key is among [ids] and
    nothing else, each as it is in the set; keys that are not in the set
    are passed over without an error.  The order is that of the
    arguments, not that of the set. *)
Theorem only_selects {R} (ids : list prim) (this : RecordSet.t R) :
  wf this ->
  (forall k, RecordSet.get k (RecordSet.only ids this)
             = if decide (k ∈ ids) then RecordSet.get k this else None) /\
  (NoDup ids ->
   RecordSet.ids (RecordSet.only ids this)
   = List.filter (fun id => RecordSet.has id this) ids) /\
  RecordSet.scopes (RecordSet.only ids this) = RecordSet.scopes this.
Proof.
  intros Hwf. split; [intros k; apply only_get |]. split.
  - intros Hids. unfold RecordSet.only. rewrite (only_fold ids this []). simpl app.
    unfold RecordSet.ids. rewrite new_entries; [apply only_found_keys |].
    rewrite only_found_keys.
    apply NoDup_ListNoDup, List.NoDup_filter, NoDup_ListNoDup, Hids.
  - apply new_scopes, Hwf.
Qed.

Lemma only_selects_witness :
  RecordSet.ids (RecordSet.only [PNum 3; PNum 9; PNum 1] Examples.people)
  = [PNum 3; PNum 1] /\
  RecordSet.get (PNum 2) (RecordSet.only [PNum 3; PNum 9; PNum 1] Examples.people) = None.
Proof.
  destruct (only_selects [PNum 3; PNum 9; PNum 1] Examples.people wf_people)
    as (Hget & Hids & _).
  split.
  - rewrite Hids; [reflexivity | solve_NoDup].
  - rewrite Hget. reflexivity.
Defined.

(** X5: [except(...ids)] keeps, in the order of the set, the records
    whose key is not among [ids]; with [only] it splits the set: a key of
    the set is in exactly one of the two, and their sizes add up to the
    size of the set, whatever keys [ids] repeats or invents. *)
Theorem except_complements_only {R} (ids : list prim) (this : RecordSet.t R) :
  wf this ->
  RecordSet.except ids this
  = RecordSet.mk (List.filter (fun e => negb (Array_includes (fst e) ids))
                              (RecordSet.entries this))
                 (RecordSet.scopes this) /\
  (forall k, RecordSet.get k (RecordSet.except ids this)
             = if decide (k ∈ ids) then None else RecordSet.get k this) /\
  RecordSet.size (RecordSet.only ids this) + RecordSet.size (RecordSet.except ids this)
  = RecordSet.size this.
Proof.
  intros Hwf.
  assert (Heq : RecordSet.except ids this
                = RecordSet.mk (List.filter (fun e => negb (Array_includes (fst e) ids))
                                            (RecordSet.entries this))
                               (RecordSet.scopes this)).
  { unfold RecordSet.except. apply new_eq; [apply NoDup_keys_filter, Hwf | exact Hwf]. }
  split; [exact Heq |]. split.
  - intros k. rewrite Heq. unfold RecordSet.get. cbn [RecordSet.entries].
    rewrite (Map_get_filter_keys (fun k => negb (Array_includes k ids))).
    destruct (decide (k ∈ ids)) as [Hin | Hn].
    + apply Array_includes_true in Hin. now rewrite Hin.
    + destruct (Array_includes k ids) eqn:Hinc; [| reflexivity].
      apply Array_includes_true in Hinc. contradiction.
  - assert (Hperm : Permutation
                      (RecordSet.entries (RecordSet.only ids this))
                      (List.filter (fun e => Array_includes (fst e) ids)
                                   (RecordSet.entries this))).
    { apply NoDup_Permutation.
      - apply NoDup_of_keys. apply (wf_new _ this Hwf).
      - apply NoDup_of_keys, NoDup_keys_filter, Hwf.
      - intros [k v].
        rewrite (elem_of_entries_get (RecordSet.only ids this))
          by apply (wf_new _ this Hwf).
        rewrite only_get.
        destruct (decide (k ∈ ids)) as [Hin | Hn]; split.
        + intros Hget. apply list_elem_of_In, List.filter_In. split.
          * apply list_elem_of_In, Map_get_elem, Hget.
          * now apply Array_includes_true.
        + intros Hin'. apply list_elem_of_In, List.filter_In in Hin' as [Hin' _].
          apply Map_get_NoDup; [apply Hwf | now apply list_elem_of_In].
        + discriminate.
        + intros Hin'. apply list_elem_of_In, List.filter_In in Hin' as [_ Hinc].
          apply Array_includes_true in Hinc. contradiction. }
    rewrite Heq. unfold RecordSet.size. cbn [RecordSet.entries].
    rewrite (Permutation_length Hperm).
    pose proof (length_filter_split (fun e : RecordSet.entry R => Array_includes (fst e) ids)
                                    (RecordSet.entries this)).
    lia.
Qed.

Lemma except_complements_only_witness :
  RecordSet.ids (RecordSet.except [PNum 3; PNum 9; PNum 3] Examples.people)
  = [PNum 1; PNum 2] /\
  RecordSet.size (RecordSet.only [PNum 3; PNum 9; PNum 3] Examples.people)
  + RecordSet.size (RecordSet.except [PNum 3; PNum 9; PNum 3] Examples.people) = 3.
Proof.
  destruct (except_complements_only [PNum 3; PNum 9; PNum 3] Examples.people wf_people)
    as (Heq & _ & Hsize).
  split; [rewrite Heq; reflexivity | exact Hsize].
Defined.

(** ** where, whereNot, find, every, some: queries by predicate *)

Section Queries.
Context {R : Type}.
Implicit Types (this : RecordSet.t R) (es : list (RecordSet.entry R))
         (f : RecordSet.callback R).

Lemma filter_negb_Permutation {A} (p : A -> bool) (l : list A) :
  Permutation (List.filter p l ++ List.filter (fun x => negb (p x)) l) l.
Proof.
  induction l as [|x l IH]; simpl; [reflexivity |].
  destruct (p x); simpl.
  - now constructor.
  - rewrite <- Permutation_middle. now constructor.
Qed.

Lemma whereNot_eq f this :
  wf this ->
  RecordSet.whereNot f this
  = RecordSet.mk (List.filter (fun e => negb (RecordSet.call f this e)) (RecordSet.entries this))
                 (RecordSet.scopes this).
Proof. intros Hwf. unfold RecordSet.whereNot. now rewrite filter_eq. Qed.

Lemma find_loop_filter f this es :
  RecordSet.find_loop f this es
  = snd <$> head (List.filter (RecordSet.call f this) es).
Proof.
  induction es as [|e es IH]; simpl; [reflexivity |].
  now destruct (RecordSet.call f this e).
Qed.

Lemma existsb_head_filter {A B} (p : A -> bool) (g : A -> B) (l : list A) :
  existsb p l = true <-> is_Some (g <$> head (List.filter p l)).
Proof.
  induction l as [|x l IH]; simpl.
  - split; [discriminate | intros [y Hy]; discriminate].
  - destruct (p x); simpl; [split; eauto | exact IH].
Qed.

Lemma forallb_filter_negb {A} (p : A -> bool) (l : list A) :
  forallb p l = true <-> List.filter (fun x => negb (p x)) l = [].
Proof.
  induction l as [|x l IH]; simpl; [tauto |].
  destruct (p x); simpl; [exact IH | split; discriminate].
Qed.

Lemma forallb_negb_existsb {A} (p : A -> bool) (l : list A) :
  forallb p l = negb (existsb (fun x => negb (p x)) l).
Proof.
  induction l as [|x l IH]; simpl; [reflexivity |].
  rewrite IH. now destruct (p x).
Qed.

Lemma findId_loop_filter f this es :
  RecordSet.findId_loop f this es
  = fst <$> head (List.filter (RecordSet.call f this) es).
Proof.
  induction es as [|e es IH]; simpl; [reflexivity |].
  now destruct (RecordSet.call f this e).
Qed.
End Queries.

(** X6: [where(f)] and [whereNot(f)] split the set: together they hold
    the entries of the set, each once; no key is in both; their sizes add
    up to the size of the set. *)
Theorem where_whereNot_split {R} (f : RecordSet.callback R) (this : RecordSet.t R) :
  wf this ->
  Permutation (RecordSet.entries (RecordSet.where_ f this)
               ++ RecordSet.entries (RecordSet.whereNot f this))
              (RecordSet.entries this) /\
  (forall k, RecordSet.has k (RecordSet.where_ f this) = true ->
             RecordSet.has k (RecordSet.whereNot f this) = false) /\
  RecordSet.size (RecordSet.where_ f this) + RecordSet.size (RecordSet.whereNot f this)
  = RecordSet.size this.
Proof.
  intros Hwf. unfold RecordSet.where_.
  rewrite whereNot_eq, filter_eq by exact Hwf. cbn [RecordSet.entries].
  pose proof (filter_negb_Permutation (RecordSet.call f this) (RecordSet.entries this))
    as Hperm.
  split; [exact Hperm |]. split.
  - intros k Hk. unfold RecordSet.has in *. cbn [RecordSet.entries] in *.
    apply Map_has_true in Hk. apply Map_has_false. intros Hk'.
    assert (Hnd : NoDup (keys (List.filter (RecordSet.call f this) (RecordSet.entries this)
                               ++ List.filter (fun e => negb (RecordSet.call f this e))
                                              (RecordSet.entries this)))).
    { eapply NoDup_keys_Permutation; [symmetry; exact Hperm | apply Hwf]. }
    rewrite keys_app in Hnd. apply NoDup_app in Hnd as (_ & Hdisj & _).
    exact (Hdisj k Hk Hk').
  - unfold RecordSet.size. cbn [RecordSet.entries].
    apply Permutation_length in Hperm. rewrite length_app in Hperm. lia.
Qed.

Lemma where_whereNot_split_witness :
  RecordSet.ids (RecordSet.where_ Examples.over_30 Examples.people) = [PNum 1; PNum 3] /\
  RecordSet.ids (RecordSet.whereNot Examples.over_30 Examples.people) = [PNum 2] /\
  RecordSet.size (RecordSet.where_ Examples.over_30 Examples.people)
  + RecordSet.size (RecordSet.whereNot Examples.over_30 Examples.people) = 3.
Proof.
  split; [reflexivity | split; [reflexivity |]].
  apply (where_whereNot_split Examples.over_30 Examples.people wf_people).
Defined.

(** X7: [find(f)] is the first record of [filter(f)] and [findId(f)] is
    its key: looking that key up in the set gives the record found; both
    are [undefined] exactly when [filter(f)] is empty. *)
Theorem find_is_first_of_filter {R} (f : RecordSet.callback R) (this : RecordSet.t R) :
  wf this ->
  RecordSet.find f this = RecordSet.first (RecordSet.filter f this) /\
  RecordSet.findId f this = head (RecordSet.ids (RecordSet.filter f this)) /\
  (forall k, RecordSet.findId f this = Some k ->
             RecordSet.get k this = RecordSet.find f this /\
             exists v, RecordSet.find f this = Some v /\
                       f v k (RecordSet.entries this) = true) /\
  (RecordSet.find f this = None <-> RecordSet.entries (RecordSet.filter f this) = []) /\
  (RecordSet.findId f this = None <-> RecordSet.find f this = None).
Proof.
  intros Hwf. unfold RecordSet.find, RecordSet.findId, RecordSet.first, RecordSet.ids.
  rewrite find_loop_filter, findId_loop_filter, filter_eq by exact Hwf.
  cbn [RecordSet.entries].
  set (found := List.filter (RecordSet.call f this) (RecordSet.entries this)).
  assert (Hfound : forall e, e ∈ found ->
                             e ∈ RecordSet.entries this /\ RecordSet.call f this e = true).
  { intros e He. apply list_elem_of_In, List.filter_In in He as [He Hf].
    split; [now apply list_elem_of_In | exact Hf]. }
  destruct found as [|[k v] found']; simpl.
  - repeat split; try discriminate; trivial.
  - split; [reflexivity |]. split; [reflexivity |]. split; [| split; split; discriminate].
    intros k' [= <-]. destruct (Hfound (k, v)) as [Hin Hf]; [left |].
    split; [now apply Map_get_NoDup; [apply Hwf |] |].
    exists v. split; [reflexivity | exact Hf].
Qed.

Lemma find_is_first_of_filter_witness :
  RecordSet.findId Examples.over_30 Examples.people = Some (PNum 1) /\
  RecordSet.get (PNum 1) Examples.people = RecordSet.find Examples.over_30 Examples.people.
Proof.
  split; [reflexivity |].
  apply (find_is_first_of_filter Examples.over_30 Examples.people wf_people). reflexivity.
Defined.

(** X8: [some(f)] holds exactly when [find(f)] finds a record, [every(f)]
    exactly when [whereNot(f)] is empty, and [every(f)] is the negation
    of [some] of the negated predicate; on the empty set [every] is true
    and [some] is false whatever the predicate. *)
Theorem every_some_duality {R} (f : RecordSet.callback R) (this : RecordSet.t R) :
  wf this ->
  (RecordSet.some f this = true <-> is_Some (RecordSet.find f this)) /\
  (RecordSet.every f this = true <-> RecordSet.entries (RecordSet.whereNot f this) = []) /\
  RecordSet.every f this
  = negb (RecordSet.some (fun value_ id map => negb (f value_ id map)) this) /\
  (RecordSet.entries this = [] ->
   RecordSet.every f this = true /\ RecordSet.some f this = false).
Proof.
  intros Hwf.
  assert (Hsome : RecordSet.some f this = existsb (RecordSet.call f this) (RecordSet.entries this)).
  { unfold RecordSet.some, RecordSet.size.
    destruct (RecordSet.entries this); reflexivity. }
  assert (Hevery : RecordSet.every f this
                   = forallb (RecordSet.call f this) (RecordSet.entries this)).
  { unfold RecordSet.every, RecordSet.size.
    destruct (RecordSet.entries this); reflexivity. }
  split; [| split; [| split]].
  - rewrite Hsome. unfold RecordSet.find. rewrite find_loop_filter.
    apply existsb_head_filter.
  - rewrite Hevery, whereNot_eq by exact Hwf. cbn [RecordSet.entries].
    apply forallb_filter_negb.
  - rewrite Hevery.
    assert (Hsome' : RecordSet.some (fun value_ id map => negb (f value_ id map)) this
                     = existsb (fun e => negb (RecordSet.call f this e)) (RecordSet.entries this)).
    { unfold RecordSet.some, RecordSet.size.
      destruct (RecordSet.entries this); reflexivity. }
    rewrite Hsome'. apply forallb_negb_existsb.
  - intros Hempty. rewrite Hsome, Hevery, Hempty. now split.
Qed.

Lemma every_some_duality_witness :
  RecordSet.some Examples.over_30 Examples.people = true /\
  RecordSet.every Examples.over_30 Examples.people = false /\
  (RecordSet.every Examples.over_30 Examples.people = true <->
   RecordSet.entries (RecordSet.whereNot Examples.over_30 Examples.people) = []).
Proof.
  split; [reflexivity | split; [reflexivity |]].
  apply (every_some_duality Examples.over_30 Examples.people wf_people).
Defined.

(** X9: the [flat] form of [filter] gives the records of the non-flat
    form, in the same order: [filter(f, {flat: true})] is
    [filter(f).toArray()], the [flat] option of [toArray] left out;
    [toArray({flat: true})] is not that array but the array of what
    [toObject()] gives for each of its records; and
    [map(f, {flat: true})] has one result per record. *)
Theorem filter_flat_is_toArray {R} (f : RecordSet.callback R) (this : RecordSet.t R) :
  wf this ->
  RecordSet.filter_flat f this = RecordSet.toArray (RecordSet.filter f this) /\
  (forall O (Record_toObject : R -> O),
      RecordSet.toArray_flat Record_toObject (RecordSet.filter f this)
      = List.map Record_toObject (RecordSet.filter_flat f this)) /\
  forall B (g : R -> prim -> list (RecordSet.entry R) -> B),
    Z.of_nat (length (RecordSet.map_flat g this)) = RecordSet.size this.
Proof.
  intros Hwf.
  cut (RecordSet.filter_flat f this = RecordSet.toArray (RecordSet.filter f this) /\
       forall B (g : R -> prim -> list (RecordSet.entry R) -> B),
         Z.of_nat (length (RecordSet.map_flat g this)) = RecordSet.size this).
  { intros [Hflat Hmap]. split; [exact Hflat | split; [| exact Hmap]].
    intros O Record_toObject. now rewrite Hflat. }
  split.
  - rewrite filter_eq by exact Hwf. unfold RecordSet.filter_flat, RecordSet.toArray.
    cbn [RecordSet.entries].
    assert (Hgen : forall es (arr : list R),
               fold_left (fun arr e => if RecordSet.call f this e then arr ++ [snd e] else arr)
                         es arr
               = arr ++ List.map snd (List.filter (RecordSet.call f this) es)).
    { induction es as [|e es IH]; intros arr; simpl; [now rewrite app_nil_r |].
      rewrite IH. destruct (RecordSet.call f this e); simpl; [| reflexivity].
      now rewrite <- app_assoc. }
    apply (Hgen _ []).
  - intros B g. unfold RecordSet.map_flat, RecordSet.size. now rewrite length_map.
Qed.

Lemma filter_flat_is_toArray_witness :
  RecordSet.filter_flat Examples.over_30 Examples.people = [Examples.ada; Examples.eve].
Proof.
  destruct (filter_flat_is_toArray Examples.over_30 Examples.people wf_people) as [-> _].
  reflexivity.
Defined.

(** ** The protected entry points: insertion, lookup, removal *)

Section EntryPoints.
Context {R : Type}.
Implicit Types (this : RecordSet.t R) (m : list (RecordSet.entry R)) (k : prim).

Lemma Map_delete_absent k m : k ∉ keys m -> Map_delete k m = m.
Proof.
  induction m as [|[k' v'] m IH]; simpl; intros Hn; [reflexivity |].
  apply not_elem_of_cons in Hn as [Hne Hn].
  rewrite decide_False by exact Hne. now rewrite IH.
Qed.

Lemma Map_delete_removes k m : NoDup (keys m) -> k ∉ keys (Map_delete k m).
Proof.
  induction m as [|[k' v'] m IH]; simpl; intros Hnd; [apply not_elem_of_nil |].
  apply NoDup_cons in Hnd as [Hk' Hnd].
  destruct (decide (k = k')) as [->|Hne]; [exact Hk' |].
  simpl. apply not_elem_of_cons. split; [exact Hne | now apply IH].
Qed.

Lemma Map_get_delete_ne k k' m : k' <> k -> Map_get k' (Map_delete k m) = Map_get k' m.
Proof.
  intros Hne. induction m as [|[k2 v2] m IH]; simpl; [reflexivity |].
  destruct (decide (k = k2)) as [->|Hne2]; simpl.
  - now rewrite decide_False.
  - destruct (decide (k' = k2)); [reflexivity | exact IH].
Qed.

Lemma Map_delete_app_fresh k (v : R) m : k ∉ keys m -> Map_delete k (m ++ [(k, v)]) = m.
Proof.
  induction m as [|[k' v'] m IH]; simpl; intros Hn.
  - now rewrite decide_True.
  - apply not_elem_of_cons in Hn as [Hne Hn].
    rewrite decide_False by exact Hne. now rewrite IH.
Qed.
End EntryPoints.

(** X10: after [[$set](id, value)] the key maps to the value and every
    other key to what it mapped to; a key that was present keeps its
    place in the order, a new key goes last, and the size grows by one
    only for a new key. *)
Theorem set_then_get {R} (id : prim) (value_ : R) (this : RecordSet.t R) :
  RecordSet.get id (RecordSet.set' id value_ this) = Some value_ /\
  (forall k, k <> id -> RecordSet.get k (RecordSet.set' id value_ this) = RecordSet.get k this) /\
  (RecordSet.has id this = true ->
   RecordSet.ids (RecordSet.set' id value_ this) = RecordSet.ids this) /\
  (RecordSet.has id this = false ->
   RecordSet.entries (RecordSet.set' id value_ this)
   = RecordSet.entries this ++ [(id, value_)]) /\
  RecordSet.size (RecordSet.set' id value_ this)
  = RecordSet.size this + (if RecordSet.has id this then 0 else 1).
Proof.
  unfold RecordSet.get, RecordSet.has, RecordSet.ids, RecordSet.size. simpl.
  split; [apply Map_get_set_eq |].
  split; [intros k Hne; now apply Map_get_set_ne |].
  split; [intros Hhas; apply keys_Map_set_present; now apply Map_has_true |].
  split; [intros Hhas; apply Map_set_fresh; now apply Map_has_false |].
  destruct (Map_has id (RecordSet.entries this)) eqn:Hhas.
  - apply Map_has_true in Hhas.
    pose proof (f_equal length (keys_Map_set_present id value_ _ Hhas)) as Hlen.
    unfold keys in Hlen. rewrite !length_fmap in Hlen. lia.
  - apply Map_has_false in Hhas. rewrite Map_set_fresh by exact Hhas.
    rewrite length_app. simpl. lia.
Qed.

Lemma set_then_get_witness :
  RecordSet.ids (RecordSet.set' (PNum 2) Examples.rob Examples.people)
  = [PNum 1; PNum 2; PNum 3] /\
  RecordSet.ids (RecordSet.set' (PNum 4) Examples.dan Examples.people)
  = [PNum 1; PNum 2; PNum 3; PNum 4].
Proof.
  destruct (set_then_get (PNum 2) Examples.rob Examples.people) as (_ & _ & Hkeep & _).
  destruct (set_then_get (PNum 4) Examples.dan Examples.people) as (_ & _ & _ & Hnew & _).
  split.
  - rewrite Hkeep; reflexivity.
  - unfold RecordSet.ids. rewrite Hnew; reflexivity.
Defined.

(** X11: after [[$delete](id)] the key is gone and every other key maps
    to what it mapped to; removing a key that is not there changes
    nothing, and removing a key right after it was inserted as a new one
    gives the set back. *)
Theorem delete_then_has {R} (id : prim) (this : RecordSet.t R) :
  wf this ->
  RecordSet.has id (RecordSet.delete' id this) = false /\
  (forall k, k <> id ->
             RecordSet.get k (RecordSet.delete' id this) = RecordSet.get k this) /\
  (RecordSet.has id this = false ->
   RecordSet.delete' id this = this /\
   forall value_, RecordSet.delete' id (RecordSet.set' id value_ this) = this) /\
  (RecordSet.has id this = true ->
   RecordSet.size (RecordSet.delete' id this) = RecordSet.size this - 1).
Proof.
  intros Hwf. unfold RecordSet.has, RecordSet.get, RecordSet.delete', RecordSet.set',
              RecordSet.size. simpl.
  split; [apply Map_has_false, Map_delete_removes, Hwf |].
  split; [intros k Hne; now apply Map_get_delete_ne |].
  split.
  - intros Hhas. apply Map_has_false in Hhas. split.
    + rewrite Map_delete_absent by exact Hhas. now destruct this.
    + intros value_. rewrite Map_set_fresh, Map_delete_app_fresh by exact Hhas.
      now destruct this.
  - intros Hhas. apply Map_has_true in Hhas.
    destruct Hwf as (Hnd & _). unfold RecordSet.ids in Hnd.
    induction (RecordSet.entries this) as [|[k' v'] m IH]; [inversion Hhas |].
    simpl in *. apply NoDup_cons in Hnd as [Hk' Hnd].
    destruct (decide (id = k')) as [->|Hne]; [lia |].
    apply elem_of_cons in Hhas as [Heq | Hin]; [contradiction |].
    specialize (IH Hnd Hin). simpl. destruct m; [inversion Hin | simpl in *; lia].
Qed.

Lemma delete_then_has_witness :
  RecordSet.ids (RecordSet.delete' (PNum 2) Examples.people) = [PNum 1; PNum 3] /\
  RecordSet.has (PNum 2) (RecordSet.delete' (PNum 2) Examples.people) = false.
Proof.
  split; [reflexivity |].
  apply (delete_then_has (PNum 2) Examples.people wf_people).
Defined.

(** X12: with a batch size that is zero or negative no batch ever fills:
    [batchIterator] yields the whole set as one batch, and nothing for
    the empty set. *)
Theorem batchIterator_nonpositive {R} (batchSize : Z) (this : RecordSet.t R) :
  wf this -> batchSize <= 0 ->
  RecordSet.batchIterator batchSize this
  = match RecordSet.entries this with
    | [] => []
    | _ => [RecordSet.mk (RecordSet.entries this) (RecordSet.scopes this)]
    end.
Proof.
  intros Hwf Hn. rewrite batchIterator_eq by exact Hwf.
  assert (Hloop : forall (es batch : list (RecordSet.entry R)),
             RecordSet.batch_loop (fun e => e) batchSize es batch
             = match batch ++ es with [] => [] | _ => [batch ++ es] end).
  { induction es as [|e es IH]; intros batch; simpl.
    - rewrite app_nil_r. now destruct batch.
    - assert (Hne : (Z.of_nat (length (batch ++ [e])) =? batchSize) = false).
      { apply Z.eqb_neq. rewrite length_app. simpl. lia. }
      rewrite Hne, IH, <- app_assoc. simpl.
      destruct batch; reflexivity. }
  rewrite Hloop. simpl. now destruct (RecordSet.entries this).
Qed.

Lemma batchIterator_nonpositive_witness :
  RecordSet.ids <$> RecordSet.batchIterator 0 Examples.people
  = [[PNum 1; PNum 2; PNum 3]].
Proof.
  rewrite (batchIterator_nonpositive 0 Examples.people wf_people); [reflexivity | lia].
Defined.

(** ** sort, scopes, merge and append: how the derivations compose *)

Section Composition.
Context {R : Type}.
Implicit Types (this : RecordSet.t R) (es : list (RecordSet.entry R)).

Lemma Array_sort_of_ordered {A} (compare : A -> A -> Z) (l : list A) :
  ordered compare l -> Array_sort compare l = l.
Proof.
  unfold ordered. induction l as [|x l IH]; intros Hl; [reflexivity |].
  apply StronglySorted_inv in Hl as [Hl Hx]. simpl. rewrite IH by exact Hl.
  destruct l as [|y l]; [reflexivity |]. simpl.
  apply Forall_cons in Hx as [Hxy _].
  replace (0 <? compare x y) with false; [reflexivity |].
  symmetry. apply Z.ltb_ge. exact Hxy.
Qed.

Lemma Map_get_Permutation (k : prim) es es' :
  Permutation es es' -> NoDup (keys es) -> Map_get k es = Map_get k es'.
Proof.
  intros Hperm Hnd.
  assert (Hnd' : NoDup (keys es')) by (eapply NoDup_keys_Permutation; eauto).
  destruct (Map_get k es) as [v|] eqn:Hget.
  - symmetry. apply Map_get_NoDup; [exact Hnd' |].
    rewrite <- Hperm. now apply Map_get_elem.
  - symmetry. apply Map_get_None. apply Map_get_None in Hget.
    unfold keys in *. now rewrite <- Hperm.
Qed.

Lemma append_fold_fresh (id_of : R -> prim) (records_ : list R) (acc : RecordSet.t R) :
  NoDup (RecordSet.ids acc ++ List.map id_of records_) ->
  fold_left (fun a r => RecordSet.set' (id_of r) r a) records_ acc
  = RecordSet.mk (RecordSet.entries acc ++ List.map (fun r => (id_of r, r)) records_)
                 (RecordSet.scopes acc).
Proof.
  revert acc. induction records_ as [|r rs IH]; intros acc Hnd; simpl.
  - rewrite app_nil_r. now destruct acc.
  - assert (Hfresh : id_of r ∉ keys (RecordSet.entries acc)).
    { apply NoDup_app in Hnd as (_ & Hdisj & _). intros Hin.
      apply (Hdisj _ Hin). simpl. left. }
    rewrite IH; unfold RecordSet.ids; simpl; rewrite Map_set_fresh by exact Hfresh.
    + now rewrite <- app_assoc.
    + rewrite keys_app. simpl. rewrite <- app_assoc. exact Hnd.
Qed.

Lemma append_fold_scopes (id_of : R -> prim) (records_ : list R) (acc : RecordSet.t R) :
  RecordSet.scopes (fold_left (fun a r => RecordSet.set' (id_of r) r a) records_ acc)
  = RecordSet.scopes acc.
Proof.
  revert acc. induction records_ as [|r rs IH]; intros acc; simpl; [reflexivity |].
  now rewrite IH.
Qed.

Lemma append_scopes (id_of : R -> prim) (records_ : list R) this :
  wf this ->
  RecordSet.scopes (RecordSet.append id_of records_ this) = RecordSet.scopes this.
Proof.
  intros Hwf. unfold RecordSet.append. rewrite append_fold_scopes.
  apply new_scopes, Hwf.
Qed.

Lemma append_fold_has (id_of : R -> prim) (records_ : list R) (acc : RecordSet.t R) k :
  RecordSet.has k acc = true ->
  RecordSet.has k (fold_left (fun a r => RecordSet.set' (id_of r) r a) records_ acc) = true.
Proof.
  revert acc. induction records_ as [|r rs IH]; intros acc Hhas; simpl; [exact Hhas |].
  apply IH. unfold RecordSet.has in *. simpl. apply Map_has_true.
  apply Map_has_true in Hhas.
  destruct (decide (id_of r ∈ keys (RecordSet.entries acc))) as [Hin | Hn].
  - now rewrite keys_Map_set_present.
  - rewrite Map_set_fresh, keys_app by exact Hn. apply elem_of_app. now left.
Qed.
End Composition.

(** X13: sorting changes the order and nothing else: every key maps in
    [sort(cmp)] to what it maps to in the set and the size is the same,
    whatever the comparator; with a consistent comparator, sorting a
    sorted set changes nothing. *)
Theorem sort_keeps_lookups {R} (comparatorFn : RecordSet.comparator R)
        (this : RecordSet.t R) :
  wf this ->
  (forall k, RecordSet.get k (RecordSet.sort comparatorFn this) = RecordSet.get k this) /\
  RecordSet.size (RecordSet.sort comparatorFn this) = RecordSet.size this /\
  (consistent (RecordSet.compare_entries comparatorFn) ->
   RecordSet.sort comparatorFn (RecordSet.sort comparatorFn this)
   = RecordSet.sort comparatorFn this).
Proof.
  intros Hwf. rewrite sort_eq by exact Hwf.
  set (sorted := Array_sort (RecordSet.compare_entries comparatorFn) (RecordSet.entries this)).
  assert (Hperm : Permutation sorted (RecordSet.entries this))
    by apply Array_sort_Permutation.
  assert (Hnd : NoDup (keys sorted)).
  { eapply NoDup_keys_Permutation; [symmetry; exact Hperm | apply Hwf]. }
  split; [| split].
  - intros k. unfold RecordSet.get. cbn [RecordSet.entries].
    now apply Map_get_Permutation.
  - unfold RecordSet.size. cbn [RecordSet.entries]. now rewrite (Permutation_length Hperm).
  - intros Hcmp. rewrite sort_eq by (apply wf_mk; [exact Hnd | exact Hwf]).
    cbn [RecordSet.entries RecordSet.scopes]. f_equal.
    apply Array_sort_of_ordered. now apply Array_sort_ordered.
Qed.

Lemma sort_keeps_lookups_witness :
  RecordSet.get (PNum 1) (RecordSet.sort Examples.by_age Examples.people) = Some Examples.ada /\
  RecordSet.sort Examples.by_age (RecordSet.sort Examples.by_age Examples.people)
  = RecordSet.sort Examples.by_age Examples.people.
Proof.
  destruct (sort_keeps_lookups Examples.by_age Examples.people wf_people) as (Hget & _ & Hid).
  split; [rewrite Hget; reflexivity | exact (Hid consistent_by_age)].
Defined.

(** X14: reading a scope is filtering by its matcher and then sorting by
    its comparator: the accessor of a scope registered with a comparator
    gives [filter(matcher).sort(comparator)], that of a scope without one
    gives [filter(matcher)]; it never throws. *)
Theorem scope_is_filter_then_sort {R} (scopeName : string) (this : RecordSet.t R)
        (matcherFn : RecordSet.callback R) (comparatorFn : arg (RecordSet.comparator R)) :
  wf this ->
  Map_get scopeName (RecordSet.scopes this) = Some (matcherFn, comparatorFn) ->
  RecordSet.scopedWhere scopeName this
  = Ok (match comparatorFn with
        | Fn c => RecordSet.sort c (RecordSet.filter matcherFn this)
        | NotFn _ => RecordSet.filter matcherFn this
        end).
Proof.
  intros Hwf Hget. rewrite (scopedWhere_eq this scopeName matcherFn comparatorFn Hwf Hget).
  rewrite filter_eq by exact Hwf. destruct comparatorFn as [c | v]; [| reflexivity].
  rewrite sort_eq; [reflexivity |].
  apply wf_mk; [apply NoDup_keys_filter, Hwf | exact Hwf].
Qed.

Lemma scope_is_filter_then_sort_witness :
  RecordSet.scopedWhere "open" Examples.people
  = Ok (RecordSet.sort Examples.by_age (RecordSet.filter Examples.is_open Examples.people)).
Proof.
  apply (scope_is_filter_then_sort "open" Examples.people Examples.is_open
                                   (Fn Examples.by_age) wf_people).
  reflexivity.
Defined.

(** X15: [merge()] with no argument is a copy of the set; a set that has
    entries cannot be merged with itself: [s.merge(s)] throws the
    duplication error on the first key, and only the empty set merges
    with itself. *)
Theorem merge_with_nothing_or_itself {R} (this : RecordSet.t R) :
  wf this ->
  RecordSet.merge [] this = Ok (RecordSet.duplicate this) /\
  (RecordSet.entries this <> [] ->
   exists msg, RecordSet.merge [this] this = Throw (DuplicationError msg)) /\
  (RecordSet.entries this = [] -> RecordSet.merge [this] this = Ok (RecordSet.duplicate this)).
Proof.
  intros Hwf. rewrite duplicate_eq by exact Hwf. split; [| split].
  - rewrite (merge_disjoint this [] Hwf); simpl; rewrite app_nil_r; [reflexivity | apply Hwf].
  - intros Hne. destruct (RecordSet.entries this) as [|[k v] es] eqn:Hes; [contradiction |].
    apply (merge_collision this [this] [] k v es Hwf).
    + simpl. rewrite Hes, app_nil_r. reflexivity.
    + unfold RecordSet.ids. rewrite Hes. simpl. left.
  - intros Hempty. rewrite (merge_disjoint this [this] Hwf); simpl; rewrite Hempty; simpl.
    + reflexivity.
    + constructor.
Qed.

Lemma merge_with_nothing_or_itself_witness :
  exists msg,
    RecordSet.merge [Examples.people] Examples.people = Throw (DuplicationError msg).
Proof.
  apply (merge_with_nothing_or_itself Examples.people wf_people). discriminate.
Defined.

(** X16: [append] of records whose keys are new and pairwise distinct
    adds them after the entries of the set, in the order they are given;
    [append()] is a copy; no [append] ever loses a key of the set. *)
Theorem append_extends {R} (id_of : R -> prim) (records_ : list R) (this : RecordSet.t R) :
  wf this ->
  (NoDup (RecordSet.ids this ++ List.map id_of records_) ->
   RecordSet.append id_of records_ this
   = RecordSet.mk (RecordSet.entries this ++ List.map (fun r => (id_of r, r)) records_)
                  (RecordSet.scopes this)) /\
  RecordSet.append id_of [] this = RecordSet.duplicate this /\
  (forall k, RecordSet.has k this = true ->
             RecordSet.has k (RecordSet.append id_of records_ this) = true) /\
  RecordSet.scopes (RecordSet.append id_of records_ this) = RecordSet.scopes this.
Proof.
  intros Hwf. unfold RecordSet.append.
  assert (Hnew : RecordSet.new (RecordSet.entries this) (Some this)
                 = RecordSet.mk (RecordSet.entries this) (RecordSet.scopes this))
    by (apply new_eq; [apply Hwf | exact Hwf]).
  rewrite Hnew. split; [| split; [| split]].
  - intros Hnd. now rewrite append_fold_fresh.
  - simpl. now rewrite duplicate_eq.
  - intros k Hk. now apply append_fold_has.
  - now rewrite append_fold_scopes.
Qed.

Lemma append_extends_witness :
  RecordSet.ids (RecordSet.append rid [Examples.dan] Examples.people)
  = [PNum 1; PNum 2; PNum 3; PNum 4].
Proof.
  destruct (append_extends rid [Examples.dan] Examples.people wf_people) as (Hfresh & _).
  rewrite Hfresh; [reflexivity |]. simpl. solve_NoDup.
Defined.

(** ** toObject: from keys to property names *)

Section ToObject.
Context {R : Type}.
Implicit Types (this : RecordSet.t R) (es : list (RecordSet.entry R))
         (obj : RecordSet.plain R) (p : string).

Lemma toObject_fold_other es obj p :
  Forall (fun e => ToString (fst e) <> p) es ->
  RecordSet.own (fold_left (fun obj e => RecordSet.assign obj (fst e) (snd e)) es obj) !! p
  = RecordSet.own obj !! p.
Proof.
  revert obj. induction es as [|[k v] es IH]; intros obj Hall; simpl; [reflexivity |].
  apply Forall_cons in Hall as [Hk Hall]. rewrite IH by exact Hall.
  unfold RecordSet.assign. simpl in *.
  destruct (String.eqb (ToString k) "__proto__"); simpl; [reflexivity |].
  now apply lookup_insert_ne.
Qed.

Lemma toObject_fold_None es obj p :
  RecordSet.own (fold_left (fun obj e => RecordSet.assign obj (fst e) (snd e)) es obj) !! p
  = None <->
  RecordSet.own obj !! p = None /\
  (p = "__proto__" \/ p ∉ (fun e => ToString (fst e)) <$> es).
Proof.
  revert obj. induction es as [|[k v] es IH]; intros obj; simpl.
  - split; [intros H; split; [exact H | right; apply not_elem_of_nil] | tauto].
  - rewrite IH. unfold RecordSet.assign. simpl.
    destruct (String.eqb (ToString k) "__proto__") eqn:Hproto; simpl.
    + apply String.eqb_eq in Hproto. rewrite Hproto, not_elem_of_cons.
      destruct (decide (p = "__proto__")); tauto.
    + apply String.eqb_neq in Hproto. rewrite not_elem_of_cons.
      destruct (decide (p = ToString k)) as [->|Hne].
      * rewrite lookup_insert_eq. split; [intros [? _]; discriminate |].
        intros [_ [Heq | [Hneq _]]]; [congruence | congruence].
      * rewrite lookup_insert_ne by congruence. tauto.
Qed.
End ToObject.



(** ** Every derivation carries the scopes *)

(** X18: whatever the derivation ([filter], [sort], [duplicate], [merge],
    [append], [only], [except], [slice], [limit], [offset]), the set it
    returns has the scope table of the set it was called on, so the same
    accessors, and is again a well-formed set. *)
Theorem derivation_carries_scopes {R} (id_of : R -> prim)
        (h : gmap Store.ref (RecordSet.t R)) (op : Store.derivation)
        (this D : RecordSet.t R) :
  wf this ->
  Store.derive id_of h op this = Ok D ->
  RecordSet.scopes D = RecordSet.scopes this /\
  RecordSet.own_accessors D = RecordSet.own_accessors this /\
  wf D.
Proof.
  intros Hwf HD.
  assert (Hsc : RecordSet.scopes D = RecordSet.scopes this).
  { destruct op; simpl in HD;
      try (injection HD as <-; apply new_scopes, Hwf).
    - injection HD as <-. now rewrite filter_eq.
    - destruct (mapM (fun r => h !! r) recordSets) as [sets|]; [| discriminate].
      unfold RecordSet.merge in HD.
      destruct (RecordSet.merge_loop sets (Map_new (RecordSet.entries this))) as [res|];
        [| discriminate].
      injection HD as <-. apply new_scopes, Hwf.
    - injection HD as <-. now apply append_scopes. }
  split; [exact Hsc |]. split; [unfold RecordSet.own_accessors; now rewrite Hsc |].
  exact (wf_derive id_of h op this D Hwf HD).
Qed.

Lemma derivation_carries_scopes_witness :
  RecordSet.own_accessors (RecordSet.offset 1 Examples.people) = ["open"].
Proof.
  apply (derivation_carries_scopes rid ∅ (Store.Offset 1) Examples.people _ wf_people).
  reflexivity.
Defined.

(** ** Relationship: the forward side, and the to-many receiving side *)

Section Resolution.
Implicit Types (this : Relationship.t) (es : list (RecordSet.entry record))
         (matcher : record -> result bool).

Lemma find_loop_total matcher (g : record -> bool) es :
  Forall (fun e => matcher (snd e) = Ok (g (snd e))) es ->
  Relationship.find_loop matcher es
  = Ok (match head (List.filter (fun e => g (snd e)) es) with
        | Some e => Relationship.One (snd e)
        | None => Relationship.Undefined
        end).
Proof.
  induction es as [|e es IH]; intros Hall; simpl; [reflexivity |].
  apply Forall_cons in Hall as [He Hall]. rewrite He. simpl.
  destruct (g (snd e)); [reflexivity | now apply IH].
Qed.

Lemma where_loop_throws matcher es (newMap : RecordSet.t record) :
  (forall r e, matcher r = Throw e -> exists msg, e = TypeError msg) ->
  Exists (fun e => exists err, matcher (snd e) = Throw err) es ->
  exists msg, Relationship.where_loop matcher es newMap = Throw (TypeError msg).
Proof.
  intros Hkind Hex. revert newMap.
  induction es as [|e es IH]; intros newMap; [inversion Hex |].
  simpl. destruct (matcher (snd e)) as [b|err] eqn:Hm; simpl.
  - apply IH. apply Exists_cons in Hex as [[err Herr] | Htl]; [congruence | exact Htl].
  - destruct (Hkind _ _ Hm) as [msg ->]. eauto.
Qed.

Lemma get_forward this record_ :
  Relationship.get this (Relationship.model_name (Relationship.from this))
                   (Relationship.name this) record_
  = Relationship.getAssociatedRecords this record_.
Proof. unfold Relationship.get. now rewrite !String.eqb_refl. Qed.

Lemma includes_throws_TypeError (v : value) (x : prim) e :
  Relationship.includes v x = Throw e -> exists msg, e = TypeError msg.
Proof.
  destruct v as [[| | | |]| |]; simpl; intros [= <-]; eauto.
Qed.
End Resolution.

(** X19: the forward side of a to-many relationship.  When the field of
    the record holds a list of keys, [get] gives the records of the target
    store whose key is in the list, in the order of the store, whatever
    the list repeats or names that the store has not; when the field is
    [undefined], [null] or otherwise falsy, it gives the empty set; when
    it holds a number other than 0 and the target store has a record, the
    call throws a [TypeError]. *)
Theorem forward_toMany_resolution (this : Relationship.t) (record_ : record) :
  wf (Relationship.records (Relationship.to this)) ->
  Relationship.isToOne (Relationship.type this) = false ->
  let target := Relationship.records (Relationship.to this) in
  let field := RecordSet.record_get record_ (Relationship.name this) in
  let resolved := Relationship.get this (Relationship.model_name (Relationship.from this))
                                   (Relationship.name this) record_ in
  (forall xs, field = VArr xs ->
              resolved
              = Ok (Relationship.Many
                      (RecordSet.mk
                         (List.filter (fun e => Array_includes (rid (snd e)) xs)
                                      (RecordSet.entries target))
                         (RecordSet.scopes target)))) /\
  (truthy_value field = false ->
   resolved = Ok (Relationship.Many (RecordSet.mk [] (RecordSet.scopes target)))) /\
  (forall n, field = VPrim (PNum n) -> n <> 0 -> RecordSet.entries target <> [] ->
             exists msg, resolved = Throw (TypeError msg)).
Proof.
  intros Hwf Hmany target field resolved. subst resolved. rewrite get_forward.
  unfold Relationship.getAssociatedRecords. rewrite Hmany. fold field. fold target.
  assert (Hlist : forall xs,
             Relationship.where_
               (fun associatedRecord => Relationship.includes (VArr xs) (rid associatedRecord))
               target
             = Ok (Relationship.Many
                     (RecordSet.mk
                        (List.filter (fun e => Array_includes (rid (snd e)) xs)
                                     (RecordSet.entries target))
                        (RecordSet.scopes target)))).
  { intros xs. unfold Relationship.where_.
    rewrite (where_loop_total _ (fun r => Array_includes (rid r) xs))
      by (apply Forall_forall; intros; reflexivity).
    simpl. rewrite (new_eq [] target) by (trivial; constructor).
    rewrite filter_fold by (simpl; apply Hwf). reflexivity. }
  split; [| split].
  - intros xs ->. simpl. apply Hlist.
  - intros Hfalsy. rewrite Hfalsy. rewrite Hlist.
    assert (Hnil : forall l : list (RecordSet.entry record),
               List.filter (fun e => Array_includes (rid (snd e)) []) l = []).
    { induction l as [|e l IH]; simpl; [reflexivity | exact IH]. }
    now rewrite Hnil.
  - intros n -> Hn Hne. simpl. replace (n =? 0) with false by (symmetry; now apply Z.eqb_neq).
    simpl. unfold Relationship.where_.
    destruct (RecordSet.entries target) as [|e es] eqn:Hes; [contradiction |].
    destruct (where_loop_throws
                (fun associatedRecord =>
                   Relationship.includes (VPrim (PNum n)) (rid associatedRecord))
                (e :: es) (RecordSet.new [] (Some target))) as [msg Hthrow].
    + intros r err. apply includes_throws_TypeError.
    + left. simpl. eauto.
    + exists msg.
      exact (f_equal (fun x => x ≫= (fun d => Ok (Relationship.Many d))) Hthrow).
Qed.

Lemma forward_toMany_resolution_witness :
  match Relationship.get Examples.friends "Friend" "friends"
                         (Examples.friend 1 (VArr [PNum 3; PNum 2; PNum 3; PNum 8])) with
  | Ok (Relationship.Many D) => RecordSet.ids D = [PNum 2; PNum 3]
  | _ => False
  end.
Proof.
  destruct (forward_toMany_resolution Examples.friends
              (Examples.friend 1 (VArr [PNum 3; PNum 2; PNum 3; PNum 8]))
              (wf_new_None _) eq_refl) as (Hlist & _).
  change (Relationship.model_name (Relationship.from Examples.friends)) with "Friend" in Hlist.
  change (Relationship.name Examples.friends) with "friends" in Hlist.
  rewrite (Hlist [PNum 3; PNum 2; PNum 3; PNum 8] eq_refl). reflexivity.
Defined.

(** X20: the receiving side of a one-to-many relationship (to-many,
    from-one), on a store whose foreign-key fields are lists of keys or
    empty: [get] gives the first record, in the order of the store, whose
    list holds the key of the given record, and [undefined] when there is
    none. *)
Theorem reverse_oneToMany_first (this : Relationship.t) (record_ : record) :
  Relationship.type this = Relationship.oneToMany ->
  Forall (fun e => key_list_or_empty (Relationship.name this) (snd e))
         (RecordSet.entries (Relationship.records (Relationship.from this))) ->
  Relationship.getAssociatedRecordsReverse this record_
  = Ok (match head (List.filter
                      (fun e => holds_key (Relationship.name this) (rid record_) (snd e))
                      (RecordSet.entries (Relationship.records (Relationship.from this)))) with
        | Some e => Relationship.One (snd e)
        | None => Relationship.Undefined
        end).
Proof.
  intros Htype Hall. unfold Relationship.getAssociatedRecordsReverse.
  rewrite Htype. simpl. unfold Relationship.find.
  apply (find_loop_total _ (holds_key (Relationship.name this) (rid record_))).
  eapply Forall_impl; [exact Hall |]. intros e He. simpl in He.
  unfold key_list_or_empty in He. unfold holds_key.
  destruct (RecordSet.record_get e.2 (Relationship.name this)) as [[| | | |]|xs|];
    simpl; try reflexivity; contradiction.
Qed.

Lemma reverse_oneToMany_first_witness :
  Relationship.getAssociatedRecordsReverse
    (Relationship.mk Relationship.oneToMany Examples.Friend Examples.Friend
                     "friends" "friendOf")
    (Examples.friend 2 (VPrim PNull))
  = Ok (Relationship.One (Examples.friend 1 (VArr [PNum 2; PNum 3]))).
Proof.
  rewrite reverse_oneToMany_first; [reflexivity | reflexivity |].
  repeat constructor.
Defined.

(** X21: the receiving side of a many-to-many relationship reads the
    foreign-key field of every record of the source store: one record
    whose field holds a number or a boolean makes the resolution throw a
    [TypeError], whichever record it is asked for. *)
Theorem reverse_toMany_poisoned (this : Relationship.t) (record_ : record) :
  Relationship.type this = Relationship.manyToMany ->
  Exists (fun e => match RecordSet.record_get (snd e) (Relationship.name this) with
                   | VPrim (PNum _) | VPrim (PBool _) => True
                   | _ => False
                   end)
         (RecordSet.entries (Relationship.records (Relationship.from this))) ->
  exists msg, Relationship.getAssociatedRecordsReverse this record_ = Throw (TypeError msg).
Proof.
  intros Htype Hex. unfold Relationship.getAssociatedRecordsReverse.
  rewrite Htype. simpl. unfold Relationship.where_.
  set (matcher := fun associatedRecord : record =>
                    match RecordSet.record_get associatedRecord (Relationship.name this) with
                    | VPrim PUndefined | VPrim PNull => Ok false
                    | _ => Relationship.includes
                             (RecordSet.record_get associatedRecord (Relationship.name this))
                             (rid record_)
                    end).
  destruct (where_loop_throws matcher
              (RecordSet.entries (Relationship.records (Relationship.from this)))
              (RecordSet.new [] (Some (Relationship.records (Relationship.from this)))))
    as [msg Hthrow].
  - intros r err. unfold matcher.
    destruct (RecordSet.record_get r (Relationship.name this)) as [[| | | |]|xs|];
      simpl; intros [= <-]; eauto.
  - eapply Exists_impl; [exact Hex |]. intros e He. simpl in He. unfold matcher.
    destruct (RecordSet.record_get e.2 (Relationship.name this)) as [[| | | |]|xs|];
      simpl; try contradiction; eauto.
  - exists msg. now rewrite Hthrow.
Qed.

Lemma reverse_toMany_poisoned_witness :
  exists msg,
    Relationship.getAssociatedRecordsReverse
      (Relationship.mk Relationship.manyToMany
         (Relationship.mkModel "Friend"
            (RecordSet.new [(PNum 1, Examples.friend 1 (VArr [PNum 2]));
                            (PNum 2, Examples.friend 2 (VPrim (PNum 1)))] None))
         Examples.Friend "friends" "friendOf")
      (Examples.friend 2 (VPrim PNull))
    = Throw (TypeError msg).
Proof.
  apply reverse_toMany_poisoned; [reflexivity |].
  right. left. exact I.
Defined.

(** ** Model: from the [scopes] option to [addScope] *)

(** X22: what [Model.#parseScope] returns passes the type checks of
    [[$addScope]]: the matcher is a function and the sorter is a function
    or falsy, so registering the pair under any name, on any record set
    that has no scope named [size], can fail for the name (duplication or
    name error) and never with a [TypeError]; and [parseScope] itself
    fails with nothing but a [TypeError]. *)
Theorem parseScope_feeds_addScope {R} (scope_ : Model.scope_spec R) :
  (forall matcher sorter,
      Model.parseScope scope_ = Ok (matcher, sorter) ->
      is_function matcher = true /\
      comparator_ok sorter /\
      forall name (this : RecordSet.t R) msg,
        "size" ∉ RecordSet.own_accessors this ->
        fst (RecordSet.addScope name matcher sorter this) <> Throw (TypeError msg)) /\
  (forall e, Model.parseScope scope_ = Throw e -> exists msg, e = TypeError msg).
Proof.
  split.
  - intros matcher sorter Hparse.
    assert (Hfn : is_function matcher = true /\ comparator_ok sorter).
    { destruct scope_ as [f | m s | |]; simpl in Hparse; try discriminate.
      - injection Hparse as <- <-. split; [reflexivity | intros H; discriminate].
      - destruct (is_function m) eqn:Hm; simpl in Hparse; [| discriminate].
        destruct (truthy_arg s) eqn:Hs; simpl in Hparse.
        + destruct (is_function s) eqn:Hs'; simpl in Hparse; [| discriminate].
          injection Hparse as <- <-. split; [exact Hm | intros _; exact Hs'].
        + injection Hparse as <- <-. split; [exact Hm |]. intros H. congruence. }
    destruct Hfn as [Hm Hs]. split; [exact Hm |]. split; [exact Hs |].
    intros name this msg Hsize. destruct matcher as [m | v]; [| discriminate].
    unfold RecordSet.addScope. simpl.
    destruct (Map_has name (RecordSet.scopes this)) eqn:Hhas; simpl; [discriminate |].
    assert (Hcmp : (if truthy_arg sorter
                    then _ ← RecordSet.validateFunction "Scope comparator" name sorter; Ok tt
                    else Ok tt) = Ok tt).
    { destruct (truthy_arg sorter) eqn:Ht; [| reflexivity].
      specialize (Hs Ht). destruct sorter; [reflexivity | discriminate]. }
    rewrite Hcmp.
    destruct (property_truthy_total name this) as [inUse ->];
      [now apply Map_has_false | exact Hsize |].
    destruct (inUse || RecordSet.mem name RecordSet.prototype_names); simpl; discriminate.
  - intros e. destruct scope_ as [f | m s | |]; simpl.
    + discriminate.
    + destruct (is_function m); simpl; [| intros [= <-]; eauto].
      destruct (truthy_arg s && negb (is_function s)); [intros [= <-]; eauto | discriminate].
    + intros [= <-]. eauto.
    + intros [= <-]. eauto.
Qed.

Lemma parseScope_feeds_addScope_witness :
  fst (RecordSet.addScope "adults" (Fn Examples.over_30) (NotFn (VPrim PNull)) Examples.people)
  <> Throw (TypeError "Scope adults is not a function.").
Proof.
  apply (parseScope_feeds_addScope
           (Model.AnObject (Fn Examples.over_30) (NotFn (VPrim PNull)))
         : _ /\ _).
  - reflexivity.
  - intros Hin. apply list_elem_of_singleton in Hin. discriminate.
Defined.

(** ** Chains of derivations *)

Section Chains.
Context {R : Type}.
Implicit Types (this : RecordSet.t R) (es : list (RecordSet.entry R)).

Lemma filter_filter_andb {A} (p q : A -> bool) (l : list A) :
  List.filter p (List.filter q l) = List.filter (fun x => q x && p x) l.
Proof.
  induction l as [|x l IH]; simpl; [reflexivity |].
  destruct (q x); simpl; [| exact IH]. destruct (p x); simpl; now rewrite IH.
Qed.

Lemma filter_all {A} (p : A -> bool) (l : list A) :
  Forall (fun x => p x = true) l -> List.filter p l = l.
Proof.
  induction 1 as [|x l Hx _ IH]; simpl; [reflexivity |]. now rewrite Hx, IH.
Qed.

Lemma Array_slice_between {A} (a b : Z) (l : list A) :
  0 <= a -> 0 <= b ->
  Array_slice (Some a) (Some b) l = drop (Z.to_nat a) (take (Z.to_nat b) l).
Proof.
  intros Ha Hb. unfold Array_slice, relative_index. simpl.
  replace (a <? 0) with false by (symmetry; apply Z.ltb_ge; lia).
  replace (b <? 0) with false by (symmetry; apply Z.ltb_ge; lia).
  set (len := length l).
  destruct (Z.le_ge_cases (Z.min a (Z.of_nat len)) (Z.min b (Z.of_nat len))) as [Hle | Hge].
  - rewrite take_drop_commute.
    replace (Z.to_nat (Z.min a (Z.of_nat len))
             + Z.to_nat (Z.min b (Z.of_nat len) - Z.min a (Z.of_nat len)))%nat
      with (Z.to_nat (Z.min b (Z.of_nat len))) by lia.
    assert (Htake : take (Z.to_nat (Z.min b (Z.of_nat len))) l = take (Z.to_nat b) l).
    { destruct (Z.le_ge_cases b (Z.of_nat len)).
      - now rewrite Z.min_l.
      - rewrite Z.min_r by lia. rewrite !take_ge by (fold len; lia). reflexivity. }
    rewrite Htake.
    destruct (Z.le_ge_cases a (Z.of_nat len)).
    + now rewrite Z.min_l.
    + rewrite Z.min_r by lia.
      rewrite !drop_ge; [reflexivity | |]; rewrite length_take; fold len; lia.
  - replace (Z.to_nat (Z.min b (Z.of_nat len) - Z.min a (Z.of_nat len))) with 0%nat by lia.
    rewrite take_0. symmetry. apply drop_ge. rewrite length_take. fold len. lia.
Qed.
End Chains.

(** X23: paging by [limit] and [offset] is [slice]: for [a >= 0] and
    [b >= 1], [limit(b).offset(a)] is [slice(a, b)], the entries at
    positions [a] to [b - 1] (none when [a >= b]). *)
Theorem limit_then_offset_is_slice {R} (a b : Z) (this : RecordSet.t R) :
  wf this -> 0 <= a -> 1 <= b ->
  RecordSet.offset a (RecordSet.limit b this) = RecordSet.slice (Some a) (Some b) this /\
  RecordSet.size (RecordSet.slice (Some a) (Some b) this)
  = Z.max 0 (Z.min b (RecordSet.size this) - a).
Proof.
  intros Hwf Ha Hb. rewrite (limit_eq b this Hwf Hb).
  assert (Hwf' : wf (RecordSet.mk (take (Z.to_nat b) (RecordSet.entries this))
                                  (RecordSet.scopes this))).
  { apply wf_mk; [apply NoDup_keys_take, Hwf | exact Hwf]. }
  rewrite (offset_eq a _ Hwf'). cbn [RecordSet.entries RecordSet.scopes].
  unfold RecordSet.slice. rewrite Array_slice_between by lia.
  assert (Hnd : NoDup (keys (drop (Z.to_nat a) (take (Z.to_nat b) (RecordSet.entries this))))).
  { apply NoDup_keys_drop, NoDup_keys_take, Hwf. }
  rewrite (new_eq _ this Hnd Hwf). split; [reflexivity |].
  unfold RecordSet.size. cbn [RecordSet.entries].
  rewrite length_drop, length_take. lia.
Qed.

Lemma limit_then_offset_is_slice_witness :
  RecordSet.ids (RecordSet.offset 1 (RecordSet.limit 2 Examples.people)) = [PNum 2] /\
  RecordSet.size (RecordSet.slice (Some 1) (Some 2) Examples.people) = 1.
Proof.
  destruct (limit_then_offset_is_slice 1 2 Examples.people wf_people) as [Heq Hsize];
    [lia | lia |].
  split; [rewrite Heq; reflexivity | exact Hsize].
Defined.

(** X24: filters chain as a conjunction: when the second predicate does
    not look at the collection, [filter(g).filter(f)] holds the entries
    of the set that satisfy both; when neither does, the two filters can
    be applied in either order. *)
Theorem filter_chain {R} (f g : RecordSet.callback R) (this : RecordSet.t R) :
  wf this -> collection_blind f ->
  RecordSet.filter f (RecordSet.filter g this)
  = RecordSet.filter (fun value_ id c => g value_ id c && f value_ id c) this /\
  (collection_blind g ->
   RecordSet.filter f (RecordSet.filter g this) = RecordSet.filter g (RecordSet.filter f this)).
Proof.
  intros Hwf Hf.
  assert (Hchain : forall (p q : RecordSet.callback R),
             collection_blind p ->
             RecordSet.filter p (RecordSet.filter q this)
             = RecordSet.mk
                 (List.filter (fun e => RecordSet.call q this e && RecordSet.call p this e)
                              (RecordSet.entries this))
                 (RecordSet.scopes this)).
  { intros p q Hp. rewrite (filter_eq q this Hwf).
    rewrite filter_eq by (apply wf_mk; [apply NoDup_keys_filter, Hwf | exact Hwf]).
    cbn [RecordSet.entries RecordSet.scopes]. f_equal.
    rewrite <- filter_filter_andb. apply List.filter_ext. intros e.
    unfold RecordSet.call. cbn [RecordSet.entries]. apply Hp. }
  split.
  - rewrite (Hchain f g Hf), filter_eq by exact Hwf. reflexivity.
  - intros Hg. rewrite (Hchain f g Hf), (Hchain g f Hg). f_equal.
    apply List.filter_ext. intros e. apply andb_comm.
Qed.

Lemma filter_chain_witness :
  RecordSet.ids (RecordSet.filter Examples.over_30
                                  (RecordSet.filter Examples.is_open Examples.people))
  = [PNum 1].
Proof.
  destruct (filter_chain Examples.over_30 Examples.is_open Examples.people wf_people)
    as [-> _]; [| reflexivity].
  intros value_ id c c'. reflexivity.
Defined.

(** X25: a scope can be read on its own result: when the matcher does not
    look at the collection and the comparator, if there is one, is
    consistent, reading the scope on what the scope returned gives that
    same set again. *)
Theorem scope_read_twice {R} (scopeName : string) (this Q : RecordSet.t R)
        (matcherFn : RecordSet.callback R) (comparatorFn : arg (RecordSet.comparator R)) :
  wf this ->
  Map_get scopeName (RecordSet.scopes this) = Some (matcherFn, comparatorFn) ->
  collection_blind matcherFn ->
  (forall c, comparatorFn = Fn c -> consistent (RecordSet.compare_entries c)) ->
  RecordSet.scopedWhere scopeName this = Ok Q ->
  RecordSet.scopedWhere scopeName Q = Ok Q.
Proof.
  intros Hwf Hget Hblind Hcons HQ.
  rewrite (scopedWhere_eq this scopeName matcherFn comparatorFn Hwf Hget) in HQ.
  injection HQ as <-.
  set (matches := List.filter (RecordSet.call matcherFn this) (RecordSet.entries this)) in *.
  set (L := match comparatorFn with
            | Fn c => Array_sort (RecordSet.compare_entries c) matches
            | NotFn _ => matches
            end).
  assert (Hperm : Permutation L matches).
  { unfold L. destruct comparatorFn; [apply Array_sort_Permutation | reflexivity]. }
  assert (HwfQ : wf (RecordSet.mk L (RecordSet.scopes this))).
  { apply wf_mk; [| exact Hwf].
    eapply NoDup_keys_Permutation; [symmetry; exact Hperm |].
    apply NoDup_keys_filter, Hwf. }
  rewrite (scopedWhere_eq _ scopeName matcherFn comparatorFn HwfQ Hget).
  cbn [RecordSet.entries RecordSet.scopes].
  assert (Hall : List.filter (RecordSet.call matcherFn (RecordSet.mk L (RecordSet.scopes this))) L
                 = L).
  { apply filter_all. apply Forall_forall. intros e He.
    rewrite Hperm in He. apply list_elem_of_In, List.filter_In in He as [_ He].
    unfold RecordSet.call in *. rewrite <- He. apply Hblind. }
  rewrite Hall. f_equal. f_equal. unfold L.
  destruct comparatorFn as [c | v]; [| reflexivity].
  apply Array_sort_of_ordered, Array_sort_ordered, (Hcons c eq_refl).
Qed.

Lemma scope_read_twice_witness :
  exists Q, RecordSet.scopedWhere "open" Examples.people = Ok Q /\
            RecordSet.scopedWhere "open" Q = Ok Q.
Proof.
  eexists. split; [reflexivity |].
  apply (scope_read_twice "open" Examples.people _ Examples.is_open (Fn Examples.by_age)
                          wf_people).
  - reflexivity.
  - intros value_ id c c'. reflexivity.
  - intros c [= <-]. exact consistent_by_age.
  - reflexivity.
Defined.

(** X26: a scope that has been registered can be read: when
    [[$addScope]] returns, the entries are untouched, the scopes
    registered before still name what they named, and reading the new
    scope returns the entries that filtering the set by the matcher (and
    sorting by the comparator, if there is one) gives, in a set that
    knows the new scope too. *)
Theorem addScope_then_read {R} (name : string) (matcher : RecordSet.callback R)
        (sortFn : arg (RecordSet.comparator R)) (this : RecordSet.t R) :
  wf this ->
  fst (RecordSet.addScope name (Fn matcher) sortFn this) = Ok tt ->
  let this' := snd (RecordSet.addScope name (Fn matcher) sortFn this) in
  RecordSet.entries this' = RecordSet.entries this /\
  (forall other, other <> name ->
                 Map_get other (RecordSet.scopes this') = Map_get other (RecordSet.scopes this)) /\
  exists Q, RecordSet.scopedWhere name this' = Ok Q /\
            RecordSet.entries Q
            = RecordSet.entries (match sortFn with
                                 | Fn c => RecordSet.sort c (RecordSet.filter matcher this)
                                 | NotFn _ => RecordSet.filter matcher this
                                 end) /\
            Map_get name (RecordSet.scopes Q) = Some (matcher, sortFn).
Proof.
  intros Hwf Hok this'.
  pose proof (wf_addScope name (Fn matcher) sortFn this Hwf) as Hwf'. fold this' in Hwf'.
  assert (Hshape : this' = RecordSet.mk (RecordSet.entries this)
                                        (Map_set name (matcher, sortFn) (RecordSet.scopes this))).
  { subst this'. revert Hok. unfold RecordSet.addScope. simpl.
    destruct (Map_has name (RecordSet.scopes this)); simpl; [discriminate |].
    destruct (if truthy_arg sortFn then _ else _); [| discriminate].
    destruct (RecordSet.property_truthy name this) as [inUse|]; [| discriminate].
    destruct (inUse || RecordSet.mem name RecordSet.prototype_names);
      [discriminate | reflexivity]. }
  assert (Hget : Map_get name (RecordSet.scopes this') = Some (matcher, sortFn)).
  { rewrite Hshape. apply Map_get_set_eq. }
  split; [now rewrite Hshape |]. split.
  - intros other Hne. rewrite Hshape. simpl. now apply Map_get_set_ne.
  - eexists. split; [apply (scopedWhere_eq this' name matcher sortFn Hwf' Hget) |].
    cbn [RecordSet.entries RecordSet.scopes]. split; [| exact Hget].
    assert (Hfilter : List.filter (RecordSet.call matcher this') (RecordSet.entries this')
                      = RecordSet.entries (RecordSet.filter matcher this)).
    { rewrite filter_eq by exact Hwf. cbn [RecordSet.entries].
      unfold RecordSet.call. now rewrite Hshape. }
    rewrite Hfilter. destruct sortFn as [c | v]; [| reflexivity].
    rewrite sort_eq; [reflexivity |].
    rewrite filter_eq by exact Hwf. apply wf_mk; [apply NoDup_keys_filter, Hwf | exact Hwf].
Qed.

Lemma addScope_then_read_witness :
  exists Q, RecordSet.scopedWhere "adults"
              (snd (RecordSet.addScope "adults" (Fn Examples.over_30) (Fn Examples.by_age)
                                       Examples.people)) = Ok Q /\
            RecordSet.ids Q = [PNum 1; PNum 3].
Proof.
  destruct (addScope_then_read "adults" Examples.over_30 (Fn Examples.by_age)
                               Examples.people wf_people eq_refl)
    as (_ & _ & Q & HQ & Hentries & _).
  exists Q. split; [exact HQ |]. unfold RecordSet.ids. rewrite Hentries. reflexivity.
Defined.
